(** * Event filtering and consequence simulation engine

    A shallow embedding of the scenario-consequence code
    (consequences.py, im_fields.py, exposure.py) together with the
    properties of the natural-language specification that can be settled
    on it.

    Conventions.
    - Python ints are [Z] or [nat]; floats that are only compared,
      subtracted and passed around (magnitudes, distances, intensity
      values) are rationals [Q].
    - Python dicts read by key are [gmap string _]; dicts that are
      iterated (the traversal order of taxonomies and assets matters) are
      association lists in insertion order.
    - A raised exception is the left summand of [res]. *)

From Stdlib Require Import ZArith QArith Qabs Lqa List Permutation.
From Stdlib Require Import Ascii String.
From stdpp Require Import gmap strings list fin_maps pretty sorting.

Set Warnings "-register-all".

(** ** Exceptions and the error monad *)

Inductive exn :=
| KeyError (key : string)
| IndexError
| ValueError
| TypeError
| AssertionError (msg : string)
| AttributeError
| NameError
| Exception_ (msg : string)
| WarningRaised (msg : string)
| RejectionLoopFuel.

Definition res (A : Type) : Type := exn + A.

Definition ret {A} (a : A) : res A := inr a.
Definition raise {A} (e : exn) : res A := inl e.

Definition bind {A B} (m : res A) (k : A -> res B) : res B :=
  match m with
  | inl e => inl e
  | inr a => k a
  end.

Declare Scope res_scope.
Delimit Scope res_scope with res.
Notation "'try' x := m 'in' k" := (bind m (fun x => k))
  (at level 10, x pattern, m at level 100, k at level 200,
   format "'[v' 'try'  x  :=  m  'in' '/' k ']'") : res_scope.
Local Open Scope res_scope.

Definition assert_ (b : bool) (msg : string) : res unit :=
  if b then ret tt else raise (AssertionError msg).

Definition of_option {A} (o : option A) (e : exn) : res A :=
  match o with
  | Some a => ret a
  | None => raise e
  end.

(** [for x in xs: st = body(x, st)], stopping at the first exception. *)
Fixpoint for_each {A S} (xs : list A) (body : A -> S -> res S) (st : S) : res S :=
  match xs with
  | [] => ret st
  | x :: xs' => try st' := body x st in for_each xs' body st'
  end.

(** [ [f(x) for x in xs] ], stopping at the first exception. *)
Fixpoint map_res {A B} (f : A -> res B) (xs : list A) : res (list B) :=
  match xs with
  | [] => ret []
  | x :: xs' => try y := f x in try ys := map_res f xs' in ret (y :: ys)
  end.

(** ** The pseudorandom generator behind [random.Random(seed).shuffle]

    consequences.py draws its permutations with the interpreter's
    [random] module: the Mersenne Twister MT19937 seeded through
    [init_by_array], [getrandbits], the rejection loop of [_randbelow]
    and the Fisher-Yates loop of [shuffle]. Words are 32-bit unsigned
    integers kept in [Z] with the wrap-around written out. *)

Module MT.

Local Open Scope Z_scope.

Definition N : nat := 624.
Definition M : nat := 397.
Definition MATRIX_A : Z := 0x9908b0df.
Definition UPPER_MASK : Z := 0x80000000.
Definition LOWER_MASK : Z := 0x7fffffff.

Definition u32 (x : Z) : Z := x mod 2 ^ 32.

Record state := mk_state { mt : list Z; index : nat }.

Definition word (v : list Z) (i : nat) : Z := nth i v 0.

(** [mt[0] = s; for mti in 1..N-1: mt[mti] = 1812433253 * (mt[mti-1] ^ (mt[mti-1] >> 30)) + mti] *)
Fixpoint init_genrand_from (prev : Z) (mti : nat) (count : nat) : list Z :=
  match count with
  | O => []
  | S c =>
      let x := u32 (1812433253 * Z.lxor prev (Z.shiftr prev 30) + Z.of_nat mti) in
      x :: init_genrand_from x (S mti) c
  end.

Definition init_genrand (s : Z) : list Z :=
  u32 s :: init_genrand_from (u32 s) 1 (N - 1).

(** After each store the C code wraps [i] back to 1, copying [mt[N-1]]
    to [mt[0]]. *)
Definition wrap_i (v : list Z) (i : nat) : list Z * nat :=
  if (N <=? i)%nat then (<[0%nat := word v (N - 1)]> v, 1%nat) else (v, i).

(** First loop of [init_by_array]: [k] rounds mixing the key in. *)
Fixpoint mix_key (key : list Z) (k : nat) (v : list Z) (i j : nat) : list Z * nat :=
  match k with
  | O => (v, i)
  | S k' =>
      let p := word v (i - 1) in
      let x := u32 (Z.lxor (word v i) (Z.lxor p (Z.shiftr p 30) * 1664525)
                    + word key j + Z.of_nat j) in
      let '(v1, i1) := wrap_i (<[i := x]> v) (S i) in
      let j1 := if (length key <=? S j)%nat then O else S j in
      mix_key key k' v1 i1 j1
  end.

(** Second loop of [init_by_array]: [N-1] rounds. *)
Fixpoint mix_index (k : nat) (v : list Z) (i : nat) : list Z :=
  match k with
  | O => v
  | S k' =>
      let p := word v (i - 1) in
      let x := u32 (Z.lxor (word v i) (Z.lxor p (Z.shiftr p 30) * 1566083941)
                    - Z.of_nat i) in
      let '(v1, i1) := wrap_i (<[i := x]> v) (S i) in
      mix_index k' v1 i1
  end.

Definition init_by_array (key : list Z) : state :=
  let v0 := init_genrand 19650218 in
  let '(v1, i1) := mix_key key (Nat.max N (length key)) v0 1 0 in
  let v2 := mix_index (N - 1) v1 i1 in
  mk_state (<[0%nat := 0x80000000]> v2) N.

Definition mag01 (y : Z) : Z := if Z.testbit y 0 then MATRIX_A else 0.

(** One step [mt[kk] = mt[kk2] ^ (y >> 1) ^ mag01[y & 1]] of the
    regeneration loops, with [y] made of [mt[kk]] and [mt[kk1]]. *)
Definition twist_at (v : list Z) (kk kk1 kk2 : nat) : list Z :=
  let y := Z.lor (Z.land (word v kk) UPPER_MASK) (Z.land (word v kk1) LOWER_MASK) in
  <[kk := Z.lxor (Z.lxor (word v kk2) (Z.shiftr y 1)) (mag01 y)]> v.

Definition twist (v : list Z) : list Z :=
  let v1 := fold_left (fun v kk => twist_at v kk (kk + 1) (kk + M)) (seq 0 (N - M)) v in
  let v2 := fold_left (fun v kk => twist_at v kk (kk + 1) (kk + M - N)) (seq (N - M) (M - 1)) v1 in
  twist_at v2 (N - 1) 0 (M - 1).

Definition temper (y0 : Z) : Z :=
  let y1 := Z.lxor y0 (Z.shiftr y0 11) in
  let y2 := Z.lxor y1 (Z.land (u32 (Z.shiftl y1 7)) 0x9d2c5680) in
  let y3 := Z.lxor y2 (Z.land (u32 (Z.shiftl y2 15)) 0xefc60000) in
  Z.lxor y3 (Z.shiftr y3 18).

Definition genrand_uint32 (g : state) : Z * state :=
  let '(v, i) := if (N <=? index g)%nat then (twist (mt g), O) else (mt g, index g) in
  (temper (word v i), mk_state v (S i)).

End MT.

Module PyRandom.

Local Open Scope Z_scope.

(** [random.Random(a)] for an int [a]: the key is the absolute value
    cut into 32-bit words, least significant first ([[0]] for 0). *)
Fixpoint key_words (fuel : nat) (n : Z) : list Z :=
  match fuel with
  | O => []
  | S f => if n <? 2 ^ 32 then [n] else (n mod 2 ^ 32) :: key_words f (n / 2 ^ 32)
  end.

Definition seed (a : Z) : MT.state :=
  let n := Z.abs a in
  MT.init_by_array (key_words (S (Z.to_nat (Z.log2 n))) n).

(** [getrandbits(k)]: words are drawn least significant first, the last
    one shifted down to the bits that are left. *)
Fixpoint getrandbits_words (words : nat) (k : Z) (g : MT.state) : Z * MT.state :=
  match words with
  | O => (0, g)
  | S w =>
      let '(r, g1) := MT.genrand_uint32 g in
      let r' := if k <? 32 then Z.shiftr r (32 - k) else r in
      let '(hi, g2) := getrandbits_words w (k - 32) g1 in
      (r' + Z.shiftl hi 32, g2)
  end.

Definition getrandbits (k : Z) (g : MT.state) : Z * MT.state :=
  getrandbits_words (Z.to_nat ((k - 1) / 32 + 1)) k g.

Definition bit_length (n : Z) : Z := if n =? 0 then 0 else Z.log2 n + 1.

(** [_randbelow(n)], defined for [n > 0]: draw [bit_length n] bits until
    the draw is below [n]. The loop has no bound in the library; [fuel]
    bounds the number of draws and running out of it is the exception
    [RejectionLoopFuel]. *)
Fixpoint randbelow_loop (fuel : nat) (n k : Z) (g : MT.state) : res (Z * MT.state) :=
  match fuel with
  | O => raise RejectionLoopFuel
  | S f =>
      let '(r, g1) := getrandbits k g in
      if r <? n then ret (r, g1) else randbelow_loop f n k g1
  end.

Definition randbelow (fuel : nat) (n : Z) (g : MT.state) : res (Z * MT.state) :=
  randbelow_loop fuel n (bit_length n) g.

(** [x[i], x[j] = x[j], x[i]] *)
Definition swap {A} (x : list A) (i j : nat) : list A :=
  match x !! i, x !! j with
  | Some a, Some b => <[j := a]> (<[i := b]> x)
  | _, _ => x
  end.

(** [for i in reversed(range(1, len(x))): j = randbelow(i + 1); swap];
    [n] counts the iterations left, the current index is [n]. *)
Fixpoint shuffle_loop {A} (fuel : nat) (n : nat) (x : list A) (g : MT.state)
  : res (list A) :=
  match n with
  | O => ret x
  | S n' =>
      try (j, g1) := randbelow fuel (Z.of_nat n + 1) g in
      shuffle_loop fuel n' (swap x n (Z.to_nat j)) g1
  end.

(** [random.Random(a).shuffle(x)] *)
Definition shuffle {A} (fuel : nat) (a : Z) (x : list A) : res (list A) :=
  shuffle_loop fuel (length x - 1) x (seed a).

End PyRandom.

(** ** Values read from the JSON files *)

Inductive value :=
| VNum (x : Q)
| VStr (s : string)
| VList (xs : list value)
| VDict (d : gmap string value).

(** [v[k]] for a string key. *)
Definition getitem (v : value) (k : string) : res value :=
  match v with
  | VDict d => of_option (d !! k) (KeyError k)
  | _ => raise TypeError
  end.

(** [v[i]] for an index [i >= 0]. *)
Definition getindex (v : value) (i : nat) : res value :=
  match v with
  | VList xs => of_option (xs !! i) IndexError
  | VStr s => of_option ((fun c => VStr (String c EmptyString)) <$> String.get i s) IndexError
  | VDict _ => raise (KeyError (pretty i))
  | VNum _ => raise TypeError
  end.

(** [k in v.keys()] *)
Definition has_key (v : value) (k : string) : res bool :=
  match v with
  | VDict d => ret (bool_decide (is_Some (d !! k)))
  | _ => raise AttributeError
  end.

(** [len(v.keys())] *)
Definition len_keys (v : value) : res nat :=
  match v with
  | VDict d => ret (size d)
  | _ => raise AttributeError
  end.

(** The items a [for] loop over [v] visits. *)
Definition iterate (v : value) : res (list value) :=
  match v with
  | VList xs => ret xs
  | VStr s => ret ((fun c => VStr (String c EmptyString)) <$> String.list_ascii_of_string s)
  | VDict d => ret (VStr <$> (map_to_list d).*1)
  | VNum _ => raise TypeError
  end.

(** A component name used as a dict key.  The files name components by
    strings and the model covers those names: a list or a dict is
    unhashable in the code as well, a number is not covered. *)
Definition as_key (v : value) : res string :=
  match v with
  | VStr s => ret s
  | _ => raise TypeError
  end.

Definition Qlt_bool (x y : Q) : bool := negb (Qle_bool y x).

(** [min(range(len(keys)), key=keys.__getitem__)]: the first index whose
    key is minimal; [ValueError] on an empty range. *)
Fixpoint argmin_from (best : nat) (best_key : Q) (i : nat) (keys : list Q) : nat :=
  match keys with
  | [] => best
  | k :: ks =>
      if Qlt_bool k best_key then argmin_from i k (S i) ks
      else argmin_from best best_key (S i) ks
  end.

Definition argmin (keys : list Q) : res nat :=
  match keys with
  | [] => raise ValueError
  | k :: ks => ret (argmin_from 0 k 1 ks)
  end.

(** ** [str.lower]

    Strings are kept as their UTF-8 bytes.  [str.lower] maps every code
    point to its lowercase form; capital I with dot above gives two code
    points, and capital sigma gives the final form of the small sigma
    after a cased letter when no cased letter follows, letters that case
    ignores being skipped on both sides.  The tables are those of
    Unicode 14.0.0. *)

Module Unicode.

Local Open Scope Z_scope.

(** Runs of code points with a lowercase form: first, last, step and the
    offset of the lowercase form. *)
Definition lower_runs : list (Z * Z * Z * Z) :=
  [
   (65, 90, 1, 32); (192, 214, 1, 32); (216, 222, 1, 32); (256, 302, 2, 1); (306, 310, 2, 1);
    (313, 327, 2, 1); (330, 374, 2, 1); (376, 376, 1, -121); (377, 381, 2, 1);
    (385, 385, 1, 210); (386, 388, 2, 1); (390, 390, 1, 206); (391, 391, 1, 1);
    (393, 394, 1, 205); (395, 395, 1, 1); (398, 398, 1, 79); (399, 399, 1, 202);
    (400, 400, 1, 203); (401, 401, 1, 1); (403, 403, 1, 205); (404, 404, 1, 207);
    (406, 406, 1, 211); (407, 407, 1, 209); (408, 408, 1, 1); (412, 412, 1, 211);
    (413, 413, 1, 213); (415, 415, 1, 214); (416, 420, 2, 1); (422, 422, 1, 218);
    (423, 423, 1, 1); (425, 425, 1, 218); (428, 428, 1, 1); (430, 430, 1, 218);
    (431, 431, 1, 1); (433, 434, 1, 217); (435, 437, 2, 1); (439, 439, 1, 219);
    (440, 440, 1, 1); (444, 444, 1, 1); (452, 452, 1, 2); (453, 453, 1, 1); (455, 455, 1, 2);
    (456, 456, 1, 1); (458, 458, 1, 2); (459, 475, 2, 1); (478, 494, 2, 1); (497, 497, 1, 2);
    (498, 500, 2, 1); (502, 502, 1, -97); (503, 503, 1, -56); (504, 542, 2, 1);
    (544, 544, 1, -130); (546, 562, 2, 1); (570, 570, 1, 10795); (571, 571, 1, 1);
    (573, 573, 1, -163); (574, 574, 1, 10792); (577, 577, 1, 1); (579, 579, 1, -195);
    (580, 580, 1, 69); (581, 581, 1, 71); (582, 590, 2, 1); (880, 882, 2, 1); (886, 886, 1, 1);
    (895, 895, 1, 116); (902, 902, 1, 38); (904, 906, 1, 37); (908, 908, 1, 64);
    (910, 911, 1, 63); (913, 929, 1, 32); (931, 939, 1, 32); (975, 975, 1, 8);
    (984, 1006, 2, 1); (1012, 1012, 1, -60); (1015, 1015, 1, 1); (1017, 1017, 1, -7);
    (1018, 1018, 1, 1); (1021, 1023, 1, -130); (1024, 1039, 1, 80); (1040, 1071, 1, 32);
    (1120, 1152, 2, 1); (1162, 1214, 2, 1); (1216, 1216, 1, 15); (1217, 1229, 2, 1);
    (1232, 1326, 2, 1); (1329, 1366, 1, 48); (4256, 4293, 1, 7264); (4295, 4295, 1, 7264);
    (4301, 4301, 1, 7264); (5024, 5103, 1, 38864); (5104, 5109, 1, 8); (7312, 7354, 1, -3008);
    (7357, 7359, 1, -3008); (7680, 7828, 2, 1); (7838, 7838, 1, -7615); (7840, 7934, 2, 1);
    (7944, 7951, 1, -8); (7960, 7965, 1, -8); (7976, 7983, 1, -8); (7992, 7999, 1, -8);
    (8008, 8013, 1, -8); (8025, 8031, 2, -8); (8040, 8047, 1, -8); (8072, 8079, 1, -8);
    (8088, 8095, 1, -8); (8104, 8111, 1, -8); (8120, 8121, 1, -8); (8122, 8123, 1, -74);
    (8124, 8124, 1, -9); (8136, 8139, 1, -86); (8140, 8140, 1, -9); (8152, 8153, 1, -8);
    (8154, 8155, 1, -100); (8168, 8169, 1, -8); (8170, 8171, 1, -112); (8172, 8172, 1, -7);
    (8184, 8185, 1, -128); (8186, 8187, 1, -126); (8188, 8188, 1, -9); (8486, 8486, 1, -7517);
    (8490, 8490, 1, -8383); (8491, 8491, 1, -8262); (8498, 8498, 1, 28); (8544, 8559, 1, 16);
    (8579, 8579, 1, 1); (9398, 9423, 1, 26); (11264, 11311, 1, 48); (11360, 11360, 1, 1);
    (11362, 11362, 1, -10743); (11363, 11363, 1, -3814); (11364, 11364, 1, -10727);
    (11367, 11371, 2, 1); (11373, 11373, 1, -10780); (11374, 11374, 1, -10749);
    (11375, 11375, 1, -10783); (11376, 11376, 1, -10782); (11378, 11378, 1, 1);
    (11381, 11381, 1, 1); (11390, 11391, 1, -10815); (11392, 11490, 2, 1); (11499, 11501, 2, 1);
    (11506, 11506, 1, 1); (42560, 42604, 2, 1); (42624, 42650, 2, 1); (42786, 42798, 2, 1);
    (42802, 42862, 2, 1); (42873, 42875, 2, 1); (42877, 42877, 1, -35332); (42878, 42886, 2, 1);
    (42891, 42891, 1, 1); (42893, 42893, 1, -42280); (42896, 42898, 2, 1); (42902, 42920, 2, 1);
    (42922, 42922, 1, -42308); (42923, 42923, 1, -42319); (42924, 42924, 1, -42315);
    (42925, 42925, 1, -42305); (42926, 42926, 1, -42308); (42928, 42928, 1, -42258);
    (42929, 42929, 1, -42282); (42930, 42930, 1, -42261); (42931, 42931, 1, 928);
    (42932, 42946, 2, 1); (42948, 42948, 1, -48); (42949, 42949, 1, -42307);
    (42950, 42950, 1, -35384); (42951, 42953, 2, 1); (42960, 42960, 1, 1); (42966, 42968, 2, 1);
    (42997, 42997, 1, 1); (65313, 65338, 1, 32); (66560, 66599, 1, 40); (66736, 66771, 1, 40);
    (66928, 66938, 1, 39); (66940, 66954, 1, 39); (66956, 66962, 1, 39); (66964, 66965, 1, 39);
    (68736, 68786, 1, 64); (71840, 71871, 1, 32); (93760, 93791, 1, 32); (125184, 125217, 1, 34)
  ].

(** The code points that case ignores. *)
Definition case_ignorable : list (Z * Z) :=
  [
   (39, 39); (46, 46); (58, 58); (94, 94); (96, 96); (168, 168); (173, 173); (175, 175);
    (180, 180); (183, 184); (688, 879); (884, 885); (890, 890); (900, 901); (903, 903);
    (1155, 1161); (1369, 1369); (1375, 1375); (1425, 1469); (1471, 1471); (1473, 1474);
    (1476, 1477); (1479, 1479); (1524, 1524); (1536, 1541); (1552, 1562); (1564, 1564);
    (1600, 1600); (1611, 1631); (1648, 1648); (1750, 1757); (1759, 1768); (1770, 1773);
    (1807, 1807); (1809, 1809); (1840, 1866); (1958, 1968); (2027, 2037); (2042, 2042);
    (2045, 2045); (2070, 2093); (2137, 2139); (2184, 2184); (2192, 2193); (2200, 2207);
    (2249, 2306); (2362, 2362); (2364, 2364); (2369, 2376); (2381, 2381); (2385, 2391);
    (2402, 2403); (2417, 2417); (2433, 2433); (2492, 2492); (2497, 2500); (2509, 2509);
    (2530, 2531); (2558, 2558); (2561, 2562); (2620, 2620); (2625, 2626); (2631, 2632);
    (2635, 2637); (2641, 2641); (2672, 2673); (2677, 2677); (2689, 2690); (2748, 2748);
    (2753, 2757); (2759, 2760); (2765, 2765); (2786, 2787); (2810, 2815); (2817, 2817);
    (2876, 2876); (2879, 2879); (2881, 2884); (2893, 2893); (2901, 2902); (2914, 2915);
    (2946, 2946); (3008, 3008); (3021, 3021); (3072, 3072); (3076, 3076); (3132, 3132);
    (3134, 3136); (3142, 3144); (3146, 3149); (3157, 3158); (3170, 3171); (3201, 3201);
    (3260, 3260); (3263, 3263); (3270, 3270); (3276, 3277); (3298, 3299); (3328, 3329);
    (3387, 3388); (3393, 3396); (3405, 3405); (3426, 3427); (3457, 3457); (3530, 3530);
    (3538, 3540); (3542, 3542); (3633, 3633); (3636, 3642); (3654, 3662); (3761, 3761);
    (3764, 3772); (3782, 3782); (3784, 3789); (3864, 3865); (3893, 3893); (3895, 3895);
    (3897, 3897); (3953, 3966); (3968, 3972); (3974, 3975); (3981, 3991); (3993, 4028);
    (4038, 4038); (4141, 4144); (4146, 4151); (4153, 4154); (4157, 4158); (4184, 4185);
    (4190, 4192); (4209, 4212); (4226, 4226); (4229, 4230); (4237, 4237); (4253, 4253);
    (4348, 4348); (4957, 4959); (5906, 5908); (5938, 5939); (5970, 5971); (6002, 6003);
    (6068, 6069); (6071, 6077); (6086, 6086); (6089, 6099); (6103, 6103); (6109, 6109);
    (6155, 6159); (6211, 6211); (6277, 6278); (6313, 6313); (6432, 6434); (6439, 6440);
    (6450, 6450); (6457, 6459); (6679, 6680); (6683, 6683); (6742, 6742); (6744, 6750);
    (6752, 6752); (6754, 6754); (6757, 6764); (6771, 6780); (6783, 6783); (6823, 6823);
    (6832, 6862); (6912, 6915); (6964, 6964); (6966, 6970); (6972, 6972); (6978, 6978);
    (7019, 7027); (7040, 7041); (7074, 7077); (7080, 7081); (7083, 7085); (7142, 7142);
    (7144, 7145); (7149, 7149); (7151, 7153); (7212, 7219); (7222, 7223); (7288, 7293);
    (7376, 7378); (7380, 7392); (7394, 7400); (7405, 7405); (7412, 7412); (7416, 7417);
    (7468, 7530); (7544, 7544); (7579, 7679); (8125, 8125); (8127, 8129); (8141, 8143);
    (8157, 8159); (8173, 8175); (8189, 8190); (8203, 8207); (8216, 8217); (8228, 8228);
    (8231, 8231); (8234, 8238); (8288, 8292); (8294, 8303); (8305, 8305); (8319, 8319);
    (8336, 8348); (8400, 8432); (11388, 11389); (11503, 11505); (11631, 11631); (11647, 11647);
    (11744, 11775); (11823, 11823); (12293, 12293); (12330, 12333); (12337, 12341);
    (12347, 12347); (12441, 12446); (12540, 12542); (40981, 40981); (42232, 42237);
    (42508, 42508); (42607, 42610); (42612, 42621); (42623, 42623); (42652, 42655);
    (42736, 42737); (42752, 42785); (42864, 42864); (42888, 42890); (42994, 42996);
    (43000, 43001); (43010, 43010); (43014, 43014); (43019, 43019); (43045, 43046);
    (43052, 43052); (43204, 43205); (43232, 43249); (43263, 43263); (43302, 43309);
    (43335, 43345); (43392, 43394); (43443, 43443); (43446, 43449); (43452, 43453);
    (43471, 43471); (43493, 43494); (43561, 43566); (43569, 43570); (43573, 43574);
    (43587, 43587); (43596, 43596); (43632, 43632); (43644, 43644); (43696, 43696);
    (43698, 43700); (43703, 43704); (43710, 43711); (43713, 43713); (43741, 43741);
    (43756, 43757); (43763, 43764); (43766, 43766); (43867, 43871); (43881, 43883);
    (44005, 44005); (44008, 44008); (44013, 44013); (64286, 64286); (64434, 64450);
    (65024, 65039); (65043, 65043); (65056, 65071); (65106, 65106); (65109, 65109);
    (65279, 65279); (65287, 65287); (65294, 65294); (65306, 65306); (65342, 65342);
    (65344, 65344); (65392, 65392); (65438, 65439); (65507, 65507); (65529, 65531);
    (66045, 66045); (66272, 66272); (66422, 66426); (67456, 67461); (67463, 67504);
    (67506, 67514); (68097, 68099); (68101, 68102); (68108, 68111); (68152, 68154);
    (68159, 68159); (68325, 68326); (68900, 68903); (69291, 69292); (69446, 69456);
    (69506, 69509); (69633, 69633); (69688, 69702); (69744, 69744); (69747, 69748);
    (69759, 69761); (69811, 69814); (69817, 69818); (69821, 69821); (69826, 69826);
    (69837, 69837); (69888, 69890); (69927, 69931); (69933, 69940); (70003, 70003);
    (70016, 70017); (70070, 70078); (70089, 70092); (70095, 70095); (70191, 70193);
    (70196, 70196); (70198, 70199); (70206, 70206); (70367, 70367); (70371, 70378);
    (70400, 70401); (70459, 70460); (70464, 70464); (70502, 70508); (70512, 70516);
    (70712, 70719); (70722, 70724); (70726, 70726); (70750, 70750); (70835, 70840);
    (70842, 70842); (70847, 70848); (70850, 70851); (71090, 71093); (71100, 71101);
    (71103, 71104); (71132, 71133); (71219, 71226); (71229, 71229); (71231, 71232);
    (71339, 71339); (71341, 71341); (71344, 71349); (71351, 71351); (71453, 71455);
    (71458, 71461); (71463, 71467); (71727, 71735); (71737, 71738); (71995, 71996);
    (71998, 71998); (72003, 72003); (72148, 72151); (72154, 72155); (72160, 72160);
    (72193, 72202); (72243, 72248); (72251, 72254); (72263, 72263); (72273, 72278);
    (72281, 72283); (72330, 72342); (72344, 72345); (72752, 72758); (72760, 72765);
    (72767, 72767); (72850, 72871); (72874, 72880); (72882, 72883); (72885, 72886);
    (73009, 73014); (73018, 73018); (73020, 73021); (73023, 73029); (73031, 73031);
    (73104, 73105); (73109, 73109); (73111, 73111); (73459, 73460); (78896, 78904);
    (92912, 92916); (92976, 92982); (92992, 92995); (94031, 94031); (94095, 94111);
    (94176, 94177); (94179, 94180); (110576, 110579); (110581, 110587); (110589, 110590);
    (113821, 113822); (113824, 113827); (118528, 118573); (118576, 118598); (119143, 119145);
    (119155, 119170); (119173, 119179); (119210, 119213); (119362, 119364); (121344, 121398);
    (121403, 121452); (121461, 121461); (121476, 121476); (121499, 121503); (121505, 121519);
    (122880, 122886); (122888, 122904); (122907, 122913); (122915, 122916); (122918, 122922);
    (123184, 123197); (123566, 123566); (123628, 123631); (125136, 125142); (125252, 125259);
    (127995, 127999); (917505, 917505); (917536, 917631); (917760, 917999)
  ].

(** The cased code points among the others. *)
Definition cased : list (Z * Z) :=
  [
   (65, 90); (97, 122); (170, 170); (181, 181); (186, 186); (192, 214); (216, 246); (248, 442);
    (444, 447); (452, 659); (661, 687); (880, 883); (886, 887); (891, 893); (895, 895);
    (902, 902); (904, 906); (908, 908); (910, 929); (931, 1013); (1015, 1153); (1162, 1327);
    (1329, 1366); (1376, 1416); (4256, 4293); (4295, 4295); (4301, 4301); (4304, 4346);
    (4349, 4351); (5024, 5109); (5112, 5117); (7296, 7304); (7312, 7354); (7357, 7359);
    (7424, 7467); (7531, 7543); (7545, 7578); (7680, 7957); (7960, 7965); (7968, 8005);
    (8008, 8013); (8016, 8023); (8025, 8025); (8027, 8027); (8029, 8029); (8031, 8061);
    (8064, 8116); (8118, 8124); (8126, 8126); (8130, 8132); (8134, 8140); (8144, 8147);
    (8150, 8155); (8160, 8172); (8178, 8180); (8182, 8188); (8450, 8450); (8455, 8455);
    (8458, 8467); (8469, 8469); (8473, 8477); (8484, 8484); (8486, 8486); (8488, 8488);
    (8490, 8493); (8495, 8500); (8505, 8505); (8508, 8511); (8517, 8521); (8526, 8526);
    (8544, 8575); (8579, 8580); (9398, 9449); (11264, 11387); (11390, 11492); (11499, 11502);
    (11506, 11507); (11520, 11557); (11559, 11559); (11565, 11565); (42560, 42605);
    (42624, 42651); (42786, 42863); (42865, 42887); (42891, 42894); (42896, 42954);
    (42960, 42961); (42963, 42963); (42965, 42969); (42997, 42998); (43002, 43002);
    (43824, 43866); (43872, 43880); (43888, 43967); (64256, 64262); (64275, 64279);
    (65313, 65338); (65345, 65370); (66560, 66639); (66736, 66771); (66776, 66811);
    (66928, 66938); (66940, 66954); (66956, 66962); (66964, 66965); (66967, 66977);
    (66979, 66993); (66995, 67001); (67003, 67004); (68736, 68786); (68800, 68850);
    (71840, 71903); (93760, 93823); (119808, 119892); (119894, 119964); (119966, 119967);
    (119970, 119970); (119973, 119974); (119977, 119980); (119982, 119993); (119995, 119995);
    (119997, 120003); (120005, 120069); (120071, 120074); (120077, 120084); (120086, 120092);
    (120094, 120121); (120123, 120126); (120128, 120132); (120134, 120134); (120138, 120144);
    (120146, 120485); (120488, 120512); (120514, 120538); (120540, 120570); (120572, 120596);
    (120598, 120628); (120630, 120654); (120656, 120686); (120688, 120712); (120714, 120744);
    (120746, 120770); (120772, 120779); (122624, 122633); (122635, 122654); (125184, 125251);
    (127280, 127305); (127312, 127337); (127344, 127369)
  ].

Definition in_ranges (c : Z) (rs : list (Z * Z)) : bool :=
  existsb (fun r => (fst r <=? c) && (c <=? snd r)) rs.

Definition in_run (c : Z) (r : Z * Z * Z * Z) : bool :=
  let '(lo, hi, step, _) := r in
  (lo <=? c) && (c <=? hi) && ((c - lo) mod step =? 0).

Definition lower_code_point (c : Z) : list Z :=
  if c =? 304 then [105; 775]
  else
    match List.find (in_run c) lower_runs with
    | Some (_, _, _, d) => [c + d]
    | None => [c]
    end.

(** The first code point of [cs] that case does not ignore is cased. *)
Fixpoint meets_cased (cs : list Z) : bool :=
  match cs with
  | [] => false
  | c :: cs' => if in_ranges c case_ignorable then meets_cased cs' else in_ranges c cased
  end.

(** [before] holds the code points already passed, the nearest first. *)
Fixpoint lower_from (before rest : list Z) : list Z :=
  match rest with
  | [] => []
  | c :: rest' =>
      (if c =? 931
       then (if meets_cased before && negb (meets_cased rest') then [962] else [963])
       else lower_code_point c)
      ++ lower_from (c :: before) rest'
  end.

Definition byte (c : ascii) : Z := Z.of_nat (nat_of_ascii c).
Definition char (z : Z) : ascii := ascii_of_nat (Z.to_nat z).

Definition continuation (b : Z) : bool := (128 <=? b) && (b <? 192).

(** A byte that starts no well-formed sequence is kept as a code point
    above the Unicode range, which [encode] gives back unchanged. *)
Definition stray (b : Z) : Z := 1114112 + b.

Fixpoint decode (s : string) : list Z :=
  match s with
  | EmptyString => []
  | String c0 s0 =>
      let b0 := byte c0 in
      if b0 <? 128 then b0 :: decode s0
      else
        match s0 with
        | String c1 s1 =>
            let b1 := byte c1 in
            if (192 <=? b0) && (b0 <? 224) && continuation b1
            then ((b0 - 192) * 64 + (b1 - 128)) :: decode s1
            else
              match s1 with
              | String c2 s2 =>
                  let b2 := byte c2 in
                  if (224 <=? b0) && (b0 <? 240) && continuation b1 && continuation b2
                  then ((b0 - 224) * 4096 + (b1 - 128) * 64 + (b2 - 128)) :: decode s2
                  else
                    match s2 with
                    | String c3 s3 =>
                        let b3 := byte c3 in
                        if (240 <=? b0) && (b0 <? 248) && continuation b1
                           && continuation b2 && continuation b3
                        then ((b0 - 240) * 262144 + (b1 - 128) * 4096
                              + (b2 - 128) * 64 + (b3 - 128)) :: decode s3
                        else stray b0 :: decode s0
                    | EmptyString => stray b0 :: decode s0
                    end
              | EmptyString => stray b0 :: decode s0
              end
        | EmptyString => [stray b0]
        end
  end.

Definition encode_code_point (c : Z) : string :=
  if c <? 128 then String (char c) EmptyString
  else if c <? 2048 then
    String (char (192 + c / 64)) (String (char (128 + c mod 64)) EmptyString)
  else if c <? 65536 then
    String (char (224 + c / 4096))
      (String (char (128 + (c / 64) mod 64))
         (String (char (128 + c mod 64)) EmptyString))
  else if c <? 1114112 then
    String (char (240 + c / 262144))
      (String (char (128 + (c / 4096) mod 64))
         (String (char (128 + (c / 64) mod 64))
            (String (char (128 + c mod 64)) EmptyString)))
  else String (char (c - 1114112)) EmptyString.

Fixpoint encode (cs : list Z) : string :=
  match cs with
  | [] => EmptyString
  | c :: cs' => (encode_code_point c ++ encode cs')%string
  end.

(** A string as an array of fixed-width strings keeps it: at most [n]
    code points, and no trailing NUL characters, which the array cannot
    tell from its padding. *)
Fixpoint strip (cs : list Z) : list Z :=
  match cs with
  | [] => []
  | c :: cs' =>
      match strip cs' with
      | [] => if c =? 0 then [] else [c]
      | r => c :: r
      end
  end.

Definition strip_nul (s : string) : string := encode (strip (decode s)).

Definition stored (n : nat) (s : string) : string :=
  encode (strip (List.firstn n (decode s))).

End Unicode.

(** [s.lower()] *)
Definition lower (s : string) : string :=
  Unicode.encode (Unicode.lower_from [] (Unicode.decode s)).

(** ** Data handed over by the loaders *)

(** One row of [imfield_data['gmf_data']['data']]. *)
Record gmf_row := { sid : Z; eid : Z; gmv : list Q }.

(** One row of [imfield_data['events']]. *)
Record event_row := { ev_id : Z; rup_id : Z }.

(** One row of [imfield_data['ruptures']]; [hypo] keeps the first two
    columns, which are all the code reads. *)
Record rupture_row := { rup : Z; mag : Q; hypo : Q * Q }.

(** One row of [imfield_data['sitecol']]. *)
Record site_row := { sids : Z; site_lon : Q; site_lat : Q }.

Record imfield := {
  imts : string;
  gmf_data : list gmf_row;
  events : list event_row;
  ruptures : list rupture_row;
  sitecol : list site_row
}.

(** [location['sid']]: a single site id or a list of site ids, as the
    validators of the exposure model accept it. *)
Inductive sid_field :=
| SidOne (z : Z)
| SidMany (l : list Z).

(** The [location] dict of an asset; [hazard_sid] is the key
    [exposure_by_taxonomy] adds. *)
Record location := {
  loc_sid : sid_field;
  hzrd_ctrl_pnt : option Z;
  hazard_sid : option Z
}.

Record asset := {
  taxonomy : string;
  asset_type : string;
  asset_location : location
}.

(** [cons_for_hazard[tax_key]] *)
Record taxonomy_cons := {
  im_type : string;
  iml_consequences : list value;
  component_damage_state_description : list value
}.

(** ** Binary64 arithmetic

    Numbers are kept in [Q] and stand for the binary64 values the
    interpreter holds; an arithmetic operation gives the exact result
    rounded to the nearest binary64 value, the even one of two equally
    near. *)

Module Binary64.

Local Open Scope Z_scope.

(** [n/d < 2^e] for positive [n], [d]. *)
Definition below_pow2 (n d e : Z) : bool :=
  if 0 <=? e then n <? d * 2 ^ e else n * 2 ^ (- e) <? d.

(** The integer [e] with [2^e <= n/d < 2^(e+1)], for positive [n], [d]. *)
Definition ilog2 (n d : Z) : Z :=
  let e0 := Z.log2 n - Z.log2 d in
  if below_pow2 n d e0 then e0 - 1 else e0.

(** The integer nearest to [N/D], the even one of two equally near. *)
Definition nearest_even (N D : Z) : Z :=
  let m := N / D in
  let r := N mod D in
  if 2 * r <? D then m
  else if D <? 2 * r then m + 1
  else if Z.even m then m else m + 1.

(** What an overflow gives: it stands for [inf], above every finite
    value and equal to itself. *)
Definition huge : Q := inject_Z (2 ^ 1024).

(** The binary64 value nearest to [n/d >= 0]: 53 significant bits, the
    least exponent that of the subnormal numbers. *)
Definition round_pos (n d : Z) : Q :=
  if n =? 0 then 0%Q
  else
    let e := Z.max (ilog2 n d) (-1022) in
    let qe := e - 52 in
    let m := if 0 <=? qe then nearest_even n (d * 2 ^ qe)
             else nearest_even (n * 2 ^ (- qe)) d in
    let x := if 0 <=? qe then inject_Z (m * 2 ^ qe)
             else Qred (Qmake m (Z.to_pos (2 ^ (- qe)))) in
    if Qle_bool huge x then huge else x.

Definition round (q : Q) : Q :=
  let x := round_pos (Z.abs (Qnum q)) (Zpos (Qden q)) in
  if Qnum q <? 0 then Qopp x else x.

(** [x - y] on binary64 values. *)
Definition sub (x y : Q) : Q := round (x - y).

End Binary64.

(** ** consequences.py *)

Module Consequences.
Section Engine.

(** [float(s)] on a string, owned by the interpreter. *)
Variable float_of_string : string -> option Q.

(** [float(v)] *)
Definition to_float (v : value) : res Q :=
  match v with
  | VNum x => ret x
  | VStr s => of_option (float_of_string s) ValueError
  | _ => raise TypeError
  end.

Definition get_cons_imlevels (consequences : list value) : res (list Q) :=
  map_res (fun cons => try l := getitem cons "im_level" in to_float l) consequences.

(** [[arr[field][i] for i in rndnums]] *)
Definition reindex (owner : value) (field : string) (rndnums : list nat)
  : res (list value) :=
  map_res (fun i => try arr := getitem owner field in getindex arr i) rndnums.

(** [rrng[comp].update({field: v})] *)
Definition update_field (rrng : gmap string value) (comp field : string) (v : value)
  : res (gmap string value) :=
  match rrng !! comp with
  | Some (VDict d) => ret (<[comp := VDict (<[field := v]> d)]> rrng)
  | Some _ => raise AttributeError
  | None => raise (KeyError comp)
  end.

(** [if field in owner.keys(): rrng[comp].update({out: [owner[src][i] for i in rndnums]})] *)
Definition rearrange_field (owner : value) (guard src out comp : string)
    (rndnums : list nat) (rrng : gmap string value) : res (gmap string value) :=
  try present := has_key owner guard in
  if present : bool then
    try xs := reindex owner src rndnums in
    update_field rrng comp out (VList xs)
  else ret rrng.

(** Body of the Tier I loop for one entry of [asset_cons['consequences']]. *)
Definition tier1_component (rndnums : list nat) (asset_cons : value)
    (rrng : gmap string value) : res (gmap string value) :=
  try c := getitem asset_cons "component" in
  try name := as_key c in
  if negb (String.eqb name "global") then
    let rrng0 := <[name := VDict ∅]> rrng in
    try rrng1 := rearrange_field asset_cons "cost" "cost" "cost" name rndnums rrng0 in
    rearrange_field asset_cons "damage_state" "damage_state" "damage_state" name rndnums rrng1
  else
    let rrng0 := <[name := VDict ∅]> rrng in
    try rrng1 := rearrange_field asset_cons "recovery" "recovery_realizations" "recovery"
                   name rndnums rrng0 in
    try rrng2 := rearrange_field asset_cons "cost" "cost" "cost" name rndnums rrng1 in
    rearrange_field asset_cons "damage_state" "damage_state" "damage_state" name rndnums rrng2.

Definition tier1 (rndnums : list nat) (asset_cons : value) : res (gmap string value) :=
  try cs := getitem asset_cons "consequences" in
  try comps := iterate cs in
  for_each comps (tier1_component rndnums) ∅.

Definition rlz (i : nat) : string := "rlz_" +:+ pretty (i + 1).

(** [{'rlz_' + str(i + 1): rec['rlz_' + str(k + 1)] for i, k in enumerate(rndnums)}] *)
Fixpoint recovery_dict (rec : value) (i : nat) (rndnums : list nat)
    (acc : gmap string value) : res (gmap string value) :=
  match rndnums with
  | [] => ret acc
  | k :: ks =>
      try r := getitem rec (rlz k) in
      recovery_dict rec (S i) ks (<[rlz i := r]> acc)
  end.

Definition tier2 (rndnums : list nat) (asset_cons : value) : res (gmap string value) :=
  let rrng0 : gmap string value := {[ "global" := VDict ∅ ]} in
  try g := getitem asset_cons "global" in
  try rrng1 := rearrange_field g "cost" "cost" "cost" "global" rndnums rrng0 in
  try rrng2 := rearrange_field g "damage_state" "damage_state" "damage_state" "global"
                 rndnums rrng1 in
  try present := has_key g "recovery" in
  if present : bool then
    try rec := getitem g "recovery" in
    try recovery := recovery_dict rec 0 rndnums ∅ in
    update_field rrng2 "global" "recovery" (VDict recovery)
  else ret rrng2.

(** The dispatch on [len(asset_cons.keys()) > 1]. *)
Definition rearrange (rndnums : list nat) (asset_cons : value) : res (gmap string value) :=
  try n := len_keys asset_cons in
  if (1 <? n)%nat then tier1 rndnums asset_cons else tier2 rndnums asset_cons.

(** [results]: event id (as a string), then asset name, then the
    rearranged consequences of the asset. *)
Definition results_t : Type := gmap string (gmap string value).

Definition store_result (event : Z) (asset_name : string) (rrng : gmap string value)
    (results : results_t) : results_t :=
  match results !! pretty event with
  | Some by_asset => <[pretty event := <[asset_name := VDict rrng]> by_asset]> results
  | None => <[pretty event := {[ asset_name := VDict rrng ]}]> results
  end.

(** [min(range(len(asset_im_levels)),
         key=lambda i: abs(asset_im_levels[i] - im_value.item()))] *)
Definition closest_im (asset_im_levels : list Q) (im_value : Q) : res nat :=
  argmin ((fun l => Qabs (Binary64.sub l im_value)) <$> asset_im_levels).

Definition event_body (im_values : list Q) (asset_name : string)
    (asset_im_levels : list Q) (asset_consequences : list value) (rndnums : list nat)
    (ev : nat * Z) (results : results_t) : res results_t :=
  let '(ev_idx, event) := ev in
  try im_value := of_option (im_values !! ev_idx) IndexError in
  try idx_closest_im := closest_im asset_im_levels im_value in
  try asset_cons := of_option (asset_consequences !! idx_closest_im) IndexError in
  try asset_cons_rrng := rearrange rndnums asset_cons in
  ret (store_result event asset_name asset_cons_rrng results).

Definition get_consequences_by_event (events : list Z) (im_values : list Q)
    (asset_name : string) (asset_im_levels : list Q) (asset_consequences : list value)
    (rndnums : list nat) (results : results_t) : res results_t :=
  for_each (imap pair events)
    (event_body im_values asset_name asset_im_levels asset_consequences rndnums)
    results.

(** [find_conss_idx]: the names under [tag] as the array of 25-character
    strings keeps them, failing on a name seen before. *)
Definition find_conss_idx_body (tag : string) (comps : value)
    (st : list string * list string) : res (list string * list string) :=
  let '(comp_refs, names) := st in
  try c := getitem comps tag in
  try comp_name := as_key c in
  if bool_decide (comp_name ∈ comp_refs)
  then raise (Exception_ "duplicate component")
  else ret (comp_name :: comp_refs, names ++ [Unicode.stored 25 comp_name]).

Definition find_conss_idx (comps_data : list value) (tag : string) : res (list string) :=
  try st := for_each comps_data (find_conss_idx_body tag) ([], []) in
  ret (snd st).

(** [numpy.where(names == component)[0][0]] *)
Fixpoint first_index (component : string) (names : list string) (i : nat) : res nat :=
  match names with
  | [] => raise IndexError
  | n :: ns => if String.eqb n component then ret i else first_index component ns (S i)
  end.

Definition find_cons_idx (comps_data : list value) (tag component : string) : res nat :=
  try names := find_conss_idx comps_data tag in
  first_index (Unicode.strip_nul component) names 0.

(** The part of the per-asset loop body after the shuffle: the asset is
    processed with the index list [nums]. *)
Definition process_asset (event_id : Z) (rows_ev : list gmf_row) (tc : taxonomy_cons)
    (nums : list nat) (a : string * asset)
    (out : results_t * gmap string value) : res (results_t * gmap string value) :=
  let '(asset_name, asset) := a in
  let '(results, asset_ds_description) := out in
  try hsid := of_option (hazard_sid (asset_location asset)) (KeyError "hazard_sid") in
  try row := of_option (head (filter (fun r => sid r = hsid) rows_ev)) IndexError in
  let im_values := gmv row in
  try asset_im_levels := get_cons_imlevels (iml_consequences tc) in
  let asset_consequences := iml_consequences tc in
  try results' := get_consequences_by_event [event_id] im_values asset_name
                    asset_im_levels asset_consequences nums results in
  try global_idx := find_cons_idx (component_damage_state_description tc)
                      "component" "global" in
  try d := of_option (component_damage_state_description tc !! global_idx) IndexError in
  ret (results', <[asset_name := d]> asset_ds_description).

(** State carried around the two nested loops. *)
Record loop_state := {
  rnd_seed : Z;
  nums : list nat;
  results : results_t;
  asset_ds_description : gmap string value
}.

(** Body of the loop over [exp_assets[tax_key].items()]: [nums] is
    shuffled in place, so the next asset starts from this one's list. *)
Definition asset_body (fuel : nat) (event_id : Z) (rows_ev : list gmf_row)
    (tc : taxonomy_cons) (a : string * asset) (st : loop_state) : res loop_state :=
  let rnd_seed' := (rnd_seed st + 1)%Z in
  try nums' := PyRandom.shuffle fuel rnd_seed' (nums st) in
  try out := process_asset event_id rows_ev tc nums' a
               (results st, asset_ds_description st) in
  ret {| rnd_seed := rnd_seed'; nums := nums';
         results := fst out; asset_ds_description := snd out |}.

(** Body of the loop over [cons_for_hazard]. *)
Definition taxonomy_body (fuel : nat) (event_id : Z) (imf : imfield)
    (rows_ev : list gmf_row) (exp_assets : gmap string (list (string * asset)))
    (t : string * taxonomy_cons) (st : loop_state) : res loop_state :=
  let '(tax_key, tc) := t in
  try _ := assert_ (String.eqb (lower (im_type tc)) (lower (imts imf)))
             "the IM type of the IM fields should be the same with this of the assets" in
  try assets := of_option (exp_assets !! tax_key) (KeyError tax_key) in
  for_each assets (asset_body fuel event_id rows_ev tc) st.

Definition get_consequences_by_event_all_assets (fuel : nat) (event_id : Z)
    (imf : imfield) (cons_for_hazard : list (string * taxonomy_cons))
    (cons_mtdata : gmap string Z) (exp_assets : gmap string (list (string * asset)))
  : res (results_t * gmap string value) :=
  let rows_ev := filter (fun r => eid r = event_id) (gmf_data imf) in
  try Nrealizations := of_option (cons_mtdata !! "Nrealizations")
                         (KeyError "Nrealizations") in
  let st0 := {| rnd_seed := 0; nums := seq 0 (Z.to_nat Nrealizations);
                results := ∅; asset_ds_description := ∅ |} in
  try st := for_each cons_for_hazard
              (taxonomy_body fuel event_id imf rows_ev exp_assets) st0 in
  ret (results st, asset_ds_description st).

End Engine.
End Consequences.

(** ** im_fields.py *)

Module ImFields.
Section Filter.

(** [geopy.distance.distance(p, q).km], owned by the geodesy library
    (it may reject a coordinate). *)
Variable geodesic_km : Q * Q -> Q * Q -> res Q.

(** Truth value of an optional number: [None] and [0] are false. *)
Definition truthy (x : option Q) : bool :=
  match x with
  | Some q => negb (Qeq_bool q 0)
  | None => false
  end.

(** Events contributed by one asset to [events_of_interest]. *)
Definition events_of_asset (rows : list gmf_row) (events_filtering_method : Z)
    (IM_threshold : option Q) (asset : asset) : res (list Z) :=
  try hsid := of_option (hazard_sid (asset_location asset)) (KeyError "hazard_sid") in
  let at_site := filter (fun r => sid r = hsid) rows in
  if (events_filtering_method =? 1)%Z then ret (eid <$> at_site)
  else if (events_filtering_method =? 2)%Z then
    let events1 := eid <$> at_site in
    try im_values := map_res (fun r => of_option (head (gmv r)) IndexError) at_site in
    try t := of_option IM_threshold TypeError in
    ret (fst <$> filter (fun ev => Qle_bool t (snd ev) = true) (zip events1 im_values))
  else raise NameError.

Definition stage1_asset (rows : list gmf_row) (events_filtering_method : Z)
    (IM_threshold : option Q) (a : string * asset) (events_of_interest : gset Z)
  : res (gset Z) :=
  try evs := events_of_asset rows events_filtering_method IM_threshold (snd a) in
  ret (list_to_set evs ∪ events_of_interest).

Definition stage1_taxonomy (imf : imfield)
    (exp_assets : gmap string (list (string * asset)))
    (events_filtering_method : Z) (IM_threshold : option Q)
    (t : string * taxonomy_cons) (events_of_interest : gset Z) : res (gset Z) :=
  let '(tax_key, tc) := t in
  try _ := assert_ (String.eqb (lower (im_type tc)) (lower (imts imf)))
             "the IM type of the IM fields should be the same with this of the assets" in
  try assets := of_option (exp_assets !! tax_key) (KeyError tax_key) in
  for_each assets (stage1_asset (gmf_data imf) events_filtering_method IM_threshold)
    events_of_interest.

(** The two nested loops of [filter_events_by_imvalue], before the
    final assertion. *)
Definition collect_events (consequences : list (string * taxonomy_cons))
    (imf : imfield) (exp_assets : gmap string (list (string * asset)))
    (events_filtering_method : Z) (IM_threshold : option Q) : res (gset Z) :=
  for_each consequences
    (stage1_taxonomy imf exp_assets events_filtering_method IM_threshold) ∅.

Definition filter_events_by_imvalue (consequences : list (string * taxonomy_cons))
    (imf : imfield) (exp_assets : gmap string (list (string * asset)))
    (events_filtering_method : Z) (IM_threshold : option Q) : res (gset Z) :=
  if (events_filtering_method =? 1)%Z && truthy IM_threshold then
    raise (WarningRaised
      "IM_threshold is not taken into account for filtering the events since events_filtering_method = 1")
  else
    try events_of_interest :=
      collect_events consequences imf exp_assets events_filtering_method IM_threshold in
    try _ := assert_ (negb (bool_decide (events_of_interest = ∅)))
               "all events are filtered out" in
    ret events_of_interest.

(** [list(l).index(x)] *)
Fixpoint list_index (x : Z) (l : list Z) (i : nat) : res nat :=
  match l with
  | [] => raise ValueError
  | y :: l' => if (y =? x)%Z then ret i else list_index x l' (S i)
  end.

(** [arr[idx]] for a list of indices. *)
Definition take_rows {A} (arr : list A) (idx : list nat) : res (list A) :=
  map_res (fun i => of_option (arr !! i) IndexError) idx.

Definition sorted (l : list nat) : list nat := merge_sort le l.

Definition fiter_imfield_data (imf : imfield) (events_of_interest : gset Z)
  : res (list event_row * list rupture_row) :=
  let event_mtdata := events imf in
  try ruptures_of_interest_idx :=
    map_res (fun e => list_index e (ev_id <$> event_mtdata) 0)
      (elements events_of_interest) in
  try filtered_event_mtdata := take_rows event_mtdata (sorted ruptures_of_interest_idx) in
  let rupture_mtdata := ruptures imf in
  try ruptures_info_idx :=
    map_res (fun r => list_index r (rup <$> rupture_mtdata) 0)
      (rup_id <$> filtered_event_mtdata) in
  try filtered_rupture_mtdata := take_rows rupture_mtdata (sorted ruptures_info_idx) in
  ret (filtered_event_mtdata, filtered_rupture_mtdata).

(** The mask built from an optional lower and upper bound; a bound that
    is [None] or [0] does not bind. *)
Definition in_range (lo hi : option Q) (x : Q) : bool :=
  match truthy lo, truthy hi with
  | true, true => Qle_bool (default 0%Q lo) x && Qle_bool x (default 0%Q hi)
  | true, false => Qle_bool (default 0%Q lo) x
  | false, true => Qle_bool x (default 0%Q hi)
  | false, false => true
  end.

Definition filter_by_distance (min_dist max_dist : option Q) (ref_coords : gmap string Q)
    (rups : list rupture_row) : res (list Z) :=
  if truthy min_dist || truthy max_dist then
    try _ := assert_ (negb (bool_decide (ref_coords = ∅)))
               "filtering the events by distance needs also a reference point" in
    try cent_lon := of_option (ref_coords !! "lon") (KeyError "lon") in
    try cent_lat := of_option (ref_coords !! "lat") (KeyError "lat") in
    try dist := map_res (fun r => geodesic_km (hypo r) (cent_lon, cent_lat)) rups in
    ret ((rup ∘ fst) <$> filter (fun rd => in_range min_dist max_dist (snd rd) = true)
                            (zip rups dist))
  else ret (rup <$> rups).

Definition filter_events (imf : imfield) (cons_for_hazard : list (string * taxonomy_cons))
    (exp_assets : gmap string (list (string * asset)))
    (min_mag max_mag IM_threshold min_dist max_dist : option Q)
    (ref_coords : gmap string Q) : res (list Z) :=
  let events_filtering_method := if negb (truthy IM_threshold) then 1%Z else 2%Z in
  try events_of_interest :=
    filter_events_by_imvalue cons_for_hazard imf exp_assets events_filtering_method
      IM_threshold in
  try filtered := fiter_imfield_data imf events_of_interest in
  let '(filtered_event_mtdata, filtered_rupture_mtdata) := filtered in
  let filtered_rupture_mtdata_by_mag :=
    filter (fun r => in_range min_mag max_mag (mag r) = true) filtered_rupture_mtdata in
  try ruptures := filter_by_distance min_dist max_dist ref_coords
                    filtered_rupture_mtdata_by_mag in
  try event_idx_ids_for_mag_dist :=
    map_res (fun r => list_index r (rup_id <$> filtered_event_mtdata) 0) ruptures in
  try event_rows := take_rows filtered_event_mtdata event_idx_ids_for_mag_dist in
  ret (ev_id <$> event_rows).

End Filter.
End ImFields.

(** ** exposure.py *)

Module Exposure.
Section Resolve.

(** [geopy.distance.distance(p, q).km] on (lat, lon) pairs. *)
Variable geodesic_km : Q * Q -> Q * Q -> res Q.

(** Asset dicts share their [location] dict with the caller: an asset
    holds the address of its location in a store of location dicts. *)
Definition ref : Type := nat.

Record asset_obj := {
  o_taxonomy : string;
  o_asset_type : string;
  o_location : ref
}.

(** What the caller reads through an asset under a store. *)
Definition view (h : gmap ref location) (a : asset_obj) : option asset :=
  (fun l => {| taxonomy := o_taxonomy a; asset_type := o_asset_type a;
               asset_location := l |}) <$> h !! o_location a.

(** The site id found by [find_asset_sid]: the [sid] list itself or an
    integer. *)
Inductive sid_value :=
| SidList (l : list Z)
| SidInt (z : Z).

(** [numpy.sort(l)[0]] *)
Definition smallest (l : list Z) : res Z :=
  match l with
  | [] => raise IndexError
  | z :: l' => ret (fold_left Z.min l' z)
  end.

(** [len(location['sid'])] raises [TypeError] on a single integer; on a
    list without control point, [int(location['sid'])] raises
    [TypeError] and the sorted list gives the site id. *)
Definition find_asset_sid (loc : location) (asset_type : string) : res sid_value :=
  if String.eqb (lower asset_type) "point" then
    match loc_sid loc with
    | SidOne _ => raise TypeError
    | SidMany l =>
        if (length l =? 1)%nat then ret (SidList l)
        else
          match hzrd_ctrl_pnt loc with
          | Some c => ret (SidInt c)
          | None => try m := smallest l in ret (SidInt m)
          end
    end
  else if String.eqb (lower asset_type) "area" then
    of_option (SidInt <$> hzrd_ctrl_pnt loc) (KeyError "hzrd_ctrl_pnt")
  else raise NameError.

(** The integer a site id broadcasts to in [site_mtdata['site_id'] == sid]. *)
Definition sid_scalar (s : sid_value) : res Z :=
  match s with
  | SidInt z => ret z
  | SidList [z] => ret z
  | SidList _ => raise ValueError
  end.

(** The branch [hazard2exppoints_consistency is False]. *)
Definition nearest_hazard_sid (imfield_sites : list site_row)
    (site_mtdata : list site_row) (max_allowable_dist : option Q) (s : sid_value)
  : res Z :=
  try z := sid_scalar s in
  let coords := filter (fun r => sids r = z) site_mtdata in
  try _ := assert_ (length coords =? 1)%nat "check site id of asset" in
  try c := of_option (head coords) IndexError in
  let asset_site := (site_lat c, site_lon c) in
  try geo_dist := map_res (fun r => geodesic_km (site_lat r, site_lon r) asset_site)
                    imfield_sites in
  try min_dist_idx := argmin geo_dist in
  try d := of_option (geo_dist !! min_dist_idx) IndexError in
  try m := of_option max_allowable_dist TypeError in
  try _ := assert_ (Qlt_bool d m)
             "the closest hazard point to asset is more than the allowable distance away" in
  try r := of_option (imfield_sites !! min_dist_idx) IndexError in
  ret (sids r).

(** The branch where site ids of exposure and hazard coincide. *)
Definition direct_hazard_sid (s : sid_value) : res Z :=
  match s with
  | SidInt z => ret z
  | SidList l => of_option (head l) IndexError
  end.

(** [d.update({k: v})] on a dict kept in insertion order. *)
Fixpoint assoc_update {V} (k : string) (v : V) (d : list (string * V))
  : list (string * V) :=
  match d with
  | [] => [(k, v)]
  | (k', v') :: d' =>
      if String.eqb k' k then (k, v) :: d' else (k', v') :: assoc_update k v d'
  end.

(** Loop state: the store of location dicts and the result dict. *)
Definition state : Type :=
  gmap ref location * gmap string (list (string * asset_obj)).

Definition asset_step (imfield_sites : list site_row)
    (hazard2exppoints_consistency : bool) (site_mtdata : list site_row)
    (max_allowable_dist : option Q) (tax_key : string)
    (a : string * asset_obj) (st : state) : res state :=
  let '(asset_name, obj) := a in
  let '(h, assets_by_taxonomy) := st in
  try loc := of_option (h !! o_location obj) (KeyError "location") in
  try s := find_asset_sid loc (o_asset_type obj) in
  try hsid :=
    (if hazard2exppoints_consistency then direct_hazard_sid s
     else nearest_hazard_sid imfield_sites site_mtdata max_allowable_dist s) in
  let h' := <[o_location obj :=
                {| loc_sid := loc_sid loc; hzrd_ctrl_pnt := hzrd_ctrl_pnt loc;
                   hazard_sid := Some hsid |}]> h in
  try entry := of_option (assets_by_taxonomy !! tax_key) (KeyError tax_key) in
  ret (h', <[tax_key := assoc_update asset_name obj entry]> assets_by_taxonomy).

(** [get_assets_by_taxonomy] *)
Definition get_assets_by_taxonomy (assets : list (string * asset_obj))
    (taxonomy : string) : list (string * asset_obj) :=
  filter (fun a => o_taxonomy (snd a) = taxonomy) assets.

Definition taxonomy_step (exp_assets : list (string * asset_obj))
    (imfield_sites : list site_row) (hazard2exppoints_consistency : bool)
    (site_mtdata : list site_row) (max_allowable_dist : option Q)
    (t : string * taxonomy_cons) (st : state) : res state :=
  let tax_key := fst t in
  let st0 := (fst st, <[tax_key := []]> (snd st)) in
  for_each (get_assets_by_taxonomy exp_assets tax_key)
    (asset_step imfield_sites hazard2exppoints_consistency site_mtdata
       max_allowable_dist tax_key) st0.

(** Returns the store as the call leaves it together with
    [assets_by_taxonomy]. *)
Definition exposure_by_taxonomy (h : gmap ref location)
    (exp_assets : list (string * asset_obj))
    (cons_for_hazard : list (string * taxonomy_cons)) (imf : imfield)
    (hazard2exppoints_consistency : bool) (site_mtdata : list site_row)
    (max_allowable_dist : option Q) : res state :=
  for_each cons_for_hazard
    (taxonomy_step exp_assets (sitecol imf) hazard2exppoints_consistency site_mtdata
       max_allowable_dist) (h, ∅).

End Resolve.
End Exposure.

(** ** The index list of each asset, as the traversal threads it *)

Module Traversal.
Section Positions.

Variable float_of_string : string -> option Q.

(** The list [nums] after [k] passes of the per-asset loop: the shuffles
    with seeds 1, ..., k applied one after the other, starting from
    [0, ..., N-1]. *)
Definition running_perm (fuel N k : nat) : res (list nat) :=
  for_each (seq 1 k) (fun s l => PyRandom.shuffle fuel (Z.of_nat s) l) (seq 0 N).

(** The specification's reading: the shuffle with seed [k], applied to
    the identity sequence. *)
Definition fresh_perm (fuel N k : nat) : res (list nat) :=
  PyRandom.shuffle fuel (Z.of_nat k) (seq 0 N).

(** The assets in the order the two loops visit them, each with the
    consequence model of its taxonomy. *)
Definition traversal (cons_for_hazard : list (string * taxonomy_cons))
    (exp_assets : gmap string (list (string * asset)))
  : list (taxonomy_cons * (string * asset)) :=
  flat_map (fun t => pair (snd t) <$> default [] (exp_assets !! fst t)) cons_for_hazard.

(** One asset of the traversal, processed with the index list its
    position is given: the asset at 0-based position [k] gets
    [perm_at (k + 1)]. *)
Definition position_body (perm_at : nat -> res (list nat)) (event_id : Z)
    (rows_ev : list gmf_row) (ka : nat * (taxonomy_cons * (string * asset)))
    (out : Consequences.results_t * gmap string value)
  : res (Consequences.results_t * gmap string value) :=
  try p := perm_at (S (fst ka)) in
  Consequences.process_asset float_of_string event_id rows_ev
    (fst (snd ka)) p (snd (snd ka)) out.

(** The traversal from position [k0] on. *)
Definition run_from (perm_at : nat -> res (list nat)) (event_id : Z)
    (rows_ev : list gmf_row) (k0 : nat)
    (trav : list (taxonomy_cons * (string * asset)))
    (out : Consequences.results_t * gmap string value)
  : res (Consequences.results_t * gmap string value) :=
  for_each (imap (fun i x => (k0 + i, x)) trav)
    (position_body perm_at event_id rows_ev) out.

(** The run with the index list of every position given from outside. *)
Definition run_with (perm_at : nat -> res (list nat)) (event_id : Z)
    (rows_ev : list gmf_row) (trav : list (taxonomy_cons * (string * asset)))
  : res (Consequences.results_t * gmap string value) :=
  run_from perm_at event_id rows_ev 0 trav (∅, ∅).

(** What the loops thread: after [k] assets the seed counter is [k] and
    [nums] is the running index list. *)
Definition threaded (fuel N k : nat) (st : Consequences.loop_state) : Prop :=
  Consequences.rnd_seed st = Z.of_nat k
  /\ running_perm fuel N k = inr (Consequences.nums st).

End Positions.
End Traversal.

(** ** Fixtures *)

Module Fixtures.

(** A Tier II record holding only the damage states ["A"; "B"; "C"; "D"]. *)
Definition tier2_damage_states : value :=
  VDict {[ "global" :=
    VDict {[ "damage_state" := VList [VStr "A"; VStr "B"; VStr "C"; VStr "D"] ]} ]}.

(** The same damage states on a named component of a Tier I record. *)
Definition tier1_damage_states : value :=
  VDict {[ "im_level" := VNum 1;
           "consequences" := VList [
             VDict {[ "component" := VStr "deck";
                      "damage_state" :=
                        VList [VStr "A"; VStr "B"; VStr "C"; VStr "D"] ]} ] ]}.

(** A minimal Tier I record: two keys, one named component and the
    global one. *)
Definition tier1_minimal : value :=
  VDict {[ "im_level" := VNum 1;
           "consequences" := VList [
             VDict {[ "component" := VStr "deck";
                      "cost" := VList [VNum 10; VNum 20] ]};
             VDict {[ "component" := VStr "global";
                      "damage_state" := VList [VStr "DS1"; VStr "DS2"] ]} ] ]}.

(** A minimal Tier II record: the single key "global". *)
Definition tier2_minimal : value :=
  VDict {[ "global" :=
    VDict {[ "cost" := VList [VNum 10; VNum 20];
             "damage_state" := VList [VStr "DS1"; VStr "DS2"];
             "recovery" := VDict {[ "rlz_1" := VStr "r1"; "rlz_2" := VStr "r2" ]} ]} ]}.

(** A Tier I record whose global component carries recovery
    realizations but no "recovery" key. *)
Definition tier1_recovery_unflagged : value :=
  VDict {[ "im_level" := VNum 1;
           "consequences" := VList [
             VDict {[ "component" := VStr "global";
                      "cost" := VList [VNum 10; VNum 20];
                      "recovery_realizations" := VList [VStr "ra"; VStr "rb"] ]} ] ]}.

(** No string of the fixtures is read as a float. *)
Definition no_float (s : string) : option Q := None.

(** One taxonomy with two assets at the hazard site 1, one event (7)
    and five realizations per array. *)
Definition bridge_record : value :=
  VDict {[ "im_level" := VNum 0.1;
           "consequences" := VList [
             VDict {[ "component" := VStr "global";
                      "cost" := VList [VNum 10; VNum 20; VNum 30; VNum 40; VNum 50] ]} ] ]}.

Definition bridge_cons : list (string * taxonomy_cons) :=
  [("bridge",
    {| im_type := "PGA";
       iml_consequences := [bridge_record];
       component_damage_state_description :=
         [VDict {[ "component" := VStr "global" ]}] |})].

Definition at_site (s : Z) : asset :=
  {| taxonomy := "bridge"; asset_type := "point";
     asset_location := {| loc_sid := SidMany [s]; hzrd_ctrl_pnt := None;
                          hazard_sid := Some s |} |}.

Definition two_bridges : gmap string (list (string * asset)) :=
  {[ "bridge" := [("a1", at_site 1); ("a2", at_site 1)] ]}.

Definition one_event_field : imfield :=
  {| imts := "pga";
     gmf_data := [{| sid := 1; eid := 7; gmv := [0.1%Q] |}];
     events := [{| ev_id := 7; rup_id := 3 |}];
     ruptures := [{| rup := 3; mag := 5.5%Q; hypo := (0%Q, 0%Q) |}];
     sitecol := [{| sids := 1; site_lon := 0%Q; site_lat := 0%Q |}] |}.

Definition five_realizations : gmap string Z := {[ "Nrealizations" := 5%Z ]}.

(** What the engine returns on the two bridges. *)
Definition two_bridges_out : Consequences.results_t * gmap string value :=
  Eval vm_compute in
    match Consequences.get_consequences_by_event_all_assets no_float 64 7
            one_event_field bridge_cons five_realizations two_bridges with
    | inr r => r
    | inl _ => (∅, ∅)
    end.

(** The cost list stored for an asset of event 7. *)
Definition cost_of (r : Consequences.results_t * gmap string value) (asset_name : string)
  : option value :=
  by_asset ← fst r !! "7";
  a ← by_asset !! asset_name;
  g ← (match a with VDict d => d !! "global" | _ => None end);
  match g with VDict d => d !! "cost" | _ => None end.

(** A stand-in for the geodesic distance on the fixtures: the grid
    distance of the two coordinate pairs. *)
Definition grid_km (p q : Q * Q) : res Q :=
  ret (Qabs (fst p - fst q) + Qabs (snd p - snd q))%Q.

(** Two events of the same rupture, both recorded at site 1. *)
Definition shared_rupture_field : imfield :=
  {| imts := "PGA";
     gmf_data := [{| sid := 1; eid := 10; gmv := [0.2%Q] |};
                  {| sid := 1; eid := 11; gmv := [0.3%Q] |}];
     events := [{| ev_id := 10; rup_id := 3 |}; {| ev_id := 11; rup_id := 3 |}];
     ruptures := [{| rup := 3; mag := 5.5%Q; hypo := (0%Q, 0%Q) |}];
     sitecol := [{| sids := 1; site_lon := 0%Q; site_lat := 0%Q |}] |}.


(** One point asset of taxonomy "bridge" whose location dict sits at
    address 0 of the store and has no [hazard_sid] yet. *)
Definition bare_location : location :=
  {| loc_sid := SidMany [1%Z]; hzrd_ctrl_pnt := None; hazard_sid := None |}.

Definition caller_store : gmap Exposure.ref location := {[ 0 := bare_location ]}.

Definition caller_asset : Exposure.asset_obj :=
  {| Exposure.o_taxonomy := "bridge"; Exposure.o_asset_type := "point";
     Exposure.o_location := 0 |}.

Definition caller_assets : list (string * Exposure.asset_obj) := [("a1", caller_asset)].

(** Exposure site 1 lies 7 (grid) km from the only hazard site. *)
Definition far_site_mtdata : list site_row :=
  [{| sids := 1; site_lon := 3%Q; site_lat := 4%Q |}].

End Fixtures.

(** ** Shapes of well-formed input *)

Module Shape.

(** The array under [field], when the component has one, is a list
    that covers every index of [P]. *)
Definition readable (d : gmap string value) (field : string) (P : list nat) : Prop :=
  match d !! field with
  | None => True
  | Some (VList xs) => Forall (fun k => k < length xs) P
  | Some _ => False
  end.

(** [out] is [xs] read through the index list [P]; [length out = length P]
    and [out[i] = xs[P[i]]] follow. *)
Definition reindexed (xs : list value) (P : list nat) (out : list value) : Prop :=
  Forall2 (fun k y => xs !! k = Some y) P out.

(** The key the Tier I loop reads for an output field: the recovery
    output comes from "recovery_realizations", any other field from the
    key of its own name. *)
Definition src_key (field : string) : string :=
  if String.eqb field "recovery" then "recovery_realizations" else field.

(** Every list in the output dict [f] of one component is as long as
    [P] and was read through [P] from the value of [owner] under the
    key [key field]. *)
Definition emitted (key : string -> string) (owner : value) (P : list nat)
    (f : gmap string value) : Prop :=
  forall field ys,
    f !! field = Some (VList ys) ->
    length ys = length P
    /\ exists srcv, getitem owner (key field) = inr srcv
                    /\ forall xs, srcv = VList xs -> reindexed xs P ys.

(** [src] is the input of the Tier I loop behind the output [field] of
    the component [comp]. *)
Definition tier1_source (comps : list value) (comp field : string) (src : value)
  : Prop :=
  exists cd : gmap string value,
    VDict cd ∈ comps
    /\ cd !! "component" = Some (VStr comp)
    /\ cd !! src_key field = Some src.

(** The input value behind the output [field] of component [comp]. *)
Definition source_array (rec : value) (comp field : string) (src : value) : Prop :=
  exists d : gmap string value,
    rec = VDict d
    /\ if (1 <? size d)%nat
       then exists comps, d !! "consequences" = Some (VList comps)
                          /\ tier1_source comps comp field src
       else exists g : gmap string value,
              d !! "global" = Some (VDict g) /\ comp = "global" /\ g !! field = Some src.

(** The store [h'] differs from [h] at most in the [hazard_sid] entries
    of its location dicts. *)
Definition annotated_only (h h' : gmap Exposure.ref location) : Prop :=
  forall r,
    option_Forall2
      (fun l l' => loc_sid l = loc_sid l' /\ hzrd_ctrl_pnt l = hzrd_ctrl_pnt l')
      (h !! r) (h' !! r).

(** What the loops of [exposure_by_taxonomy] keep true of their state,
    relative to the store [h0] and the assets [exp] of the caller and the
    taxonomy keys [keys] of the consequence model. *)
Definition in_place (h0 : gmap Exposure.ref location)
    (exp : list (string * Exposure.asset_obj)) (keys : list string)
    (st : Exposure.state) : Prop :=
  annotated_only h0 (fst st)
  /\ (forall tax l name obj,
        snd st !! tax = Some l -> (name, obj) ∈ l ->
        (name, obj) ∈ exp /\ Exposure.o_taxonomy obj = tax
        /\ exists loc, fst st !! Exposure.o_location obj = Some loc
                       /\ is_Some (hazard_sid loc))
  /\ (forall r, fst st !! r <> h0 !! r ->
        exists name obj, (name, obj) ∈ exp /\ Exposure.o_location obj = r
                         /\ Exposure.o_taxonomy obj ∈ keys).

(** An event id that belongs to a listed event whose rupture lies within
    the magnitude bounds and, when a distance bound is set, within the
    distance bounds of the reference coordinate. *)
Definition qualifies (geodesic_km : Q * Q -> Q * Q -> res Q) (imf : imfield)
    (min_mag max_mag min_dist max_dist : option Q) (ref_coords : gmap string Q)
    (e : Z) : Prop :=
  exists ev r,
    ev ∈ events imf /\ ev_id ev = e
    /\ r ∈ ruptures imf /\ rup r = rup_id ev
    /\ ImFields.in_range min_mag max_mag (mag r) = true
    /\ (ImFields.truthy min_dist || ImFields.truthy max_dist = true ->
        exists lon lat d,
          ref_coords !! "lon" = Some lon /\ ref_coords !! "lat" = Some lat
          /\ geodesic_km (hypo r) (lon, lat) = inr d
          /\ ImFields.in_range min_dist max_dist d = true).

End Shape.

(** ** Reading the outputs *)

Module View.

(** [results[str(event)][asset_name]], when both keys are there. *)
Definition result_of (results : Consequences.results_t) (event : Z) (asset_name : string)
  : option value :=
  by_asset ← results !! pretty event; by_asset !! asset_name.

(** The output of the engine has the consequences of the asset for the
    event and a damage state description for the asset. *)
Definition filled (out : Consequences.results_t * gmap string value) (event : Z)
    (asset_name : string) : Prop :=
  (exists rrng, result_of (fst out) event asset_name = Some (VDict rrng))
  /\ is_Some (snd out !! asset_name).

(** The asset has, at its hazard site, a sample of the event that method
    [m] counts: any sample for method 1, one whose first intensity value
    reaches the threshold for method 2. *)
Definition asset_candidate (rows : list gmf_row) (m : Z) (IM_threshold : option Q)
    (a : asset) (e : Z) : Prop :=
  exists h row,
    hazard_sid (asset_location a) = Some h
    /\ row ∈ rows /\ sid row = h /\ eid row = e
    /\ (m = 2%Z ->
        exists t v, IM_threshold = Some t /\ head (gmv row) = Some v /\ (t <= v)%Q).

(** Some asset of some taxonomy of the consequence model is a candidate
    for the event. *)
Definition candidate (imf : imfield) (consequences : list (string * taxonomy_cons))
    (exp_assets : gmap string (list (string * asset))) (m : Z)
    (IM_threshold : option Q) (e : Z) : Prop :=
  exists tax tc assets name a,
    (tax, tc) ∈ consequences /\ exp_assets !! tax = Some assets
    /\ (name, a) ∈ assets
    /\ asset_candidate (gmf_data imf) m IM_threshold a e.

(** A bound as the filter reads it: a bound that is [None] or [0] is no
    bound. *)
Definition effective (x : option Q) : option Q :=
  if ImFields.truthy x then x else None.

End View.

(** ** Further fixtures *)

Module Cases.

(** Two bridges at the hazard sites 1 and 2; event 7 is felt with 0.05
    at site 1 and with 0.2 at site 2. *)
Definition weak_and_strong_field : imfield :=
  {| imts := "PGA";
     gmf_data := [{| sid := 1; eid := 7; gmv := [0.05%Q] |};
                  {| sid := 2; eid := 7; gmv := [0.2%Q] |}];
     events := [{| ev_id := 7; rup_id := 3 |}];
     ruptures := [{| rup := 3; mag := 5.5%Q; hypo := (0%Q, 0%Q) |}];
     sitecol := [{| sids := 1; site_lon := 0%Q; site_lat := 0%Q |};
                 {| sids := 2; site_lon := 1%Q; site_lat := 0%Q |}] |}.

Definition bridges_at_1_and_2 : gmap string (list (string * asset)) :=
  {[ "bridge" := [("a1", Fixtures.at_site 1); ("a2", Fixtures.at_site 2)] ]}.

(** The binary64 values of the literals 0.9 and 0.1: their exact
    differences from 0.5 are not equal, the binary64 ones are. *)
Definition level_0_9 : Q := Eval vm_compute in Binary64.round 0.9.
Definition level_0_1 : Q := Eval vm_compute in Binary64.round 0.1.

End Cases.

(** ** The site id an asset resolves to *)

Module Annot.

(** [location.update({'hazard_sid': z})] *)
Definition with_hazard_sid (loc : location) (z : Z) : location :=
  {| loc_sid := loc_sid loc; hzrd_ctrl_pnt := hzrd_ctrl_pnt loc; hazard_sid := Some z |}.

(** The hazard site id the loop body of [exposure_by_taxonomy] computes
    for a location dict and an asset type. *)
Definition resolve (geodesic_km : Q * Q -> Q * Q -> res Q)
    (imfield_sites : list site_row) (hazard2exppoints_consistency : bool)
    (site_mtdata : list site_row) (max_allowable_dist : option Q)
    (loc : location) (asset_type : string) : res Z :=
  try s := Exposure.find_asset_sid loc asset_type in
  if hazard2exppoints_consistency then Exposure.direct_hazard_sid s
  else Exposure.nearest_hazard_sid geodesic_km imfield_sites site_mtdata
         max_allowable_dist s.

(** The caller's location dict of the asset now holds the resolved site
    id and is otherwise as the caller passed it. *)
Definition resolved (geodesic_km : Q * Q -> Q * Q -> res Q)
    (imfield_sites : list site_row) (hazard2exppoints_consistency : bool)
    (site_mtdata : list site_row) (max_allowable_dist : option Q)
    (h h' : gmap Exposure.ref location) (obj : Exposure.asset_obj) : Prop :=
  exists loc z,
    h !! Exposure.o_location obj = Some loc
    /\ resolve geodesic_km imfield_sites hazard2exppoints_consistency site_mtdata
         max_allowable_dist loc (Exposure.o_asset_type obj) = inr z
    /\ h' !! Exposure.o_location obj = Some (with_hazard_sid loc z).

(** Every caller asset's location dict is either still as the caller
    passed it or already holds the resolved site id. *)
Definition fresh_or_resolved (geodesic_km : Q * Q -> Q * Q -> res Q)
    (imfield_sites : list site_row) (hazard2exppoints_consistency : bool)
    (site_mtdata : list site_row) (max_allowable_dist : option Q)
    (h : gmap Exposure.ref location) (exp : list (string * Exposure.asset_obj))
    (h' : gmap Exposure.ref location) : Prop :=
  forall name obj, (name, obj) ∈ exp ->
    h' !! Exposure.o_location obj = h !! Exposure.o_location obj
    \/ resolved geodesic_km imfield_sites hazard2exppoints_consistency site_mtdata
         max_allowable_dist h h' obj.

(** The location dict at address [r] is the caller's original with
    [hazard_sid] set to the site id resolved, from that original, for one
    of the caller's assets located there whose taxonomy is in [keys]. *)
Definition resolved_for (geodesic_km : Q * Q -> Q * Q -> res Q)
    (imfield_sites : list site_row) (hazard2exppoints_consistency : bool)
    (site_mtdata : list site_row) (max_allowable_dist : option Q)
    (h : gmap Exposure.ref location) (exp : list (string * Exposure.asset_obj))
    (keys : list string) (h' : gmap Exposure.ref location) (r : Exposure.ref) : Prop :=
  exists loc z name obj,
    h !! r = Some loc
    /\ h' !! r = Some (with_hazard_sid loc z)
    /\ (name, obj) ∈ exp /\ Exposure.o_location obj = r
    /\ Exposure.o_taxonomy obj ∈ keys
    /\ resolve geodesic_km imfield_sites hazard2exppoints_consistency site_mtdata
         max_allowable_dist loc (Exposure.o_asset_type obj) = inr z.

(** What the loops keep true of the store and of the result: a location
    dict is as the caller passed it or resolved, and the location dict of
    every asset in the result is resolved. *)
Definition written (geodesic_km : Q * Q -> Q * Q -> res Q)
    (imfield_sites : list site_row) (hazard2exppoints_consistency : bool)
    (site_mtdata : list site_row) (max_allowable_dist : option Q)
    (h : gmap Exposure.ref location) (exp : list (string * Exposure.asset_obj))
    (keys : list string) (st : Exposure.state) : Prop :=
  (forall r, fst st !! r = h !! r
             \/ resolved_for geodesic_km imfield_sites hazard2exppoints_consistency
                  site_mtdata max_allowable_dist h exp keys (fst st) r)
  /\ forall tax l name obj,
       snd st !! tax = Some l -> (name, obj) ∈ l ->
       resolved_for geodesic_km imfield_sites hazard2exppoints_consistency
         site_mtdata max_allowable_dist h exp keys (fst st) (Exposure.o_location obj).

End Annot.

(** ** Grouping the consequence file by hazard *)

Module ConsFile.

(** The [hazard] argument: one name or a list of names. *)
Inductive hazard_arg :=
| OneHazard (haz : string)
| Hazards (l : list string).

(** [if isinstance(hazard, str): hazard = [hazard]] *)
Definition hazards (hazard : hazard_arg) : list string :=
  match hazard with
  | OneHazard haz => [haz]
  | Hazards l => l
  end.

(** A record of the file is a dict. *)
Definition record : Type := gmap string value.

(** A taxonomy as a dict key or set member: a string or a number, the
    number in lowest terms so that equal numbers are one key. *)
Inductive key :=
| KStr (s : string)
| KNum (x : Q).

#[global] Instance Q_eq_dec : EqDecision Q.
Proof. intros [n1 d1] [n2 d2]. unfold Decision. decide equality; apply decide; apply _. Defined.

#[global] Instance key_eq_dec : EqDecision key.
Proof. solve_decision. Defined.

(** Hashing a value: lists and dicts are unhashable. *)
Definition hash_key (v : value) : res key :=
  match v with
  | VStr s => ret (KStr s)
  | VNum x => ret (KNum (Qred x))
  | _ => raise TypeError
  end.

(** [d.update({k: v})] on a dict kept in insertion order. *)
Fixpoint update {V} (k : key) (v : V) (d : list (key * V)) : list (key * V) :=
  match d with
  | [] => [(k, v)]
  | (k', v') :: d' =>
      if decide (k' = k) then (k, v) :: d' else (k', v') :: update k v d'
  end.

(** [cons_by_hazard[haz]], a dict kept in insertion order. *)
Definition grouped : Type := gmap string (list (key * record)).

(** The body of the first loop: the taxonomy is read and, with
    [check_dupl], looked up among those already seen. *)
Definition check_taxonomy (check_dupl : bool) (cons : record) (taxo_refs : list key)
  : res (list key) :=
  try v := of_option (cons !! "asset_taxonomy")
             (Exception_ "check asset taxonomies in the consequence file") in
  try taxonomy := hash_key v in
  try _ := (if check_dupl && bool_decide (taxonomy ∈ taxo_refs)
            then raise (Exception_ "duplicate asset taxonomy in the consequence file")
            else ret tt) in
  ret (taxonomy :: taxo_refs).

(** The body of the second loop: the copy loses both keys; a hazard type
    that is not a key of [cons_by_hazard] is passed over. *)
Definition group_step (cons : record) (by_hazard : grouped) : res grouped :=
  try _ := of_option (cons !! "asset_taxonomy") (KeyError "asset_taxonomy") in
  let cons1 := delete "asset_taxonomy" cons in
  try _ := of_option (cons1 !! "hazard_type") (KeyError "hazard_type") in
  let cons2 := delete "hazard_type" cons1 in
  match cons !! "hazard_type" with
  | None => ret by_hazard
  | Some (VStr haz) =>
      match by_hazard !! haz with
      | None => ret by_hazard
      | Some d =>
          match cons !! "asset_taxonomy" with
          | None => ret by_hazard
          | Some v =>
              try taxonomy := hash_key v in
              ret (<[haz := update taxonomy cons2 d]> by_hazard)
          end
      end
  | Some (VNum _) => ret by_hazard
  | Some _ => raise TypeError
  end.

(** [[cons_by_hazard.update({haz: {}}) for haz in set(hazard)]] *)
Definition empty_groups (hazard : hazard_arg) : grouped :=
  list_to_map ((fun haz => (haz, [])) <$> hazards hazard).

Definition cons_by_hazard (consequences : list record) (hazard : hazard_arg)
    (check_dupl : bool) : res grouped :=
  try _ := for_each consequences (check_taxonomy check_dupl) [] in
  for_each consequences group_step (empty_groups hazard).

(** The taxonomy of a record as a key, when it has one. *)
Definition taxonomy_of (cons : record) : option key :=
  match cons !! "asset_taxonomy" with
  | Some (VStr t) => Some (KStr t)
  | Some (VNum x) => Some (KNum (Qred x))
  | _ => None
  end.

(** The record as kept under hazard [haz]: its taxonomy and the record
    without the two keys, when its hazard type is [haz]. *)
Definition kept_under (haz : string) (cons : record) : option (key * record) :=
  match taxonomy_of cons, cons !! "hazard_type" with
  | Some t, Some (VStr hz) =>
      if decide (hz = haz)
      then Some (t, delete "hazard_type" (delete "asset_taxonomy" cons))
      else None
  | _, _ => None
  end.

(** A file with taxonomies of two hazards, one of them named by a
    number. *)
Definition two_hazard_file : list record :=
  [ {[ "asset_taxonomy" := VStr "bridge"; "hazard_type" := VStr "earthquake";
       "im_type" := VStr "PGA" ]};
    {[ "asset_taxonomy" := VStr "levee"; "hazard_type" := VStr "flood";
       "im_type" := VStr "depth" ]};
    {[ "asset_taxonomy" := VNum 5; "hazard_type" := VStr "earthquake";
       "im_type" := VStr "PGV" ]} ].

Definition two_hazard_out : grouped :=
  Eval vm_compute in
    match cons_by_hazard two_hazard_file (OneHazard "earthquake") true with
    | inr r => r
    | inl _ => ∅
    end.

End ConsFile.

(** * Properties *)

(** ** The error monad *)

Lemma bind_inr {A B} (m : res A) (k : A -> res B) (b : B) :
  bind m k = inr b <-> exists a, m = inr a /\ k a = inr b.
Proof.
  destruct m as [e | a]; simpl; split.
  - discriminate.
  - intros (a & Ha & _). discriminate.
  - eauto.
  - intros (a' & [= <-] & Hk). exact Hk.
Qed.

Lemma of_option_inr {A} (o : option A) (e : exn) (a : A) :
  of_option o e = inr a <-> o = Some a.
Proof. destruct o; simpl; unfold ret, raise; split; congruence. Qed.

Lemma assert_inr (b : bool) (msg : string) (u : unit) :
  assert_ b msg = inr u <-> b = true.
Proof. destruct b, u; simpl; unfold ret, raise; split; congruence. Qed.

Tactic Notation "bind_inv" hyp(H) :=
  let a := fresh "a" in
  let Ha := fresh "Ha" in
  apply bind_inr in H as (a & Ha & H).

Tactic Notation "bind_inv" hyp(H) "as" simple_intropattern(a) simple_intropattern(Ha) :=
  apply bind_inr in H as (a & Ha & H).

Lemma map_res_inr {A B} (f : A -> res B) (xs : list A) (ys : list B) :
  map_res f xs = inr ys <-> Forall2 (fun x y => f x = inr y) xs ys.
Proof.
  revert ys. induction xs as [| x xs IH]; intros ys; simpl.
  - split.
    + intros [= <-]. constructor.
    + intros H. inversion H. reflexivity.
  - split.
    + intros H. bind_inv H. bind_inv H. injection H as <-.
      constructor; [assumption | by apply IH].
    + intros H. inversion H as [| ? y ? ys' Hy Hys]; subst.
      rewrite Hy. simpl. apply IH in Hys. rewrite Hys. reflexivity.
Qed.

Lemma for_each_app {A S} (xs ys : list A) (body : A -> S -> res S) (st : S) :
  for_each (xs ++ ys) body st = bind (for_each xs body st) (for_each ys body).
Proof.
  revert st. induction xs as [| x xs IH]; intros st; simpl; [reflexivity |].
  destruct (body x st); simpl; [reflexivity | apply IH].
Qed.

(** ** The generator *)

(** The first 32-bit output and two shuffles, as the interpreter gives
    them for seeds 1 and 2. *)
Example mt_seed1 :
  fst (PyRandom.getrandbits 32 (PyRandom.seed 1)) = 577090037%Z.
Proof. vm_compute. reflexivity. Qed.

Example shuffle5_seed1 :
  PyRandom.shuffle 64 1 [0; 1; 2; 3; 4] = inr [2; 3; 4; 0; 1].
Proof. vm_compute. reflexivity. Qed.

Example shuffle5_seed2 :
  PyRandom.shuffle 64 2 [0; 1; 2; 3; 4] = inr [2; 1; 3; 4; 0].
Proof. vm_compute. reflexivity. Qed.

(** A result reached within some bound on the rejection loop is the
    result under every larger bound: the bound is no input of the
    computation. *)
Lemma randbelow_loop_mono (f f' : nat) (n k : Z) (g : MT.state) (r : Z * MT.state) :
  f <= f' ->
  PyRandom.randbelow_loop f n k g = inr r ->
  PyRandom.randbelow_loop f' n k g = inr r.
Proof.
  revert f' g. induction f as [| f IH]; intros f' g Hle H; simpl in H; [discriminate |].
  destruct f' as [| f']; [lia |]. simpl.
  destruct (PyRandom.getrandbits k g) as [x g1].
  destruct (x <? n)%Z; [exact H |]. apply IH; [lia | exact H].
Qed.

Lemma shuffle_loop_mono {A} (f f' n : nat) (x y : list A) (g : MT.state) :
  f <= f' ->
  PyRandom.shuffle_loop f n x g = inr y ->
  PyRandom.shuffle_loop f' n x g = inr y.
Proof.
  intros Hle. revert x g. induction n as [| n IH]; intros x g H; simpl in *; [exact H |].
  bind_inv H as jg Hj. unfold PyRandom.randbelow in *.
  rewrite (randbelow_loop_mono f f' _ _ _ _ Hle Hj). simpl.
  destruct jg as [j g1]. by apply IH.
Qed.

Lemma running_perm_mono (f f' N k : nat) (p : list nat) :
  f <= f' ->
  Traversal.running_perm f N k = inr p ->
  Traversal.running_perm f' N k = inr p.
Proof.
  intros Hle. unfold Traversal.running_perm.
  generalize 1 as s0. generalize (seq 0 N) as l0.
  induction k as [| k IH]; intros l0 s0 H; simpl in *; [exact H |].
  bind_inv H as l1 Hl1. unfold PyRandom.shuffle in *.
  rewrite (shuffle_loop_mono f f' _ _ _ _ Hle Hl1). simpl. by apply IH.
Qed.

(** ** Reindexing *)

Section Reindexing.

Lemma reindex_list (owner : value) (field : string) (xs : list value) (P : list nat) :
  getitem owner field = inr (VList xs) ->
  Forall (fun k => k < length xs) P ->
  exists out, Consequences.reindex owner field P = inr out
              /\ Forall2 (fun k y => xs !! k = Some y) P out.
Proof.
  intros Hget HP.
  assert (exists out, Forall2 (fun k y => xs !! k = Some y) P out) as (out & Hall).
  { induction HP as [| k P Hk HP (out & Hall)].
    - exists []. constructor.
    - destruct (lookup_lt_is_Some_2 xs k Hk) as [y Hy].
      exists (y :: out). by constructor. }
  exists out. split; [| exact Hall].
  apply map_res_inr. eapply Forall2_impl; [exact Hall |].
  intros k y Hk. simpl. rewrite Hget. simpl. by rewrite Hk.
Qed.

Lemma reindex_inv (owner : value) (field : string) (xs : list value)
    (P : list nat) (out : list value) :
  getitem owner field = inr (VList xs) ->
  Consequences.reindex owner field P = inr out ->
  Forall2 (fun k y => xs !! k = Some y) P out.
Proof.
  intros Hget H. apply map_res_inr in H.
  eapply Forall2_impl; [exact H |].
  intros k y Hk. simpl in Hk. rewrite Hget in Hk. simpl in Hk.
  by apply of_option_inr in Hk.
Qed.

Lemma pointwise_of_Forall2 (xs : list value) (P : list nat) (out : list value) :
  Forall2 (fun k y => xs !! k = Some y) P out ->
  length out = length P /\ forall i k, P !! i = Some k -> out !! i = xs !! k.
Proof.
  intros H. split; [symmetry; by eapply Forall2_length |].
  intros i k Hi.
  destruct (Forall2_lookup_l _ _ _ _ _ H Hi) as (y & Hy & Hxs). congruence.
Qed.

End Reindexing.

(** ** Schema dispatch *)

(** C5. A record with two or more keys is rearranged by the Tier I loop
    over its components; a record whose only key is "global" is
    rearranged by the Tier II code, which reindexes cost, damage_state and
    recovery under "global". Both shapes are run on a minimal fixture. *)
Theorem schema_dispatch :
  (forall (P : list nat) (d : gmap string value) (comps : list value),
      2 <= size d ->
      d !! "consequences" = Some (VList comps) ->
      Consequences.rearrange P (VDict d)
      = for_each comps (Consequences.tier1_component P) ∅)
  /\ (forall (P : list nat) (d : gmap string value),
         dom d = {[ "global" ]} ->
         exists g, d !! "global" = Some g
                   /\ Consequences.rearrange P (VDict d) = Consequences.tier2 P (VDict d))
  /\ Consequences.rearrange [1; 0] Fixtures.tier1_minimal
     = inr {[ "deck" := VDict {[ "cost" := VList [VNum 20; VNum 10] ]};
              "global" := VDict {[ "damage_state" := VList [VStr "DS2"; VStr "DS1"] ]} ]}
  /\ Consequences.rearrange [1; 0] Fixtures.tier2_minimal
     = inr {[ "global" :=
          VDict {[ "cost" := VList [VNum 20; VNum 10];
                   "damage_state" := VList [VStr "DS2"; VStr "DS1"];
                   "recovery" := VDict {[ "rlz_1" := VStr "r2"; "rlz_2" := VStr "r1" ]} ]} ]}.
Proof.
  split; [| split; [| split]].
  - intros P d comps Hsize Hcons.
    unfold Consequences.rearrange, len_keys. simpl.
    destruct (Nat.ltb_spec 1 (size d)) as [_ | Hle]; [| lia].
    unfold Consequences.tier1, getitem. rewrite Hcons. reflexivity.
  - intros P d Hdom.
    assert (Hin : "global" ∈ dom d) by (rewrite Hdom; by apply elem_of_singleton).
    apply elem_of_dom in Hin as [g Hg]. exists g. split; [exact Hg |].
    unfold Consequences.rearrange, len_keys. simpl.
    assert (Hsize : size d = 1) by (rewrite <- size_dom, Hdom; apply size_singleton).
    rewrite Hsize. reflexivity.
  - vm_compute. reflexivity.
  - vm_compute. reflexivity.
Qed.

Lemma schema_dispatch_witness :
  Consequences.rearrange [1; 0]
    (VDict {[ "im_level" := VNum 1;
              "consequences" := VList [VDict {[ "component" := VStr "deck" ]}] ]})
  = for_each [VDict {[ "component" := VStr "deck" ]}]
      (Consequences.tier1_component [1; 0]) ∅
  /\ exists g, ({[ "global" := VDict ∅ ]} : gmap string value) !! "global" = Some g
       /\ Consequences.rearrange [1; 0] (VDict {[ "global" := VDict ∅ ]})
          = Consequences.tier2 [1; 0] (VDict {[ "global" := VDict ∅ ]}).
Proof.
  split.
  - apply (proj1 schema_dispatch).
    + vm_compute. lia.
    + vm_compute. reflexivity.
  - apply (proj1 (proj2 schema_dispatch)).
    apply dom_singleton_L.
Defined.

(** ** Recovery realizations of the global component *)

Section RearrangeField.

Lemma update_field_insert (rrng : gmap string value) (comp field : string)
    (f : gmap string value) (v : value) :
  rrng !! comp = Some (VDict f) ->
  Consequences.update_field rrng comp field v
  = inr (<[comp := VDict (<[field := v]> f)]> rrng).
Proof. intros H. unfold Consequences.update_field. rewrite H. reflexivity. Qed.

(** One guarded field update: the component's dict keeps every other
    field, and gains [out] read through [P] when the guard key is there. *)
Lemma rearrange_field_total (d f : gmap string value) (guard src out comp : string)
    (P : list nat) (rrng : gmap string value) :
  rrng !! comp = Some (VDict f) ->
  (is_Some (d !! guard) ->
   exists xs, d !! src = Some (VList xs) /\ Forall (fun k => k < length xs) P) ->
  exists f',
    Consequences.rearrange_field (VDict d) guard src out comp P rrng
    = inr (<[comp := VDict f']> rrng)
    /\ (forall k, k <> out -> f' !! k = f !! k)
    /\ (d !! guard = None -> f' !! out = f !! out)
    /\ (is_Some (d !! guard) ->
        exists xs ys, d !! src = Some (VList xs) /\ f' !! out = Some (VList ys)
                      /\ Shape.reindexed xs P ys).
Proof.
  intros Hcomp Hsrc. unfold Consequences.rearrange_field, has_key. simpl.
  case_bool_decide as Hg.
  - destruct (Hsrc Hg) as (xs & Hxs & HP).
    destruct (reindex_list (VDict d) src xs P) as (ys & Hys & Hall);
      [by simpl; rewrite Hxs | exact HP |].
    rewrite Hys. simpl. rewrite (update_field_insert _ _ _ f) by exact Hcomp.
    exists (<[out := VList ys]> f). split; [reflexivity |].
    split; [intros k Hk; by rewrite lookup_insert_ne |].
    split.
    + intros Hnone. rewrite Hnone in Hg. by destruct Hg.
    + intros _. exists xs, ys. split; [exact Hxs |].
      split; [by rewrite lookup_insert_eq | exact Hall].
  - exists f. split; [by rewrite insert_id |].
    split; [reflexivity |]. split; [reflexivity |].
    intros Hsome. contradiction.
Qed.

Lemma readable_source (d : gmap string value) (field : string) (P : list nat) :
  Shape.readable d field P ->
  is_Some (d !! field) ->
  exists xs, d !! field = Some (VList xs) /\ Forall (fun k => k < length xs) P.
Proof.
  unfold Shape.readable. intros Hr [v Hv]. rewrite Hv in Hr.
  destruct v as [| | xs |]; try contradiction. by exists xs.
Qed.

End RearrangeField.

(** A guarded field update that returns: the component's dict keeps every
    other field, is unchanged without the guard key, and with it holds
    [out] read through [P] from the list under [src]. *)
Lemma rearrange_field_returns (d f : gmap string value) (guard src out comp : string)
    (P : list nat) (rrng rrng' : gmap string value) :
  rrng !! comp = Some (VDict f) ->
  Consequences.rearrange_field (VDict d) guard src out comp P rrng = inr rrng' ->
  exists f',
    rrng' = <[comp := VDict f']> rrng
    /\ (forall k, k <> out -> f' !! k = f !! k)
    /\ (is_Some (d !! guard) ->
        forall xs, d !! src = Some (VList xs) ->
          exists ys, f' !! out = Some (VList ys) /\ Shape.reindexed xs P ys).
Proof.
  intros Hcomp H. unfold Consequences.rearrange_field, has_key in H. simpl in H.
  case_bool_decide as Hg.
  - bind_inv H as ys Hys. rewrite (update_field_insert _ _ _ f) in H by exact Hcomp.
    injection H as <-. exists (<[out := VList ys]> f).
    split; [reflexivity |]. split; [intros k Hk; by rewrite lookup_insert_ne |].
    intros _ xs Hxs. exists ys. split; [by rewrite lookup_insert_eq |].
    apply (reindex_inv (VDict d) src xs P ys); [by simpl; rewrite Hxs | exact Hys].
  - injection H as <-. exists f. split; [by rewrite insert_id |].
    split; [reflexivity |]. intros Hsome. contradiction.
Qed.

(** C4. Reindexing an array by an index list [P] gives
    [output[i] = array[P[i]]] at every position [i] of [P], and the output
    is as long as [P].  This holds of the list comprehension itself, of
    the arrays the Tier I loop body emits for a named component (its
    "cost" and "damage_state", which it emits whenever the component has
    them), and of the arrays the Tier II code emits under "global"
    whenever it returns.  On the records with damage states A, B, C, D
    and [P = [2; 0; 3; 1]] the engine emits C, A, D, B in both shapes. *)
Theorem reindex_pointwise :
  (forall (owner : value) (field : string) (xs : list value) (P : list nat),
      getitem owner field = inr (VList xs) ->
      Forall (fun k => k < length xs) P ->
      exists out, Consequences.reindex owner field P = inr out
                  /\ length out = length P
                  /\ forall i k, P !! i = Some k -> out !! i = xs !! k)
  /\ (forall (P : list nat) (d : gmap string value) (name : string)
        (rrng : gmap string value),
         d !! "component" = Some (VStr name) ->
         name <> "global" ->
         Shape.readable d "cost" P ->
         Shape.readable d "damage_state" P ->
         exists rrng' fields : gmap string value,
           Consequences.tier1_component P (VDict d) rrng = inr rrng'
           /\ rrng' !! name = Some (VDict fields)
           /\ forall f xs, f = "cost" \/ f = "damage_state" ->
                d !! f = Some (VList xs) ->
                exists ys, fields !! f = Some (VList ys)
                           /\ length ys = length P
                           /\ forall i k, P !! i = Some k -> ys !! i = xs !! k)
  /\ (forall (P : list nat) (d g out : gmap string value),
         dom d = {[ "global" ]} ->
         d !! "global" = Some (VDict g) ->
         Consequences.rearrange P (VDict d) = inr out ->
         exists fields : gmap string value,
           out !! "global" = Some (VDict fields)
           /\ forall f xs, f = "cost" \/ f = "damage_state" ->
                g !! f = Some (VList xs) ->
                exists ys, fields !! f = Some (VList ys)
                           /\ length ys = length P
                           /\ forall i k, P !! i = Some k -> ys !! i = xs !! k)
  /\ Consequences.rearrange [2; 0; 3; 1] Fixtures.tier1_damage_states
     = inr {[ "deck" :=
          VDict {[ "damage_state" := VList [VStr "C"; VStr "A"; VStr "D"; VStr "B"] ]} ]}
  /\ Consequences.rearrange [2; 0; 3; 1] Fixtures.tier2_damage_states
     = inr {[ "global" :=
          VDict {[ "damage_state" := VList [VStr "C"; VStr "A"; VStr "D"; VStr "B"] ]} ]}.
Proof.
  split; [| split; [| split; [| split]]].
  - intros owner field xs P Hget HP.
    destruct (reindex_list owner field xs P Hget HP) as (out & Hout & Hall).
    exists out. split; [exact Hout |]. by apply pointwise_of_Forall2.
  - intros P d name rrng Hname Hng Hcost Hds.
    unfold Consequences.tier1_component, getitem. rewrite Hname. simpl.
    destruct (String.eqb_spec name "global") as [-> | _]; [done |]. simpl.
    set (rrng0 := <[name := VDict ∅]> rrng).
    destruct (rearrange_field_total d ∅ "cost" "cost" "cost" name P rrng0)
      as (f1 & E1 & K1 & _ & R1).
    { apply lookup_insert_eq. }
    { by apply readable_source. }
    rewrite E1. simpl.
    destruct (rearrange_field_total d f1 "damage_state" "damage_state" "damage_state"
                name P (<[name := VDict f1]> rrng0)) as (f2 & E2 & K2 & _ & R2).
    { apply lookup_insert_eq. }
    { by apply readable_source. }
    rewrite E2. eexists _, f2. split; [reflexivity |].
    split; [apply lookup_insert_eq |].
    intros f cs [-> | ->] Hcs.
    + destruct R1 as (xs' & ys & Hxs' & Hys & Hall'); [by eexists |].
      assert (xs' = cs) as -> by congruence.
      exists ys. split; [rewrite K2 by discriminate; exact Hys |].
      by apply pointwise_of_Forall2.
    + destruct R2 as (xs' & ys & Hxs' & Hys & Hall'); [by eexists |].
      assert (xs' = cs) as -> by congruence.
      exists ys. split; [exact Hys |]. by apply pointwise_of_Forall2.
  - intros P d g out Hdom Hg H.
    unfold Consequences.rearrange, len_keys in H. simpl in H.
    assert (Hsize : size d = 1) by (rewrite <- size_dom, Hdom; apply size_singleton).
    rewrite Hsize in H. simpl in H.
    unfold Consequences.tier2, getitem in H. rewrite Hg in H. simpl in H.
    bind_inv H as rrng1 H1.
    destruct (rearrange_field_returns g ∅ "cost" "cost" "cost" "global" P _ _
                (lookup_insert_eq _ _ _) H1) as (f1 & -> & K1 & R1).
    bind_inv H as rrng2 H2.
    destruct (rearrange_field_returns g f1 "damage_state" "damage_state" "damage_state"
                "global" P _ _ (lookup_insert_eq _ _ _) H2) as (f2 & -> & K2 & R2).
    assert (Hf2 : forall f xs, f = "cost" \/ f = "damage_state" ->
              g !! f = Some (VList xs) ->
              exists ys, f2 !! f = Some (VList ys)
                         /\ length ys = length P
                         /\ forall i k, P !! i = Some k -> ys !! i = xs !! k).
    { intros f xs [-> | ->] Hxs.
      - destruct (R1 ltac:(by eexists) xs Hxs) as (ys & Hys & Hall).
        exists ys. split; [rewrite K2 by discriminate; exact Hys |].
        by apply pointwise_of_Forall2.
      - destruct (R2 ltac:(by eexists) xs Hxs) as (ys & Hys & Hall).
        exists ys. split; [exact Hys |]. by apply pointwise_of_Forall2. }
    unfold has_key in H. simpl in H. case_bool_decide as Hrec.
    + bind_inv H as rec Hr. bind_inv H as recovery Hrd.
      rewrite (update_field_insert _ _ _ f2) in H by apply lookup_insert_eq.
      injection H as <-. exists (<["recovery" := VDict recovery]> f2).
      split; [apply lookup_insert_eq |].
      intros f xs Hf Hxs. destruct (Hf2 f xs Hf Hxs) as (ys & Hys & Hrest).
      exists ys. split; [| exact Hrest].
      rewrite lookup_insert_ne; [exact Hys |]. by destruct Hf as [-> | ->].
    + injection H as <-. exists f2. split; [apply lookup_insert_eq | exact Hf2].
  - vm_compute. reflexivity.
  - vm_compute. reflexivity.
Qed.

Lemma reindex_pointwise_witness :
  exists out,
    Consequences.reindex
      (VDict {[ "damage_state" := VList [VStr "A"; VStr "B"; VStr "C"; VStr "D"] ]})
      "damage_state" [2; 0; 3; 1] = inr out
    /\ length out = 4
    /\ forall i k, [2; 0; 3; 1] !! i = Some k
                   -> out !! i = [VStr "A"; VStr "B"; VStr "C"; VStr "D"] !! k.
Proof.
  apply (proj1 reindex_pointwise).
  - reflexivity.
  - repeat constructor.
Defined.

(** C6, as the code has it. When the global component of a Tier I record
    has the key "recovery" and its "recovery_realizations" list covers the
    index list [P], the engine emits "recovery" with
    [recovery[i] = recovery_realizations[P[i]]], and cost and damage_state
    of the same component are read through the same [P]. *)
Theorem tier1_global_recovery (P : list nat) (d : gmap string value)
    (rs : list value) (rrng : gmap string value) :
  d !! "component" = Some (VStr "global") ->
  is_Some (d !! "recovery") ->
  d !! "recovery_realizations" = Some (VList rs) ->
  Forall (fun k => k < length rs) P ->
  Shape.readable d "cost" P ->
  Shape.readable d "damage_state" P ->
  exists (rrng' fields : gmap string value) (out : list value),
    Consequences.tier1_component P (VDict d) rrng = inr rrng'
    /\ rrng' !! "global" = Some (VDict fields)
    /\ fields !! "recovery" = Some (VList out)
    /\ length out = length P
    /\ (forall i k, P !! i = Some k -> out !! i = rs !! k)
    /\ (forall f xs, f = "cost" \/ f = "damage_state" ->
          d !! f = Some (VList xs) ->
          exists ys, fields !! f = Some (VList ys)
                     /\ forall i k, P !! i = Some k -> ys !! i = xs !! k).
Proof.
  intros Hname Hrec Hrs HP Hcost Hds.
  unfold Consequences.tier1_component, getitem. rewrite Hname. simpl.
  set (rrng0 := <["global" := VDict ∅]> rrng).
  destruct (rearrange_field_total d ∅ "recovery" "recovery_realizations" "recovery"
              "global" P rrng0) as (f1 & E1 & K1 & _ & R1).
  { apply lookup_insert_eq. }
  { intros _. by exists rs. }
  rewrite E1. simpl.
  destruct (rearrange_field_total d f1 "cost" "cost" "cost" "global" P
              (<["global" := VDict f1]> rrng0)) as (f2 & E2 & K2 & _ & R2).
  { apply lookup_insert_eq. }
  { by apply readable_source. }
  rewrite E2. simpl.
  destruct (rearrange_field_total d f2 "damage_state" "damage_state" "damage_state"
              "global" P (<["global" := VDict f2]> (<["global" := VDict f1]> rrng0)))
    as (f3 & E3 & K3 & _ & R3).
  { apply lookup_insert_eq. }
  { by apply readable_source. }
  rewrite E3.
  destruct (R1 Hrec) as (xs & out & Hxs & Hout & Hall).
  assert (xs = rs) as -> by congruence.
  eexists _, f3, out. split; [reflexivity |].
  split; [apply lookup_insert_eq |].
  split; [rewrite K3, K2 by discriminate; exact Hout |].
  destruct (pointwise_of_Forall2 _ _ _ Hall) as [Hlen Hpt].
  split; [exact Hlen |]. split; [exact Hpt |].
  intros f cs [-> | ->] Hcs.
  - destruct R2 as (xs' & ys & Hxs' & Hys & Hall'); [by eexists |].
    assert (xs' = cs) as -> by congruence.
    exists ys. split; [rewrite K3 by discriminate; exact Hys |].
    by apply pointwise_of_Forall2.
  - destruct R3 as (xs' & ys & Hxs' & Hys & Hall'); [by eexists |].
    assert (xs' = cs) as -> by congruence.
    exists ys. split; [exact Hys |]. by apply pointwise_of_Forall2.
Qed.

Lemma tier1_global_recovery_witness :
  exists (rrng' fields : gmap string value) (out : list value),
    Consequences.tier1_component [1; 0]
      (VDict {[ "component" := VStr "global"; "recovery" := VStr "days";
                "recovery_realizations" := VList [VStr "ra"; VStr "rb"];
                "cost" := VList [VNum 10; VNum 20] ]}) ∅ = inr rrng'
    /\ rrng' !! "global" = Some (VDict fields)
    /\ fields !! "recovery" = Some (VList out)
    /\ length out = 2
    /\ (forall i k, [1; 0] !! i = Some k -> out !! i = [VStr "ra"; VStr "rb"] !! k)
    /\ (forall f xs, f = "cost" \/ f = "damage_state" ->
          ({[ "component" := VStr "global"; "recovery" := VStr "days";
              "recovery_realizations" := VList [VStr "ra"; VStr "rb"];
              "cost" := VList [VNum 10; VNum 20] ]} : gmap string value) !! f
          = Some (VList xs) ->
          exists ys, fields !! f = Some (VList ys)
                     /\ forall i k, [1; 0] !! i = Some k -> ys !! i = xs !! k).
Proof.
  apply (tier1_global_recovery [1; 0] _ [VStr "ra"; VStr "rb"] ∅).
  - vm_compute. reflexivity.
  - exists (VStr "days"). vm_compute. reflexivity.
  - vm_compute. reflexivity.
  - repeat constructor.
  - vm_compute. repeat constructor.
  - vm_compute. exact I.
Defined.

(** C6, as stated, fails: the global component below carries recovery
    realizations, the engine returns normally, and its output for that
    component has no recovery entry. *)
Lemma recovery_omitted_without_key :
  (exists comps cd,
      getitem Fixtures.tier1_recovery_unflagged "consequences" = inr (VList comps)
      /\ comps = [VDict cd]
      /\ cd !! "component" = Some (VStr "global")
      /\ cd !! "recovery_realizations" = Some (VList [VStr "ra"; VStr "rb"]))
  /\ Consequences.rearrange [1; 0] Fixtures.tier1_recovery_unflagged
     = inr {[ "global" := VDict {[ "cost" := VList [VNum 20; VNum 10] ]} ]}.
Proof.
  split.
  - eexists _, _. split; [vm_compute; reflexivity |].
    split; [reflexivity |]. split; vm_compute; reflexivity.
  - vm_compute. reflexivity.
Qed.

(** ** The shuffle permutes *)

Section ShufflePermutes.

Context {A : Type}.

Lemma insert_Permutation_delete (l : list A) (i : nat) (x : A) :
  i < length l -> <[i := x]> l ≡ₚ x :: delete i l.
Proof.
  intros Hi. rewrite insert_take_drop by exact Hi.
  rewrite delete_take_drop. symmetry. apply Permutation_middle.
Qed.

Lemma swap_Permutation (x : list A) (i j : nat) : PyRandom.swap x i j ≡ₚ x.
Proof.
  unfold PyRandom.swap.
  destruct (x !! i) as [a |] eqn:Hi; [| reflexivity].
  destruct (x !! j) as [b |] eqn:Hj; [| reflexivity].
  destruct (decide (i = j)) as [-> | Hne].
  - rewrite list_insert_insert_eq.
    assert (a = b) as -> by congruence.
    by rewrite list_insert_id.
  - set (x' := <[i := b]> x).
    assert (Hj' : x' !! j = Some b).
    { unfold x'. by rewrite list_lookup_insert_ne. }
    assert (Hlen : j < length x') by (by eapply lookup_lt_Some).
    rewrite (insert_Permutation_delete x' j a Hlen).
    rewrite (delete_Permutation x i a Hi).
    apply Permutation_cons; [reflexivity |].
    apply (Permutation_cons_inv (a := b)).
    rewrite <- (delete_Permutation x' j b Hj').
    unfold x'. apply insert_Permutation_delete. by eapply lookup_lt_Some.
Qed.

Lemma shuffle_loop_Permutation (fuel n : nat) (x y : list A) (g : MT.state) :
  PyRandom.shuffle_loop fuel n x g = inr y -> y ≡ₚ x.
Proof.
  revert x g. induction n as [| n IH]; intros x g H; simpl in H.
  - injection H as <-. reflexivity.
  - bind_inv H. destruct a as [j g1].
    apply IH in H. rewrite H. apply swap_Permutation.
Qed.

Lemma shuffle_Permutation (fuel : nat) (a : Z) (x y : list A) :
  PyRandom.shuffle fuel a x = inr y -> y ≡ₚ x.
Proof. apply shuffle_loop_Permutation. Qed.

End ShufflePermutes.

Lemma running_perm_Permutation (fuel N k : nat) (p : list nat) :
  Traversal.running_perm fuel N k = inr p -> p ≡ₚ seq 0 N.
Proof.
  unfold Traversal.running_perm. generalize 1 as s0.
  generalize (seq 0 N) as l0. revert p.
  induction k as [| k IH]; intros p l0 s0 H; simpl in H.
  - injection H as <-. reflexivity.
  - bind_inv H. apply IH in H. rewrite H. by eapply shuffle_Permutation.
Qed.

(** An array read through a rearrangement of all its indices is a
    rearrangement of the array. *)
Lemma reindexed_Permutation (xs : list value) (P : list nat) (out : list value) :
  P ≡ₚ seq 0 (length xs) -> Shape.reindexed xs P out -> out ≡ₚ xs.
Proof.
  intros HP Hall.
  destruct (Permutation_Forall2 HP Hall) as (out' & Hperm & Hall').
  rewrite Hperm. assert (out' = xs) as ->; [| reflexivity].
  apply list_eq. intros i.
  destruct (xs !! i) as [y |] eqn:Hy.
  - assert (Hi : seq 0 (length xs) !! i = Some i).
    { apply lookup_seq. split; [reflexivity | by eapply lookup_lt_Some]. }
    destruct (Forall2_lookup_l _ _ _ _ _ Hall' Hi) as (y' & Hy' & Hxs). congruence.
  - apply lookup_ge_None. apply lookup_ge_None in Hy.
    rewrite <- (Forall2_length _ _ _ Hall'), length_seq. exact Hy.
Qed.

(** ** Every emitted array comes from an input array *)

Section Provenance.

Lemma reindex_source (owner : value) (src : string) (P : list nat) (ys : list value) :
  P <> [] ->
  Consequences.reindex owner src P = inr ys ->
  length ys = length P
  /\ exists srcv, getitem owner src = inr srcv
                  /\ forall xs, srcv = VList xs -> Shape.reindexed xs P ys.
Proof.
  intros HP H. split.
  { apply map_res_inr in H. symmetry. by eapply Forall2_length. }
  destruct P as [| k P]; [done |].
  pose proof H as H0. simpl in H0. bind_inv H0. bind_inv Ha.
  exists a0. split; [exact Ha0 |].
  intros xs ->. by eapply reindex_inv.
Qed.

(** One guarded field update, read backwards. *)
Lemma rearrange_field_inv (key : string -> string) (owner : value)
    (guard src out comp : string) (P : list nat)
    (rrng rrng' f : gmap string value) :
  P <> [] ->
  key out = src ->
  rrng !! comp = Some (VDict f) ->
  Shape.emitted key owner P f ->
  Consequences.rearrange_field owner guard src out comp P rrng = inr rrng' ->
  exists f', rrng' = <[comp := VDict f']> rrng
             /\ Shape.emitted key owner P f'
             /\ (f' = f \/ exists ys, f' = <[out := VList ys]> f).
Proof.
  intros HP Hkey Hcomp Hf H. unfold Consequences.rearrange_field in H.
  bind_inv H. destruct a.
  - bind_inv H. rewrite (update_field_insert _ _ _ f) in H by exact Hcomp.
    injection H as <-. exists (<[out := VList a]> f).
    split; [reflexivity |]. split; [| right; by eexists].
    intros field ys Hys.
    destruct (decide (field = out)) as [-> | Hne].
    + rewrite lookup_insert_eq in Hys. injection Hys as <-.
      rewrite Hkey. by apply reindex_source.
    + rewrite lookup_insert_ne in Hys by done. by apply Hf.
  - injection H as <-. exists f. split; [by rewrite insert_id |]. by split; [| left].
Qed.

Lemma emitted_empty (key : string -> string) (owner : value) (P : list nat) :
  Shape.emitted key owner P ∅.
Proof. intros field ys H. by rewrite lookup_empty in H. Qed.

(** One pass of the Tier I loop overwrites the entry of its component
    with lists read from that component. *)
Lemma tier1_component_inv (P : list nat) (c : value) (rrng rrng' : gmap string value) :
  P <> [] ->
  Consequences.tier1_component P c rrng = inr rrng' ->
  exists (cd : gmap string value) (name : string) (f : gmap string value),
    c = VDict cd
    /\ cd !! "component" = Some (VStr name)
    /\ rrng' = <[name := VDict f]> rrng
    /\ Shape.emitted Shape.src_key c P f.
Proof.
  intros HP H. unfold Consequences.tier1_component in H.
  bind_inv H. bind_inv H.
  destruct c as [| | | cd]; try discriminate.
  simpl in Ha. apply of_option_inr in Ha.
  destruct a as [| name | |]; try discriminate. injection Ha0 as <-.
  exists cd, name.
  set (rrng0 := <[name := VDict ∅]> rrng) in H.
  assert (H0 : rrng0 !! name = Some (VDict ∅)) by apply lookup_insert_eq.
  pose proof (emitted_empty Shape.src_key (VDict cd) P) as E0.
  destruct (negb (String.eqb name "global")).
  - bind_inv H.
    destruct (rearrange_field_inv Shape.src_key _ "cost" "cost" "cost"
                _ _ _ _ _ HP eq_refl H0 E0 Ha0) as (f1 & -> & E1 & _).
    destruct (rearrange_field_inv Shape.src_key _ "damage_state" "damage_state"
                "damage_state" _ _ _ _ f1 HP eq_refl
                (lookup_insert_eq _ _ _) E1 H) as (f2 & -> & E2 & _).
    exists f2. unfold rrng0. by rewrite !insert_insert_eq.
  - bind_inv H. bind_inv H.
    destruct (rearrange_field_inv Shape.src_key _ "recovery" "recovery_realizations"
                "recovery" _ _ _ _ _ HP eq_refl H0 E0 Ha0) as (f1 & -> & E1 & _).
    destruct (rearrange_field_inv Shape.src_key _ "cost" "cost" "cost"
                _ _ _ _ f1 HP eq_refl
                (lookup_insert_eq _ _ _) E1 Ha1) as (f2 & -> & E2 & _).
    destruct (rearrange_field_inv Shape.src_key _ "damage_state" "damage_state"
                "damage_state" _ _ _ _ f2 HP eq_refl
                (lookup_insert_eq _ _ _) E2 H) as (f3 & -> & E3 & _).
    exists f3. unfold rrng0. by rewrite !insert_insert_eq.
Qed.

(** Invariant of the Tier I loop: every list of the output so far was
    read through [P] from a component already visited. *)
Lemma tier1_loop_sources (P : list nat) (comps done_ : list value)
    (rrng out : gmap string value) :
  P <> [] ->
  (forall comp fields field ys,
      rrng !! comp = Some (VDict fields) -> fields !! field = Some (VList ys) ->
      length ys = length P
      /\ exists src, Shape.tier1_source done_ comp field src
                     /\ forall xs, src = VList xs -> Shape.reindexed xs P ys) ->
  for_each comps (Consequences.tier1_component P) rrng = inr out ->
  forall comp fields field ys,
    out !! comp = Some (VDict fields) -> fields !! field = Some (VList ys) ->
    length ys = length P
    /\ exists src, Shape.tier1_source (done_ ++ comps) comp field src
                   /\ forall xs, src = VList xs -> Shape.reindexed xs P ys.
Proof.
  intros HP. revert done_ rrng.
  induction comps as [| c comps IH]; intros done_ rrng Inv H; simpl in H.
  - injection H as <-. by rewrite app_nil_r.
  - bind_inv H.
    destruct (tier1_component_inv P c rrng a HP Ha) as (cd & name & f & -> & Hn & -> & E).
    replace (done_ ++ VDict cd :: comps) with ((done_ ++ [VDict cd]) ++ comps)
      by (by rewrite <- app_assoc).
    refine (IH _ _ _ H). clear IH H.
    intros comp fields field ys Hcomp Hfield.
    destruct (decide (name = comp)) as [-> | Hne].
    + rewrite lookup_insert_eq in Hcomp. injection Hcomp as <-.
      destruct (E field ys Hfield) as (Hlen & srcv & Hsrc & Hre).
      split; [exact Hlen |]. exists srcv. split; [| exact Hre].
      exists cd. split; [apply elem_of_app; right; by apply list_elem_of_singleton |].
    split; [exact Hn |].
      simpl in Hsrc. by apply of_option_inr in Hsrc.
    + rewrite lookup_insert_ne in Hcomp by done.
      destruct (Inv comp fields field ys Hcomp Hfield) as (Hlen & src & Hs & Hre).
      split; [exact Hlen |]. exists src. split; [| exact Hre].
      destruct Hs as (cd' & Hin & Hrest). exists cd'.
    split; [apply elem_of_app; by left | exact Hrest].
Qed.

End Provenance.

(** ** Tier II: the recovery dict and the global component *)

Section TierTwo.

Lemma rlz_inj (i j : nat) : Consequences.rlz i = Consequences.rlz j -> i = j.
Proof.
  unfold Consequences.rlz. intros H.
  apply String.app_inj in H. apply pretty_nat_inj in H. lia.
Qed.

Lemma recovery_dict_spec (rec : value) (i0 : nat) (P : list nat)
    (acc r' : gmap string value) :
  Consequences.recovery_dict rec i0 P acc = inr r' ->
  (forall i k, P !! i = Some k ->
     exists v, getitem rec (Consequences.rlz k) = inr v
               /\ r' !! Consequences.rlz (i0 + i) = Some v)
  /\ (forall key, (forall i, i < length P -> key <> Consequences.rlz (i0 + i)) ->
        r' !! key = acc !! key).
Proof.
  revert i0 acc. induction P as [| k P IH]; intros i0 acc H; simpl in H.
  - injection H as <-. split; [intros i k Hi; by rewrite lookup_nil in Hi | done].
  - bind_inv H. destruct (IH _ _ H) as [Hpt Hframe]. split.
    + intros [| i] k' Hi; simpl in Hi.
      * injection Hi as <-. exists a. split; [exact Ha |].
        rewrite Nat.add_0_r, Hframe.
        -- apply lookup_insert_eq.
        -- intros i _ Heq. apply rlz_inj in Heq. lia.
      * destruct (Hpt i k' Hi) as (v & Hv & Hr). exists v. split; [exact Hv |].
        by replace (i0 + S i) with (S i0 + i) by lia.
    + intros key Hkey. rewrite Hframe.
      * apply lookup_insert_ne. intros Heq.
        apply (Hkey 0); [simpl; lia | by rewrite Nat.add_0_r].
      * intros i Hi. replace (S i0 + i) with (i0 + S i) by lia.
        apply Hkey. simpl. lia.
Qed.

Lemma recovery_dict_size (rec : value) (P : list nat) (r' : gmap string value) :
  Consequences.recovery_dict rec 0 P ∅ = inr r' -> size r' = length P.
Proof.
  intros H. destruct (recovery_dict_spec _ _ _ _ _ H) as [Hpt Hframe].
  assert (Hdom : dom r' = list_to_set (Consequences.rlz <$> seq 0 (length P))).
  { apply set_eq. intros key. rewrite elem_of_dom, elem_of_list_to_set, list_elem_of_fmap.
    split.
    - intros Hsome.
      destruct (decide (key ∈ Consequences.rlz <$> seq 0 (length P))) as [Hin | Hnin].
      + by apply list_elem_of_fmap in Hin.
      + rewrite Hframe, lookup_empty in Hsome; [by destruct Hsome |].
        intros i Hi ->. apply Hnin. apply list_elem_of_fmap.
        exists i. split; [reflexivity |]. apply elem_of_seq. lia.
    - intros (i & -> & Hi). apply elem_of_seq in Hi.
      destruct (lookup_lt_is_Some_2 P i) as [k Hk]; [lia |].
      destruct (Hpt i k Hk) as (v & _ & Hv). by exists v. }
  rewrite <- size_dom, Hdom, size_list_to_set, length_fmap, length_seq; [reflexivity |].
  apply NoDup_fmap_2; [intros i j; apply rlz_inj | apply NoDup_seq].
Qed.

(** The Tier II code, read backwards. *)
Lemma tier2_inv (P : list nat) (asset_cons : value) (out : gmap string value) :
  P <> [] ->
  Consequences.tier2 P asset_cons = inr out ->
  exists (g f2 : gmap string value),
    getitem asset_cons "global" = inr (VDict g)
    /\ Shape.emitted id (VDict g) P f2
    /\ f2 !! "recovery" = None
    /\ ((g !! "recovery" = None /\ out = {[ "global" := VDict f2 ]})
        \/ exists rec r',
             g !! "recovery" = Some rec
             /\ Consequences.recovery_dict rec 0 P ∅ = inr r'
             /\ out = {[ "global" := VDict (<["recovery" := VDict r']> f2) ]}).
Proof.
  intros HP H. unfold Consequences.tier2 in H.
  bind_inv H as gv Hg. bind_inv H as r1 H1. bind_inv H as r2 H2.
  bind_inv H as present Hp.
  set (rrng0 := {[ "global" := VDict ∅ ]} : gmap string value) in *.
  destruct gv as [| | | g]; try discriminate.
  exists g.
  destruct (rearrange_field_inv id (VDict g) "cost" "cost" "cost" "global" P rrng0 r1 ∅
              HP eq_refl (lookup_singleton_eq _ _) (emitted_empty _ _ _) H1)
    as (f1 & -> & E1 & S1).
  destruct (rearrange_field_inv id (VDict g) "damage_state" "damage_state"
              "damage_state" "global" P _ r2 f1 HP eq_refl
              (lookup_insert_eq _ _ _) E1 H2) as (f2 & -> & E2 & S2).
  exists f2. split; [exact Hg |]. split; [exact E2 |].
  assert (Hnone : f2 !! "recovery" = None).
  { destruct S2 as [-> | (ys2 & ->)], S1 as [-> | (ys1 & ->)];
      repeat (rewrite lookup_insert_ne by discriminate); apply lookup_empty. }
  split; [exact Hnone |].
  simpl in Hp. injection Hp as <-.
  unfold rrng0 in H. rewrite insert_insert_eq, insert_singleton_eq in H.
  case_bool_decide as Hrec.
  - right. bind_inv H as rec Hrec'. bind_inv H as r' Hr'.
    simpl in Hrec'. apply of_option_inr in Hrec'.
    rewrite (update_field_insert _ _ _ f2) in H by apply lookup_singleton_eq.
    injection H as <-. exists rec, r'. split; [exact Hrec' |]. split; [exact Hr' |].
    by rewrite insert_singleton_eq.
  - left. injection H as <-. split; [| reflexivity].
    by apply eq_None_not_Some.
Qed.

End TierTwo.

(** ** Emitted arrays are rearrangements *)

Section Rearrangements.

Lemma perm_nonempty (P : list nat) (N : nat) : 0 < N -> P ≡ₚ seq 0 N -> P <> [].
Proof.
  intros HN HP ->. apply Permutation_length in HP.
  rewrite length_seq in HP. simpl in HP. lia.
Qed.

Lemma perm_length (P : list nat) (N : nat) : P ≡ₚ seq 0 N -> length P = N.
Proof. intros HP. apply Permutation_length in HP. by rewrite length_seq in HP. Qed.

(** Values found position by position form one list. *)
Lemma collect_values {V} (R1 : nat -> V -> Prop) (R2 : nat -> V -> Prop)
    (P : list nat) (i0 : nat) :
  (forall i k, P !! i = Some k -> exists v, R1 k v /\ R2 (i0 + i) v) ->
  exists vals, Forall2 R1 P vals /\ Forall2 R2 (seq i0 (length P)) vals.
Proof.
  revert i0. induction P as [| k P IH]; intros i0 H.
  - exists []. split; constructor.
  - destruct (H 0 k eq_refl) as (v & Hv1 & Hv2). rewrite Nat.add_0_r in Hv2.
    destruct (IH (S i0)) as (vals & H1 & H2).
    { intros i k' Hi. destruct (H (S i) k' Hi) as (v' & ? & ?).
      exists v'. by replace (S i0 + i) with (i0 + S i) by lia. }
    exists (v :: vals). split; simpl; by constructor.
Qed.

Lemma rearrange_lists (P : list nat) (N : nat) (rec : value)
    (out : gmap string value) (comp : string) (fields : gmap string value)
    (field : string) (ys : list value) :
  0 < N -> P ≡ₚ seq 0 N ->
  Consequences.rearrange P rec = inr out ->
  out !! comp = Some (VDict fields) ->
  fields !! field = Some (VList ys) ->
  length ys = N
  /\ exists src, Shape.source_array rec comp field src
                 /\ forall xs, src = VList xs -> length xs = N -> ys ≡ₚ xs.
Proof.
  intros HN HP H Hcomp Hfield.
  pose proof (perm_nonempty P N HN HP) as Hne.
  pose proof (perm_length P N HP) as Hlen.
  unfold Consequences.rearrange in H. bind_inv H as n Hn.
  destruct rec as [| | | d]; try discriminate. injection Hn as <-.
  assert (Hfinish : forall xs, Shape.reindexed xs P ys -> length xs = N -> ys ≡ₚ xs).
  { intros xs Hre Hxs. apply (reindexed_Permutation xs P); [by rewrite Hxs | exact Hre]. }
  destruct (1 <? size d) eqn:Htier.
  - unfold Consequences.tier1 in H. bind_inv H as cs Hcs. bind_inv H as comps Hcomps.
    simpl in Hcs. apply of_option_inr in Hcs.
    assert (Inv0 : forall c f fl y,
               (∅ : gmap string value) !! c = Some (VDict f) ->
               f !! fl = Some (VList y) ->
               length y = length P
               /\ exists src, Shape.tier1_source [] c fl src
                              /\ forall xs, src = VList xs -> Shape.reindexed xs P y).
    { intros c f fl y Hc. by rewrite lookup_empty in Hc. }
    destruct (tier1_loop_sources P comps [] ∅ out Hne Inv0 H comp fields field ys
                Hcomp Hfield) as (Hl & src & Hs & Hre).
    simpl in Hs. split; [congruence |].
    exists src. split; [| intros xs ->; by apply Hfinish, Hre].
    exists d. split; [reflexivity |]. rewrite Htier.
    exists comps. split; [| exact Hs].
    destruct Hs as (cd & Hin & _).
    destruct cs as [| s | xs |]; simpl in Hcomps; try discriminate;
      injection Hcomps as <-; [| done |];
      apply list_elem_of_fmap in Hin as (? & [=] & _).
  - destruct (tier2_inv P (VDict d) out Hne H) as (g & f2 & Hg & E & Hnone & Hout).
    simpl in Hg. apply of_option_inr in Hg.
    assert (comp = "global" /\ f2 !! field = Some (VList ys)) as [-> Hys].
    { destruct Hout as [[_ ->] | (rec & r' & _ & _ & ->)].
      - apply lookup_singleton_Some in Hcomp as [<- [= <-]]. by split.
      - apply lookup_singleton_Some in Hcomp as [<- [= <-]]. split; [reflexivity |].
        destruct (decide (field = "recovery")) as [-> | Hnr].
        + by rewrite lookup_insert_eq in Hfield.
        + by rewrite lookup_insert_ne in Hfield. }
    destruct (E field ys Hys) as (Hl & srcv & Hsrc & Hre).
    simpl in Hsrc. apply of_option_inr in Hsrc.
    split; [congruence |]. exists srcv. split; [| intros xs ->; by apply Hfinish, Hre].
    exists d. split; [reflexivity |]. rewrite Htier. by exists g.
Qed.

Lemma rearrange_recovery_dict (P : list nat) (N : nat) (d out fields r' : gmap string value) :
  0 < N -> P ≡ₚ seq 0 N ->
  size d <= 1 ->
  Consequences.rearrange P (VDict d) = inr out ->
  out !! "global" = Some (VDict fields) ->
  fields !! "recovery" = Some (VDict r') ->
  size r' = N
  /\ exists (g : gmap string value) (r : value) (vals_out vals_in : list value),
       d !! "global" = Some (VDict g) /\ g !! "recovery" = Some r
       /\ Forall2 (fun i v => r' !! Consequences.rlz i = Some v) (seq 0 N) vals_out
       /\ Forall2 (fun j v => getitem r (Consequences.rlz j) = inr v) (seq 0 N) vals_in
       /\ vals_out ≡ₚ vals_in.
Proof.
  intros HN HP Hsize H Hglobal Hrecov.
  pose proof (perm_nonempty P N HN HP) as Hne.
  pose proof (perm_length P N HP) as Hlen.
  unfold Consequences.rearrange in H. simpl in H.
  destruct (Nat.ltb_spec 1 (size d)) as [Hlt | _]; [lia |].
  destruct (tier2_inv P (VDict d) out Hne H) as (g & f2 & Hg & E & Hnone & Hout).
  simpl in Hg. apply of_option_inr in Hg.
  destruct Hout as [[_ ->] | (r & r0 & Hr & Hdict & ->)].
  { apply lookup_singleton_Some in Hglobal as [_ [= <-]]. congruence. }
  apply lookup_singleton_Some in Hglobal as [_ [= <-]].
  rewrite lookup_insert_eq in Hrecov. injection Hrecov as <-.
  split; [rewrite <- Hlen; by eapply recovery_dict_size |].
  destruct (recovery_dict_spec _ _ _ _ _ Hdict) as [Hpt _].
  destruct (collect_values (fun k v => getitem r (Consequences.rlz k) = inr v)
              (fun i v => r0 !! Consequences.rlz i = Some v) P 0 Hpt)
    as (vals & H1 & H2).
  destruct (Permutation_Forall2 HP H1) as (vals_in & Hperm & Hin).
  exists g, r, vals, vals_in. rewrite Hlen in H2. by repeat split.
Qed.

End Rearrangements.

(** C10. The index list the traversal applies at any position is a
    rearrangement of [0, ..., N-1]. Read through such a list, every list
    the engine emits for a component (cost, damage_state, recovery) has
    length [N] and, when its input array has length [N], is a
    rearrangement of that input array; the recovery dict of a Tier II
    record has [N] entries whose values are a rearrangement of the input
    values under rlz_1, ..., rlz_N. *)
Theorem emitted_arrays_are_rearrangements :
  (forall fuel N k p, Traversal.running_perm fuel N k = inr p -> p ≡ₚ seq 0 N)
  /\ (forall (P : list nat) (N : nat) (rec : value) (out : gmap string value)
        (comp : string) (fields : gmap string value) (field : string) (ys : list value),
        0 < N -> P ≡ₚ seq 0 N ->
        Consequences.rearrange P rec = inr out ->
        out !! comp = Some (VDict fields) ->
        fields !! field = Some (VList ys) ->
        length ys = N
        /\ exists src, Shape.source_array rec comp field src
                       /\ forall xs, src = VList xs -> length xs = N -> ys ≡ₚ xs)
  /\ (forall (P : list nat) (N : nat) (d out fields r' : gmap string value),
        0 < N -> P ≡ₚ seq 0 N ->
        size d <= 1 ->
        Consequences.rearrange P (VDict d) = inr out ->
        out !! "global" = Some (VDict fields) ->
        fields !! "recovery" = Some (VDict r') ->
        size r' = N
        /\ exists (g : gmap string value) (r : value) (vals_out vals_in : list value),
             d !! "global" = Some (VDict g) /\ g !! "recovery" = Some r
             /\ Forall2 (fun i v => r' !! Consequences.rlz i = Some v) (seq 0 N) vals_out
             /\ Forall2 (fun j v => getitem r (Consequences.rlz j) = inr v) (seq 0 N) vals_in
             /\ vals_out ≡ₚ vals_in).
Proof.
  split; [exact running_perm_Permutation |].
  split; [exact rearrange_lists | exact rearrange_recovery_dict].
Qed.

Lemma emitted_arrays_are_rearrangements_witness :
  [4; 3; 0; 1; 2] ≡ₚ seq 0 5
  /\ (length [VNum 20; VNum 10] = 2
      /\ exists src, Shape.source_array Fixtures.tier2_minimal "global" "cost" src
                     /\ forall xs, src = VList xs -> length xs = 2
                                   -> [VNum 20; VNum 10] ≡ₚ xs)
  /\ (size ({[ "rlz_1" := VStr "r2"; "rlz_2" := VStr "r1" ]} : gmap string value) = 2
      /\ exists (g : gmap string value) (r : value) (vals_out vals_in : list value),
           ({[ "global" :=
                 VDict {[ "recovery" :=
                   VDict {[ "rlz_1" := VStr "r1"; "rlz_2" := VStr "r2" ]} ]} ]}
              : gmap string value) !! "global" = Some (VDict g)
           /\ g !! "recovery" = Some r
           /\ Forall2 (fun i v =>
                 ({[ "rlz_1" := VStr "r2"; "rlz_2" := VStr "r1" ]} : gmap string value)
                   !! Consequences.rlz i = Some v) (seq 0 2) vals_out
           /\ Forall2 (fun j v => getitem r (Consequences.rlz j) = inr v) (seq 0 2) vals_in
           /\ vals_out ≡ₚ vals_in).
Proof.
  split; [| split].
  - apply (proj1 emitted_arrays_are_rearrangements 64 5 2).
    vm_compute. reflexivity.
  - apply (proj1 (proj2 emitted_arrays_are_rearrangements) [1; 0] 2
             Fixtures.tier2_minimal
             {[ "global" :=
                  VDict {[ "cost" := VList [VNum 20; VNum 10];
                           "damage_state" := VList [VStr "DS2"; VStr "DS1"];
                           "recovery" :=
                             VDict {[ "rlz_1" := VStr "r2"; "rlz_2" := VStr "r1" ]} ]} ]}
             "global"
             {[ "cost" := VList [VNum 20; VNum 10];
                "damage_state" := VList [VStr "DS2"; VStr "DS1"];
                "recovery" := VDict {[ "rlz_1" := VStr "r2"; "rlz_2" := VStr "r1" ]} ]}
             "cost").
    + lia.
    + apply perm_swap.
    + vm_compute. reflexivity.
    + vm_compute. reflexivity.
    + vm_compute. reflexivity.
  - apply (proj2 (proj2 emitted_arrays_are_rearrangements) [1; 0] 2 _
             {[ "global" :=
                  VDict {[ "recovery" :=
                    VDict {[ "rlz_1" := VStr "r2"; "rlz_2" := VStr "r1" ]} ]} ]}
             {[ "recovery" := VDict {[ "rlz_1" := VStr "r2"; "rlz_2" := VStr "r1" ]} ]}).
    + lia.
    + apply perm_swap.
    + vm_compute. lia.
    + vm_compute. reflexivity.
    + vm_compute. reflexivity.
    + vm_compute. reflexivity.
Defined.

(** ** The index list at each traversal position *)

Section TraversalPositions.

Variable float_of_string : string -> option Q.
Variables (fuel N : nat) (event_id : Z) (rows_ev : list gmf_row).

Lemma bind_ret_r {A} (m : res A) : bind m ret = m.
Proof. by destruct m. Qed.

Lemma running_perm_S (k : nat) :
  Traversal.running_perm fuel N (S k)
  = bind (Traversal.running_perm fuel N k) (PyRandom.shuffle fuel (Z.of_nat (S k))).
Proof.
  unfold Traversal.running_perm. rewrite seq_S, for_each_app.
  destruct (for_each (seq 1 k) _ (seq 0 N)) as [e | l]; [reflexivity |].
  simpl. apply bind_ret_r.
Qed.

Lemma run_from_app (k : nat) (l1 l2 : list (taxonomy_cons * (string * asset)))
    (out : Consequences.results_t * gmap string value) :
  Traversal.run_from float_of_string (Traversal.running_perm fuel N) event_id rows_ev
    k (l1 ++ l2) out
  = bind (Traversal.run_from float_of_string (Traversal.running_perm fuel N) event_id
            rows_ev k l1 out)
      (Traversal.run_from float_of_string (Traversal.running_perm fuel N) event_id
         rows_ev (k + length l1) l2).
Proof.
  unfold Traversal.run_from. rewrite imap_app, for_each_app.
  destruct (for_each (imap _ l1) _ out) as [e | out1]; [reflexivity |]. simpl.
  f_equal. apply imap_ext. intros i x _. f_equal. lia.
Qed.

Lemma run_from_cons (k : nat) (x : taxonomy_cons * (string * asset))
    (l : list (taxonomy_cons * (string * asset)))
    (out : Consequences.results_t * gmap string value) :
  Traversal.run_from float_of_string (Traversal.running_perm fuel N) event_id rows_ev
    k (x :: l) out
  = bind (Traversal.position_body float_of_string (Traversal.running_perm fuel N)
            event_id rows_ev (k, x) out)
      (Traversal.run_from float_of_string (Traversal.running_perm fuel N) event_id
         rows_ev (S k) l).
Proof.
  unfold Traversal.run_from. rewrite imap_cons. simpl. rewrite Nat.add_0_r.
  destruct (Traversal.position_body _ _ _ _ (k, x) out) as [e | out1]; [reflexivity |].
  simpl. f_equal. apply imap_ext. intros i y _. simpl. f_equal. lia.
Qed.

(** The loop over the assets of one taxonomy. *)
Lemma asset_loop_positions (tc : taxonomy_cons) (assets : list (string * asset))
    (k : nat) (st st' : Consequences.loop_state) :
  Traversal.threaded fuel N k st ->
  for_each assets (Consequences.asset_body float_of_string fuel event_id rows_ev tc) st
  = inr st' ->
  Traversal.threaded fuel N (k + length assets) st'
  /\ Traversal.run_from float_of_string (Traversal.running_perm fuel N) event_id rows_ev
       k (pair tc <$> assets)
       (Consequences.results st, Consequences.asset_ds_description st)
     = inr (Consequences.results st', Consequences.asset_ds_description st').
Proof.
  revert k st. induction assets as [| a assets IH]; intros k st [Hseed Hnums] H.
  - simpl in H. injection H as <-. rewrite Nat.add_0_r. by split.
  - simpl in H. bind_inv H as st1 H1.
    unfold Consequences.asset_body in H1.
    bind_inv H1 as nums' Hsh. bind_inv H1 as out Hout. injection H1 as <-.
    assert (Hperm : Traversal.running_perm fuel N (S k) = inr nums').
    { rewrite running_perm_S, Hnums. simpl. rewrite <- Hsh. f_equal.
      rewrite Hseed. lia. }
    assert (Hthr1 : Traversal.threaded fuel N (S k)
              {| Consequences.rnd_seed := (Consequences.rnd_seed st + 1)%Z;
                 Consequences.nums := nums';
                 Consequences.results := fst out;
                 Consequences.asset_ds_description := snd out |}).
    { split; simpl; [rewrite Hseed; lia | exact Hperm]. }
    destruct (IH (S k) _ Hthr1 H) as [Hthr Hrun].
    split; [by replace (k + length (a :: assets)) with (S k + length assets)
              by (simpl; lia) |].
    rewrite fmap_cons, run_from_cons.
    unfold Traversal.position_body at 1. simpl. rewrite Hperm. simpl.
    rewrite Hout. simpl. destruct out as [r d]. exact Hrun.
Qed.

(** The loop over the taxonomies. *)
Lemma taxonomy_loop_positions (imf : imfield)
    (exp_assets : gmap string (list (string * asset)))
    (cons_for_hazard : list (string * taxonomy_cons))
    (k : nat) (st st' : Consequences.loop_state) :
  Traversal.threaded fuel N k st ->
  for_each cons_for_hazard
    (Consequences.taxonomy_body float_of_string fuel event_id imf rows_ev exp_assets) st
  = inr st' ->
  Traversal.run_from float_of_string (Traversal.running_perm fuel N) event_id rows_ev
    k (Traversal.traversal cons_for_hazard exp_assets)
    (Consequences.results st, Consequences.asset_ds_description st)
  = inr (Consequences.results st', Consequences.asset_ds_description st').
Proof.
  revert k st. induction cons_for_hazard as [| [tax_key tc] cons IH]; intros k st Hthr H.
  - simpl in H. injection H as <-. reflexivity.
  - simpl in H. bind_inv H as st1 H1.
    unfold Consequences.taxonomy_body in H1.
    bind_inv H1 as u Hassert. bind_inv H1 as assets Hassets.
    apply of_option_inr in Hassets.
    destruct (asset_loop_positions tc assets k st st1 Hthr H1) as [Hthr1 Hrun1].
    simpl. rewrite Hassets. simpl. rewrite run_from_app, Hrun1. simpl.
    rewrite length_fmap. by apply IH.
Qed.

End TraversalPositions.

(** C1, as the code has it. In a run of the engine that returns, the
    asset at 0-based traversal position [k] (by taxonomy, then by asset
    within the taxonomy) is processed with the running index list: the
    shuffles with seeds 1, ..., k+1 applied one after the other to
    [0, ..., N-1], that is, the seed-(k+1) shuffle of the list of position
    k-1. The list depends on [k] and [N] only. *)
Theorem traversal_uses_running_perm (float_of_string : string -> option Q)
    (fuel : nat) (event_id : Z) (imf : imfield)
    (cons_for_hazard : list (string * taxonomy_cons)) (cons_mtdata : gmap string Z)
    (exp_assets : gmap string (list (string * asset)))
    (r : Consequences.results_t * gmap string value) :
  Consequences.get_consequences_by_event_all_assets float_of_string fuel event_id imf
    cons_for_hazard cons_mtdata exp_assets = inr r ->
  exists N : Z,
    cons_mtdata !! "Nrealizations" = Some N
    /\ Traversal.run_with float_of_string
         (Traversal.running_perm fuel (Z.to_nat N)) event_id
         (filter (fun row => eid row = event_id) (gmf_data imf))
         (Traversal.traversal cons_for_hazard exp_assets) = inr r.
Proof.
  intros H. unfold Consequences.get_consequences_by_event_all_assets in H.
  bind_inv H as N HN. apply of_option_inr in HN.
  bind_inv H as st Hloop. injection H as <-.
  exists N. split; [exact HN |].
  unfold Traversal.run_with.
  eapply (taxonomy_loop_positions float_of_string fuel (Z.to_nat N) event_id _ imf
            exp_assets cons_for_hazard 0) in Hloop; [exact Hloop |].
  split; reflexivity.
Qed.

Lemma traversal_uses_running_perm_witness :
  exists N : Z,
    Fixtures.five_realizations !! "Nrealizations" = Some N
    /\ Traversal.run_with Fixtures.no_float
         (Traversal.running_perm 64 (Z.to_nat N)) 7
         (filter (fun row => eid row = 7%Z) (gmf_data Fixtures.one_event_field))
         (Traversal.traversal Fixtures.bridge_cons Fixtures.two_bridges)
       = inr Fixtures.two_bridges_out.
Proof.
  apply (traversal_uses_running_perm Fixtures.no_float 64 7 Fixtures.one_event_field
           Fixtures.bridge_cons Fixtures.five_realizations Fixtures.two_bridges).
  vm_compute. reflexivity.
Defined.

(** C1, as stated, fails at the second asset: the engine reads its arrays
    through the seed-2 shuffle of the first asset's list,
    [4; 3; 0; 1; 2], not through the seed-2 shuffle of [0; 1; 2; 3; 4],
    which is [2; 1; 3; 4; 0]; the run with fresh shuffles gives another
    result. *)
Lemma second_asset_not_fresh_shuffle :
  Consequences.get_consequences_by_event_all_assets Fixtures.no_float 64 7
    Fixtures.one_event_field Fixtures.bridge_cons Fixtures.five_realizations
    Fixtures.two_bridges = inr Fixtures.two_bridges_out
  /\ Fixtures.cost_of Fixtures.two_bridges_out "a2"
     = Some (VList [VNum 50; VNum 40; VNum 10; VNum 20; VNum 30])
  /\ Traversal.running_perm 64 5 2 = inr [4; 3; 0; 1; 2]
  /\ Traversal.fresh_perm 64 5 2 = inr [2; 1; 3; 4; 0]
  /\ exists r',
       Traversal.run_with Fixtures.no_float (Traversal.fresh_perm 64 5) 7
         (filter (fun row => eid row = 7%Z) (gmf_data Fixtures.one_event_field))
         (Traversal.traversal Fixtures.bridge_cons Fixtures.two_bridges) = inr r'
       /\ Fixtures.cost_of r' "a2"
          = Some (VList [VNum 30; VNum 20; VNum 40; VNum 50; VNum 10])
       /\ r' <> Fixtures.two_bridges_out.
Proof.
  split; [vm_compute; reflexivity |].
  split; [vm_compute; reflexivity |].
  split; [vm_compute; reflexivity |].
  split; [vm_compute; reflexivity |].
  eexists. split; [vm_compute; reflexivity |].
  split; [vm_compute; reflexivity |].
  intros H. apply (f_equal (fun r => Fixtures.cost_of r "a2")) in H.
  vm_compute in H. discriminate H.
Qed.

(** ** The event filter *)

(** C8 against the code: in presence mode (method 1) with a threshold
    that counts as set, [filter_events_by_imvalue] raises [Warning] before
    any candidate is selected; no candidate set is returned. *)
Theorem presence_mode_threshold_raises
    (consequences : list (string * taxonomy_cons)) (imf : imfield)
    (exp_assets : gmap string (list (string * asset))) (IM_threshold : option Q) :
  ImFields.truthy IM_threshold = true ->
  ImFields.filter_events_by_imvalue consequences imf exp_assets 1 IM_threshold
  = inl (WarningRaised
      "IM_threshold is not taken into account for filtering the events since events_filtering_method = 1").
Proof.
  intros Ht. unfold ImFields.filter_events_by_imvalue. rewrite Ht. reflexivity.
Qed.

Lemma presence_mode_threshold_raises_witness :
  ImFields.filter_events_by_imvalue Fixtures.bridge_cons Fixtures.one_event_field
    Fixtures.two_bridges 1 (Some 0.5%Q)
  = inl (WarningRaised
      "IM_threshold is not taken into account for filtering the events since events_filtering_method = 1").
Proof.
  apply (presence_mode_threshold_raises Fixtures.bridge_cons Fixtures.one_event_field
           Fixtures.two_bridges (Some 0.5%Q)).
  reflexivity.
Defined.

(** Without the threshold the same call returns the presence-mode
    candidates. *)
Example presence_mode_without_threshold :
  ImFields.filter_events_by_imvalue Fixtures.bridge_cons Fixtures.one_event_field
    Fixtures.two_bridges 1 None = inr {[ 7%Z ]}.
Proof. vm_compute. reflexivity. Qed.




(** C2 against the code: events 10 and 11 share rupture 3 of magnitude
    5.5, both survive stage 1 and the rupture lies within the bounds, yet
    the pipeline returns event 10 twice and drops event 11. *)
Theorem shared_rupture_events_dropped :
  ImFields.filter_events_by_imvalue Fixtures.bridge_cons Fixtures.shared_rupture_field
    Fixtures.two_bridges 1 None = inr {[ 10%Z; 11%Z ]}
  /\ ImFields.in_range (Some 4%Q) None 5.5%Q = true
  /\ ImFields.filter_events Fixtures.grid_km Fixtures.shared_rupture_field
       Fixtures.bridge_cons Fixtures.two_bridges (Some 4%Q) None None None None ∅
     = inr [10%Z; 10%Z]
  /\ 11%Z ∉ [10%Z; 10%Z].
Proof.
  split; [vm_compute; reflexivity |].
  split; [vm_compute; reflexivity |].
  split; [vm_compute; reflexivity |].
  intros Hin. apply list_elem_of_In in Hin. simpl in Hin. intuition discriminate.
Qed.

(** ** The filter stages only narrow *)

Section Narrowing.

Variable geodesic_km : Q * Q -> Q * Q -> res Q.

Lemma list_index_lookup (x : Z) (l : list Z) (i0 i : nat) :
  ImFields.list_index x l i0 = inr i ->
  exists j, i = i0 + j /\ l !! j = Some x.
Proof.
  revert i0. induction l as [| y l IH]; intros i0 H; simpl in H; [discriminate |].
  destruct (Z.eqb_spec y x) as [-> | Hne].
  - injection H as <-. exists 0. split; [lia | reflexivity].
  - destruct (IH _ H) as (j & -> & Hj). exists (S j). split; [lia | exact Hj].
Qed.

Lemma take_rows_lookup {A} (arr : list A) (idx : list nat) (rows : list A) :
  ImFields.take_rows arr idx = inr rows ->
  Forall2 (fun i r => arr !! i = Some r) idx rows.
Proof.
  intros H. apply map_res_inr in H. eapply Forall2_impl; [exact H |].
  intros i r Hi. by apply of_option_inr in Hi.
Qed.

Lemma Forall2_elem_r {A B} (R : A -> B -> Prop) (l : list A) (k : list B) (y : B) :
  Forall2 R l k -> y ∈ k -> exists x, x ∈ l /\ R x y.
Proof.
  intros H Hy. apply list_elem_of_lookup in Hy as [i Hi].
  destruct (Forall2_lookup_r _ _ _ _ _ H Hi) as (x & Hx & HR).
  exists x. split; [| exact HR]. apply list_elem_of_lookup. by exists i.
Qed.

Lemma Forall2_elem_zip {A B} (R : A -> B -> Prop) (l : list A) (k : list B)
    (x : A) (y : B) :
  Forall2 R l k -> (x, y) ∈ zip l k -> x ∈ l /\ R x y.
Proof.
  induction 1 as [| a b l k Hab H IH]; simpl; intros Hin.
  - by apply elem_of_nil in Hin.
  - apply elem_of_cons in Hin as [[= -> ->] | Hin].
    + split; [apply elem_of_cons; by left | exact Hab].
    + destruct (IH Hin) as [? ?]. split; [apply elem_of_cons; by right | done].
Qed.

(** The rows kept by [fiter_imfield_data] are rows of the catalog, and
    every kept event is an event of interest. *)
Lemma fiter_imfield_data_rows (imf : imfield) (s : gset Z)
    (fe : list event_row) (fr : list rupture_row) :
  ImFields.fiter_imfield_data imf s = inr (fe, fr) ->
  (forall ev, ev ∈ fe -> ev ∈ events imf /\ ev_id ev ∈ s)
  /\ (forall r, r ∈ fr -> r ∈ ruptures imf).
Proof.
  intros H. unfold ImFields.fiter_imfield_data in H.
  bind_inv H as idx Hidx. bind_inv H as fe' Hfe. bind_inv H as ridx Hridx.
  bind_inv H as fr' Hfr. injection H as <- <-.
  apply take_rows_lookup in Hfe. apply take_rows_lookup in Hfr.
  apply map_res_inr in Hidx. split.
  - intros ev Hev.
    destruct (Forall2_elem_r _ _ _ _ Hfe Hev) as (i & Hi & Hrow).
    split; [apply list_elem_of_lookup; by exists i |].
    unfold ImFields.sorted in Hi. rewrite merge_sort_Permutation in Hi.
    destruct (Forall2_elem_r _ _ _ _ Hidx Hi) as (e & He & Hfind).
    apply elem_of_elements in He.
    destruct (list_index_lookup _ _ _ _ Hfind) as (j & -> & Hj). simpl in Hrow.
    rewrite list_lookup_fmap, Hrow in Hj. simpl in Hj. by injection Hj as ->.
  - intros r Hr.
    destruct (Forall2_elem_r _ _ _ _ Hfr Hr) as (i & _ & Hrow).
    apply list_elem_of_lookup. by exists i.
Qed.

Lemma filter_by_distance_rows (min_dist max_dist : option Q) (ref_coords : gmap string Q)
    (rups : list rupture_row) (ids : list Z) (x : Z) :
  ImFields.filter_by_distance geodesic_km min_dist max_dist ref_coords rups = inr ids ->
  x ∈ ids ->
  exists r, r ∈ rups /\ rup r = x
    /\ (ImFields.truthy min_dist || ImFields.truthy max_dist = true ->
        exists lon lat d,
          ref_coords !! "lon" = Some lon /\ ref_coords !! "lat" = Some lat
          /\ geodesic_km (hypo r) (lon, lat) = inr d
          /\ ImFields.in_range min_dist max_dist d = true).
Proof.
  intros H Hx. unfold ImFields.filter_by_distance in H.
  destruct (ImFields.truthy min_dist || ImFields.truthy max_dist) eqn:Hon.
  - bind_inv H as u Hu. bind_inv H as lon Hlon. bind_inv H as lat Hlat.
    bind_inv H as dist Hdist. injection H as <-.
    apply of_option_inr in Hlon, Hlat. apply map_res_inr in Hdist.
    apply list_elem_of_fmap in Hx as ([r d] & -> & Hin).
    apply list_elem_of_filter in Hin as [Hrange Hin]. simpl in Hrange.
    destruct (Forall2_elem_zip _ _ _ _ _ Hdist Hin) as [Hr Hd].
    exists r. split; [exact Hr |]. split; [reflexivity |].
    intros _. by exists lon, lat, d.
  - injection H as <-. apply list_elem_of_fmap in Hx as (r & -> & Hr).
    exists r. split; [exact Hr |]. split; [reflexivity | discriminate].
Qed.

(** X12. Every event id the pipeline returns is a stage-1 candidate whose
    rupture passed the magnitude and distance stages. *)
Lemma filter_events_sound (imf : imfield) (cons_for_hazard : list (string * taxonomy_cons))
    (exp_assets : gmap string (list (string * asset)))
    (min_mag max_mag IM_threshold min_dist max_dist : option Q)
    (ref_coords : gmap string Q) (ids : list Z) :
  ImFields.filter_events geodesic_km imf cons_for_hazard exp_assets
    min_mag max_mag IM_threshold min_dist max_dist ref_coords = inr ids ->
  exists s,
    ImFields.filter_events_by_imvalue cons_for_hazard imf exp_assets
      (if negb (ImFields.truthy IM_threshold) then 1%Z else 2%Z) IM_threshold = inr s
    /\ s <> ∅
    /\ forall e, e ∈ ids ->
         e ∈ s
         /\ Shape.qualifies geodesic_km imf min_mag max_mag min_dist max_dist ref_coords e.
Proof.
  intros H. unfold ImFields.filter_events in H.
  bind_inv H as s Hs. exists s. split; [exact Hs |].
  split.
  { unfold ImFields.filter_events_by_imvalue in Hs.
    destruct (_ && _); [discriminate |].
    bind_inv Hs as s' Hs'. bind_inv Hs as u Hu. injection Hs as <-.
    apply assert_inr, negb_true_iff in Hu. by apply bool_decide_eq_false in Hu. }
  bind_inv H as filtered Hfil. destruct filtered as [fe fr].
  bind_inv H as rs Hrs. bind_inv H as idx Hidx. bind_inv H as rows Hrows.
  injection H as <-.
  destruct (fiter_imfield_data_rows _ _ _ _ Hfil) as [Hfe Hfr].
  apply take_rows_lookup in Hrows. apply map_res_inr in Hidx.
  intros e He. apply list_elem_of_fmap in He as (row & -> & Hrow).
  destruct (Forall2_elem_r _ _ _ _ Hrows Hrow) as (i & Hi & Hlook).
  destruct (Forall2_elem_r _ _ _ _ Hidx Hi) as (x & Hx & Hfind).
  destruct (list_index_lookup _ _ _ _ Hfind) as (j & -> & Hj). simpl in Hlook.
  rewrite list_lookup_fmap, Hlook in Hj. simpl in Hj. injection Hj as Hrup.
  destruct (filter_by_distance_rows _ _ _ _ _ _ Hrs Hx) as (r & Hr & Hid & Hdist).
  apply list_elem_of_filter in Hr as [Hmag Hr].
  assert (Hrow' : row ∈ fe) by (apply list_elem_of_lookup; by exists j).
  destruct (Hfe row Hrow') as [Hev Hin].
  split; [exact Hin |].
  exists row, r. split; [exact Hev |]. split; [reflexivity |].
  split; [by apply Hfr |]. split; [congruence |]. by split.
Qed.

Lemma list_index_first (x : Z) (l : list Z) (i0 j : nat) :
  ImFields.list_index x l i0 = inr (i0 + j) ->
  forall j', j' < j -> l !! j' <> Some x.
Proof.
  revert i0 j. induction l as [| y l IH]; intros i0 j H; simpl in H; [discriminate |].
  destruct (Z.eqb_spec y x) as [-> | Hne].
  - injection H as H. intros j' Hj'. lia.
  - intros [| j'] Hj'; simpl; [congruence |].
    destruct j as [| j]; [lia |].
    apply (IH (S i0) j); [| lia].
    rewrite H. f_equal. lia.
Qed.

(** X13. The last step maps a surviving rupture to the first kept event of
    that rupture: a returned id is never that of an event listed after
    another kept event of the same rupture. *)
Lemma returned_event_is_first_of_rupture (imf : imfield)
    (cons_for_hazard : list (string * taxonomy_cons))
    (exp_assets : gmap string (list (string * asset)))
    (min_mag max_mag IM_threshold min_dist max_dist : option Q)
    (ref_coords : gmap string Q) (ids : list Z) :
  ImFields.filter_events geodesic_km imf cons_for_hazard exp_assets
    min_mag max_mag IM_threshold min_dist max_dist ref_coords = inr ids ->
  exists s fe fr,
    ImFields.filter_events_by_imvalue cons_for_hazard imf exp_assets
      (if negb (ImFields.truthy IM_threshold) then 1%Z else 2%Z) IM_threshold = inr s
    /\ ImFields.fiter_imfield_data imf s = inr (fe, fr)
    /\ forall e, e ∈ ids ->
         exists j row,
           fe !! j = Some row /\ ev_id row = e
           /\ forall j' row', j' < j -> fe !! j' = Some row' -> rup_id row' <> rup_id row.
Proof.
  intros H. unfold ImFields.filter_events in H.
  bind_inv H as s Hs. bind_inv H as filtered Hfil. destruct filtered as [fe fr].
  exists s, fe, fr. split; [exact Hs |]. split; [exact Hfil |].
  bind_inv H as rs Hrs. bind_inv H as idx Hidx. bind_inv H as rows Hrows.
  injection H as <-.
  apply take_rows_lookup in Hrows. apply map_res_inr in Hidx.
  intros e He. apply list_elem_of_fmap in He as (row & -> & Hrow).
  destruct (Forall2_elem_r _ _ _ _ Hrows Hrow) as (i & Hi & Hlook).
  destruct (Forall2_elem_r _ _ _ _ Hidx Hi) as (x & Hx & Hfind).
  destruct (list_index_lookup _ _ _ _ Hfind) as (j & -> & Hj). simpl in Hlook.
  exists j, row. split; [exact Hlook |]. split; [reflexivity |].
  intros j' row' Hlt Hrow' Heq.
  apply (list_index_first _ _ 0 j Hfind j' Hlt).
  rewrite list_lookup_fmap, Hrow'. simpl.
  rewrite list_lookup_fmap, Hlook in Hj. simpl in Hj. congruence.
Qed.

End Narrowing.

(** ** First minimum *)

Section FirstMinimum.

Local Open Scope Q_scope.

Lemma Qlt_bool_iff (x y : Q) : Qlt_bool x y = true <-> x < y.
Proof.
  unfold Qlt_bool. rewrite negb_true_iff.
  destruct (Qle_bool y x) eqn:E.
  - apply Qle_bool_iff in E. split; [discriminate | lra].
  - split; [intros _ | reflexivity].
    apply Qnot_le_lt. intros H. apply Qle_bool_iff in H. congruence.
Qed.

Lemma argmin_from_spec (keys : list Q) (best : nat) (bk : Q) (i : nat) :
  (argmin_from best bk i keys = best
   /\ forall j kj, keys !! j = Some kj -> bk <= kj)
  \/ exists j kj,
       argmin_from best bk i keys = (i + j)%nat
       /\ keys !! j = Some kj
       /\ kj < bk
       /\ (forall j' k', keys !! j' = Some k' -> kj <= k')
       /\ (forall j' k', (j' < j)%nat -> keys !! j' = Some k' -> kj < k').
Proof.
  revert best bk i. induction keys as [| k ks IH]; intros best bk i; simpl.
  - left. split; [reflexivity |]. intros j kj H. by rewrite lookup_nil in H.
  - destruct (Qlt_bool k bk) eqn:E.
    + apply Qlt_bool_iff in E. right.
      destruct (IH i k (S i)) as [[Hr Hmin] | (j & kj & Hr & Hj & Hlt & Hmin & Hfirst)].
      * exists 0%nat, k. rewrite Hr, Nat.add_0_r.
        split; [reflexivity |]. split; [reflexivity |]. split; [exact E |].
        split; [| intros; lia].
        intros [| j'] k' Hk'; simpl in Hk'; [injection Hk' as <-; lra | eauto].
      * exists (S j), kj. rewrite Hr.
        split; [lia |]. split; [exact Hj |]. split; [lra |].
        split.
        -- intros [| j'] k' Hk'; simpl in Hk'; [injection Hk' as <-; lra | eauto].
        -- intros [| j'] k' Hlt' Hk'; simpl in Hk';
             [injection Hk' as <-; lra | apply (Hfirst j'); [lia | exact Hk']].
    + assert (Hle : bk <= k).
      { destruct (Qlt_le_dec k bk) as [Hlt | Hle]; [| exact Hle].
        apply Qlt_bool_iff in Hlt. congruence. }
      destruct (IH best bk (S i)) as [[Hr Hmin] | (j & kj & Hr & Hj & Hlt & Hmin & Hfirst)].
      * left. split; [exact Hr |].
        intros [| j'] k' Hk'; simpl in Hk'; [injection Hk' as <-; lra | eauto].
      * right. exists (S j), kj. rewrite Hr.
        split; [lia |]. split; [exact Hj |]. split; [exact Hlt |].
        split.
        -- intros [| j'] k' Hk'; simpl in Hk'; [injection Hk' as <-; lra | eauto].
        -- intros [| j'] k' Hlt' Hk'; simpl in Hk';
             [injection Hk' as <-; lra | apply (Hfirst j'); [lia | exact Hk']].
Qed.

(** [argmin] returns the first index holding the least key. *)
Lemma argmin_first_min (keys : list Q) (i : nat) :
  argmin keys = inr i ->
  exists k, keys !! i = Some k
            /\ (forall j kj, keys !! j = Some kj -> k <= kj)
            /\ (forall j kj, (j < i)%nat -> keys !! j = Some kj -> k < kj).
Proof.
  destruct keys as [| k0 ks]; [discriminate |]. simpl. intros [= <-].
  destruct (argmin_from_spec ks 0 k0 1)
    as [[Hr Hmin] | (j & kj & Hr & Hj & Hlt & Hmin & Hfirst)]; rewrite Hr.
  - exists k0. split; [reflexivity |]. split; [| intros; lia].
    intros [| j] kj Hkj; simpl in Hkj; [injection Hkj as <-; lra | eauto].
  - exists kj. split; [exact Hj |]. split.
    + intros [| j'] k' Hk'; simpl in Hk'; [injection Hk' as <-; lra | eauto].
    + intros [| j'] k' Hlt' Hk'; simpl in Hk';
        [injection Hk' as <-; lra | apply (Hfirst j'); [lia | exact Hk']].
Qed.

End FirstMinimum.

(** ** Matching an asset to the nearest hazard site *)

(** C7 against the code: when the least distance from the asset to a
    hazard site equals the maximum allowable distance, the assertion of
    the geodesic branch fails and no site is assigned. *)
Theorem nearest_site_at_limit_rejected (geodesic_km : Q * Q -> Q * Q -> res Q)
    (imfield_sites site_mtdata : list site_row) (m : Q) (s : Exposure.sid_value)
    (z : Z) (c : site_row) (geo_dist : list Q) (i : nat) (d : Q) :
  Exposure.sid_scalar s = inr z ->
  filter (fun r => sids r = z) site_mtdata = [c] ->
  map_res (fun r => geodesic_km (site_lat r, site_lon r) (site_lat c, site_lon c))
    imfield_sites = inr geo_dist ->
  argmin geo_dist = inr i ->
  geo_dist !! i = Some d ->
  (d == m)%Q ->
  Exposure.nearest_hazard_sid geodesic_km imfield_sites site_mtdata (Some m) s
  = inl (AssertionError
      "the closest hazard point to asset is more than the allowable distance away").
Proof.
  intros Hs Hc Hdist Hmin Hd Heq.
  unfold Exposure.nearest_hazard_sid. rewrite Hs. simpl. rewrite Hc. simpl.
  rewrite Hdist. simpl. rewrite Hmin. simpl. rewrite Hd. simpl.
  assert (Hlt : Qlt_bool d m = false).
  { destruct (Qlt_bool d m) eqn:E; [| reflexivity].
    apply Qlt_bool_iff in E. rewrite Heq in E. by apply Qlt_irrefl in E. }
  rewrite Hlt. reflexivity.
Qed.

Lemma nearest_site_at_limit_rejected_witness :
  Exposure.nearest_hazard_sid Fixtures.grid_km (sitecol Fixtures.one_event_field)
    Fixtures.far_site_mtdata (Some 7%Q) (Exposure.SidList [1%Z])
  = inl (AssertionError
      "the closest hazard point to asset is more than the allowable distance away").
Proof.
  apply (nearest_site_at_limit_rejected Fixtures.grid_km _ _ 7%Q _ 1%Z
           {| sids := 1; site_lon := 3%Q; site_lat := 4%Q |}
           [(Qabs (0 - 4) + Qabs (0 - 3))%Q] 0 (Qabs (0 - 4) + Qabs (0 - 3))%Q).
  - reflexivity.
  - vm_compute. reflexivity.
  - vm_compute. reflexivity.
  - reflexivity.
  - reflexivity.
  - vm_compute. reflexivity.
Defined.

(** Strictly below the limit the nearest site is assigned: the first one
    at the least distance. *)
Lemma nearest_site_below_limit (geodesic_km : Q * Q -> Q * Q -> res Q)
    (imfield_sites site_mtdata : list site_row) (m : Q) (s : Exposure.sid_value)
    (z : Z) (c : site_row) (geo_dist : list Q) (i : nat) (d : Q) (r : site_row) :
  Exposure.sid_scalar s = inr z ->
  filter (fun r => sids r = z) site_mtdata = [c] ->
  map_res (fun r => geodesic_km (site_lat r, site_lon r) (site_lat c, site_lon c))
    imfield_sites = inr geo_dist ->
  argmin geo_dist = inr i ->
  geo_dist !! i = Some d ->
  imfield_sites !! i = Some r ->
  (d < m)%Q ->
  Exposure.nearest_hazard_sid geodesic_km imfield_sites site_mtdata (Some m) s
  = inr (sids r).
Proof.
  intros Hs Hc Hdist Hmin Hd Hr Hlt.
  unfold Exposure.nearest_hazard_sid. rewrite Hs. simpl. rewrite Hc. simpl.
  rewrite Hdist. simpl. rewrite Hmin. simpl. rewrite Hd. simpl.
  apply Qlt_bool_iff in Hlt. rewrite Hlt. simpl. rewrite Hr. reflexivity.
Qed.

(** ** The hazard site id is written into the caller's location dicts *)

Section InPlace.

Variable geodesic_km : Q * Q -> Q * Q -> res Q.
Variables (imfield_sites site_mtdata : list site_row).
Variables (hazard2exppoints_consistency : bool) (max_allowable_dist : option Q).

Lemma annotated_only_refl (h : gmap Exposure.ref location) : Shape.annotated_only h h.
Proof. intros r. destruct (h !! r); by constructor. Qed.

Lemma annotated_only_trans (h1 h2 h3 : gmap Exposure.ref location) :
  Shape.annotated_only h1 h2 -> Shape.annotated_only h2 h3 ->
  Shape.annotated_only h1 h3.
Proof.
  intros H12 H23 r. specialize (H12 r). specialize (H23 r).
  destruct H12 as [l1 l2 [? ?] |]; inversion H23 as [? l3 [? ?] |]; subst;
    constructor. split; congruence.
Qed.

Lemma assoc_update_elem {V} (k : string) (v : V) (d : list (string * V))
    (k' : string) (v' : V) :
  (k', v') ∈ Exposure.assoc_update k v d -> (k', v') = (k, v) \/ (k', v') ∈ d.
Proof.
  induction d as [| [k0 v0] d IH]; simpl.
  - intros H. apply list_elem_of_singleton in H. by left.
  - destruct (String.eqb k0 k).
    + intros H. apply elem_of_cons in H as [H | H]; [by left |].
      right. by apply elem_of_cons; right.
    + intros H. apply elem_of_cons in H as [H | H].
      * right. apply elem_of_cons. by left.
      * destruct (IH H) as [? | ?]; [by left |].
        right. apply elem_of_cons. by right.
Qed.

(** One asset: its location dict is overwritten in the store, with the
    resolved site id as [hazard_sid], and the asset object itself is put
    into the result. *)
Lemma asset_step_inv (tax_key name : string) (obj : Exposure.asset_obj)
    (h h' : gmap Exposure.ref location)
    (bt bt' : gmap string (list (string * Exposure.asset_obj))) :
  Exposure.asset_step geodesic_km imfield_sites hazard2exppoints_consistency
    site_mtdata max_allowable_dist tax_key (name, obj) (h, bt) = inr (h', bt') ->
  exists loc hsid entry,
    h !! Exposure.o_location obj = Some loc
    /\ h' = <[Exposure.o_location obj :=
               {| loc_sid := loc_sid loc; hzrd_ctrl_pnt := hzrd_ctrl_pnt loc;
                  hazard_sid := Some hsid |}]> h
    /\ bt !! tax_key = Some entry
    /\ bt' = <[tax_key := Exposure.assoc_update name obj entry]> bt.
Proof.
  intros H. unfold Exposure.asset_step in H.
  bind_inv H as loc Hloc. apply of_option_inr in Hloc.
  bind_inv H as s Hs. bind_inv H as hsid Hh. bind_inv H as entry He.
  apply of_option_inr in He. injection H as <- <-.
  by exists loc, hsid, entry.
Qed.

Lemma asset_loop_inv (h0 : gmap Exposure.ref location)
    (exp : list (string * Exposure.asset_obj)) (keys : list string)
    (tax_key : string) (l : list (string * Exposure.asset_obj))
    (st st' : Exposure.state) :
  tax_key ∈ keys ->
  Forall (fun a => a ∈ exp /\ Exposure.o_taxonomy (snd a) = tax_key) l ->
  Shape.in_place h0 exp keys st ->
  for_each l (Exposure.asset_step geodesic_km imfield_sites hazard2exppoints_consistency
                site_mtdata max_allowable_dist tax_key) st = inr st' ->
  Shape.in_place h0 exp keys st'.
Proof.
  intros Hkey Hl. revert st. induction Hl as [| [name obj] l [Hin Htax] Hl IH];
    intros st Hinv H; simpl in H.
  - by injection H as <-.
  - bind_inv H as st1 H1. apply (IH st1); [| exact H]. clear IH H.
    destruct st as [h bt], st1 as [h1 bt1].
    destruct (asset_step_inv _ _ _ _ _ _ _ H1) as (loc & hsid & entry & Hloc & -> & He & ->).
    destruct Hinv as (Hann & Hres & Hframe). simpl in *.
    split; [| split]; simpl.
    + eapply annotated_only_trans; [exact Hann |].
      intros r. destruct (decide (Exposure.o_location obj = r)) as [<- | Hne].
      * rewrite Hloc, lookup_insert_eq. by constructor.
      * rewrite lookup_insert_ne by done. destruct (h !! r); by constructor.
    + intros tax l' name' obj' Hl' Hin'.
      assert (Hold : (name', obj') ∈ exp /\ Exposure.o_taxonomy obj' = tax).
      { destruct (decide (tax_key = tax)) as [<- | Hne].
        - rewrite lookup_insert_eq in Hl'. injection Hl' as <-.
          apply assoc_update_elem in Hin' as [[= -> ->] | Hin']; [by split |].
          destruct (Hres _ _ _ _ He Hin') as (? & ? & _). by split.
        - rewrite lookup_insert_ne in Hl' by done.
          destruct (Hres _ _ _ _ Hl' Hin') as (? & ? & _). by split. }
      split; [apply Hold |]. split; [apply Hold |].
      destruct (decide (Exposure.o_location obj = Exposure.o_location obj'))
        as [Heq | Hne].
      * rewrite <- Heq, lookup_insert_eq. eexists. split; [reflexivity |]. by eexists.
      * rewrite lookup_insert_ne by done.
        destruct (decide (tax_key = tax)) as [<- | Hne'].
        -- rewrite lookup_insert_eq in Hl'. injection Hl' as <-.
           apply assoc_update_elem in Hin' as [[= -> ->] | Hin']; [done |].
           by destruct (Hres _ _ _ _ He Hin') as (_ & _ & ?).
        -- rewrite lookup_insert_ne in Hl' by done.
           by destruct (Hres _ _ _ _ Hl' Hin') as (_ & _ & ?).
    + intros r Hr. destruct (decide (Exposure.o_location obj = r)) as [<- | Hne].
      * exists name, obj. split; [exact Hin |]. split; [reflexivity |]. by rewrite Htax.
      * rewrite lookup_insert_ne in Hr by done. by apply Hframe.
Qed.

Lemma taxonomy_loop_inv (h0 : gmap Exposure.ref location)
    (exp : list (string * Exposure.asset_obj)) (keys : list string)
    (cons : list (string * taxonomy_cons)) (st st' : Exposure.state) :
  Forall (fun t => fst t ∈ keys) cons ->
  Shape.in_place h0 exp keys st ->
  for_each cons
    (Exposure.taxonomy_step geodesic_km exp imfield_sites hazard2exppoints_consistency
       site_mtdata max_allowable_dist) st = inr st' ->
  Shape.in_place h0 exp keys st'.
Proof.
  intros Hcons. revert st. induction Hcons as [| [tax_key tc] cons Hkey Hcons IH];
    intros st Hinv H; simpl in H.
  - by injection H as <-.
  - bind_inv H as st1 H1. apply (IH st1); [| exact H]. clear IH H.
    unfold Exposure.taxonomy_step in H1. simpl in H1.
    eapply (asset_loop_inv h0 exp keys tax_key); [exact Hkey | | | exact H1].
    + unfold Exposure.get_assets_by_taxonomy. apply Forall_forall.
      intros a Ha. apply list_elem_of_filter in Ha as [Htax Hin]. by split.
    + destruct Hinv as (Hann & Hres & Hframe). split; [exact Hann |].
      split; [| exact Hframe]. simpl. intros tax l name obj Hl Hin.
      destruct (decide (tax_key = tax)) as [<- | Hne].
      * rewrite lookup_insert_eq in Hl. injection Hl as <-. by apply elem_of_nil in Hin.
      * rewrite lookup_insert_ne in Hl by done. by apply (Hres _ _ _ _ Hl Hin).
Qed.

Lemma asset_step_resolve (tax_key name : string) (obj : Exposure.asset_obj)
    (h h' : gmap Exposure.ref location)
    (bt bt' : gmap string (list (string * Exposure.asset_obj))) :
  Exposure.asset_step geodesic_km imfield_sites hazard2exppoints_consistency
    site_mtdata max_allowable_dist tax_key (name, obj) (h, bt) = inr (h', bt') ->
  exists loc z entry,
    h !! Exposure.o_location obj = Some loc
    /\ Annot.resolve geodesic_km imfield_sites hazard2exppoints_consistency site_mtdata
         max_allowable_dist loc (Exposure.o_asset_type obj) = inr z
    /\ h' = <[Exposure.o_location obj := Annot.with_hazard_sid loc z]> h
    /\ bt !! tax_key = Some entry
    /\ bt' = <[tax_key := Exposure.assoc_update name obj entry]> bt.
Proof.
  intros H. unfold Exposure.asset_step in H.
  bind_inv H as loc Hloc. apply of_option_inr in Hloc.
  bind_inv H as s Hs. bind_inv H as hsid Hh. bind_inv H as entry He.
  apply of_option_inr in He. injection H as <- <-.
  exists loc, hsid, entry. split; [exact Hloc |].
  split; [unfold Annot.resolve; by rewrite Hs |]. by repeat split.
Qed.

(** The value written: one asset leaves its location dict resolved and
    every resolved location dict resolved. *)
Lemma asset_loop_written (h0 : gmap Exposure.ref location)
    (exp : list (string * Exposure.asset_obj)) (keys : list string)
    (tax_key : string) (l : list (string * Exposure.asset_obj))
    (st st' : Exposure.state) :
  tax_key ∈ keys ->
  Forall (fun a => a ∈ exp /\ Exposure.o_taxonomy (snd a) = tax_key) l ->
  Annot.written geodesic_km imfield_sites hazard2exppoints_consistency site_mtdata
    max_allowable_dist h0 exp keys st ->
  for_each l (Exposure.asset_step geodesic_km imfield_sites hazard2exppoints_consistency
                site_mtdata max_allowable_dist tax_key) st = inr st' ->
  Annot.written geodesic_km imfield_sites hazard2exppoints_consistency site_mtdata
    max_allowable_dist h0 exp keys st'.
Proof.
  intros Hkey Hl. revert st. induction Hl as [| [name obj] l [Hin Htax] Hl IH];
    intros st Hinv H; simpl in H.
  - by injection H as <-.
  - bind_inv H as st1 H1. apply (IH st1); [| exact H]. clear IH H.
    destruct st as [h bt], st1 as [h1 bt1].
    destruct (asset_step_resolve _ _ _ _ _ _ _ H1)
      as (loc & z & entry & Hloc & Hres & -> & He & ->).
    destruct Hinv as [Hstore Hbt]. simpl in *.
    assert (Hnew : Annot.resolved_for geodesic_km imfield_sites
                     hazard2exppoints_consistency site_mtdata max_allowable_dist
                     h0 exp keys
                     (<[Exposure.o_location obj := Annot.with_hazard_sid loc z]> h)
                     (Exposure.o_location obj)).
    { destruct (Hstore (Exposure.o_location obj))
        as [Hsame | (loc0 & z0 & n0 & o0 & Hl0 & Hc0 & _)].
      - exists loc, z, name, obj. rewrite lookup_insert_eq.
        split; [congruence |]. split; [reflexivity |]. split; [exact Hin |].
        split; [reflexivity |]. split; [by rewrite Htax | exact Hres].
      - exists loc0, z, name, obj. rewrite lookup_insert_eq.
        rewrite Hloc in Hc0. injection Hc0 as ->.
        split; [exact Hl0 |]. split; [reflexivity |]. split; [exact Hin |].
        split; [reflexivity |]. split; [by rewrite Htax | exact Hres]. }
    assert (Hkeep : forall r,
              Annot.resolved_for geodesic_km imfield_sites
                hazard2exppoints_consistency site_mtdata max_allowable_dist
                h0 exp keys h r ->
              Annot.resolved_for geodesic_km imfield_sites
                hazard2exppoints_consistency site_mtdata max_allowable_dist
                h0 exp keys
                (<[Exposure.o_location obj := Annot.with_hazard_sid loc z]> h) r).
    { intros r Hr. destruct (decide (Exposure.o_location obj = r)) as [<- | Hne];
        [exact Hnew |].
      destruct Hr as (loc0 & z0 & n0 & o0 & Hl0 & Hc0 & Hrest).
      exists loc0, z0, n0, o0. rewrite lookup_insert_ne by done.
      split; [exact Hl0 |]. split; [exact Hc0 | exact Hrest]. }
    split; simpl.
    + intros r. destruct (Hstore r) as [Hsame | Hr]; [| right; by apply Hkeep].
      destruct (decide (Exposure.o_location obj = r)) as [<- | Hne]; [by right |].
      left. by rewrite lookup_insert_ne.
    + intros tax l' name' obj' Hl' Hin'.
      destruct (decide (tax_key = tax)) as [<- | Hne].
      * rewrite lookup_insert_eq in Hl'. injection Hl' as <-.
        apply assoc_update_elem in Hin' as [[= -> ->] | Hin']; [exact Hnew |].
        apply Hkeep. by apply (Hbt _ _ _ _ He Hin').
      * rewrite lookup_insert_ne in Hl' by done.
        apply Hkeep. by apply (Hbt _ _ _ _ Hl' Hin').
Qed.

Lemma taxonomy_loop_written (h0 : gmap Exposure.ref location)
    (exp : list (string * Exposure.asset_obj)) (keys : list string)
    (cons : list (string * taxonomy_cons)) (st st' : Exposure.state) :
  Forall (fun t => fst t ∈ keys) cons ->
  Annot.written geodesic_km imfield_sites hazard2exppoints_consistency site_mtdata
    max_allowable_dist h0 exp keys st ->
  for_each cons
    (Exposure.taxonomy_step geodesic_km exp imfield_sites hazard2exppoints_consistency
       site_mtdata max_allowable_dist) st = inr st' ->
  Annot.written geodesic_km imfield_sites hazard2exppoints_consistency site_mtdata
    max_allowable_dist h0 exp keys st'.
Proof.
  intros Hcons. revert st. induction Hcons as [| [tax_key tc] cons Hkey Hcons IH];
    intros st Hinv H; simpl in H.
  - by injection H as <-.
  - bind_inv H as st1 H1. apply (IH st1); [| exact H]. clear IH H.
    unfold Exposure.taxonomy_step in H1. simpl in H1.
    eapply (asset_loop_written h0 exp keys tax_key); [exact Hkey | | | exact H1].
    + unfold Exposure.get_assets_by_taxonomy. apply Forall_forall.
      intros a Ha. apply list_elem_of_filter in Ha as [Htax Hin]. by split.
    + destruct Hinv as [Hstore Hbt]. split; [exact Hstore |]. simpl.
      intros tax l name obj Hl Hin.
      destruct (decide (tax_key = tax)) as [<- | Hne].
      * rewrite lookup_insert_eq in Hl. injection Hl as <-. by apply elem_of_nil in Hin.
      * rewrite lookup_insert_ne in Hl by done. by apply (Hbt _ _ _ _ Hl Hin).
Qed.

End InPlace.

(** C9, as the code has it. [exposure_by_taxonomy] annotates in place:
    when it returns, the store of the caller's location dicts differs from
    the one passed in at most in [hazard_sid] entries; every asset of the
    result is one of the caller's asset objects, and the location dict it
    shares with the caller is now the dict the caller passed with
    [hazard_sid] set to the site id resolved from that original dict: the
    id resolved for one of the caller's assets of a model taxonomy that
    has this location dict, which is the id resolved for the asset itself
    when all the caller's assets with this location dict have its asset
    type (so when no other asset shares the dict); a location dict that
    changed belongs to a caller's asset whose taxonomy is a key of the
    consequence model. *)
Theorem exposure_annotates_in_place (geodesic_km : Q * Q -> Q * Q -> res Q)
    (h : gmap Exposure.ref location) (exp_assets : list (string * Exposure.asset_obj))
    (cons_for_hazard : list (string * taxonomy_cons)) (imf : imfield)
    (hazard2exppoints_consistency : bool) (site_mtdata : list site_row)
    (max_allowable_dist : option Q)
    (h' : gmap Exposure.ref location)
    (assets_by_taxonomy : gmap string (list (string * Exposure.asset_obj))) :
  Exposure.exposure_by_taxonomy geodesic_km h exp_assets cons_for_hazard imf
    hazard2exppoints_consistency site_mtdata max_allowable_dist
  = inr (h', assets_by_taxonomy) ->
  Shape.annotated_only h h'
  /\ (forall tax l name obj,
        assets_by_taxonomy !! tax = Some l -> (name, obj) ∈ l ->
        (name, obj) ∈ exp_assets /\ Exposure.o_taxonomy obj = tax
        /\ (exists loc, h' !! Exposure.o_location obj = Some loc
                        /\ is_Some (hazard_sid loc))
        /\ exists loc z name' obj',
             h !! Exposure.o_location obj = Some loc
             /\ h' !! Exposure.o_location obj = Some (Annot.with_hazard_sid loc z)
             /\ (name', obj') ∈ exp_assets
             /\ Exposure.o_location obj' = Exposure.o_location obj
             /\ Exposure.o_taxonomy obj' ∈ (fst <$> cons_for_hazard)
             /\ Annot.resolve geodesic_km (sitecol imf) hazard2exppoints_consistency
                  site_mtdata max_allowable_dist loc (Exposure.o_asset_type obj')
                = inr z
             /\ ((forall n o, (n, o) ∈ exp_assets ->
                    Exposure.o_location o = Exposure.o_location obj ->
                    Exposure.o_asset_type o = Exposure.o_asset_type obj) ->
                 Annot.resolve geodesic_km (sitecol imf) hazard2exppoints_consistency
                   site_mtdata max_allowable_dist loc (Exposure.o_asset_type obj)
                 = inr z))
  /\ (forall r, h' !! r <> h !! r ->
        exists name obj, (name, obj) ∈ exp_assets /\ Exposure.o_location obj = r
                         /\ Exposure.o_taxonomy obj ∈ (fst <$> cons_for_hazard)).
Proof.
  intros H. unfold Exposure.exposure_by_taxonomy in H.
  assert (Hkeys : Forall (fun t : string * taxonomy_cons => fst t ∈ fst <$> cons_for_hazard)
                    cons_for_hazard).
  { apply Forall_forall. intros t Ht. apply list_elem_of_fmap. by exists t. }
  destruct (taxonomy_loop_inv geodesic_km (sitecol imf) site_mtdata
              hazard2exppoints_consistency max_allowable_dist h exp_assets
              (fst <$> cons_for_hazard) cons_for_hazard (h, ∅) (h', assets_by_taxonomy)
              Hkeys) as (Hann & Hres & Hframe); [| exact H |].
  { split; [apply annotated_only_refl |]. split; simpl.
    - intros tax l name obj Hl. by rewrite lookup_empty in Hl.
    - intros r Hr. done. }
  destruct (taxonomy_loop_written geodesic_km (sitecol imf) site_mtdata
              hazard2exppoints_consistency max_allowable_dist h exp_assets
              (fst <$> cons_for_hazard) cons_for_hazard (h, ∅) (h', assets_by_taxonomy)
              Hkeys) as [_ Hwr]; [| exact H |].
  { split; simpl; [intros r; by left |].
    intros tax l name obj Hl. by rewrite lookup_empty in Hl. }
  simpl in *. split; [exact Hann |]. split; [| exact Hframe].
  intros tax l name obj Hl Hin.
  destruct (Hres tax l name obj Hl Hin) as (Hexp & Htax & Hsome).
  split; [exact Hexp |]. split; [exact Htax |]. split; [exact Hsome |].
  destruct (Hwr tax l name obj Hl Hin)
    as (loc & z & name' & obj' & Hloc & Hloc' & Hin' & Hsame & Hkey & Hz).
  exists loc, z, name', obj'. repeat (split; [assumption |]).
  intros Htypes. by rewrite <- (Htypes name' obj' Hin' Hsame).
Qed.

Lemma exposure_annotates_in_place_witness :
  Shape.annotated_only Fixtures.caller_store
    {[ 0 := {| loc_sid := SidMany [1%Z]; hzrd_ctrl_pnt := None; hazard_sid := Some 1%Z |} ]}
  /\ (forall tax l name obj,
        ({[ "bridge" := Fixtures.caller_assets ]}
           : gmap string (list (string * Exposure.asset_obj))) !! tax = Some l ->
        (name, obj) ∈ l ->
        (name, obj) ∈ Fixtures.caller_assets /\ Exposure.o_taxonomy obj = tax
        /\ (exists loc,
              ({[ 0 := {| loc_sid := SidMany [1%Z]; hzrd_ctrl_pnt := None;
                          hazard_sid := Some 1%Z |} ]} : gmap Exposure.ref location)
                !! Exposure.o_location obj = Some loc
              /\ is_Some (hazard_sid loc))
        /\ exists loc z name' obj',
             Fixtures.caller_store !! Exposure.o_location obj = Some loc
             /\ ({[ 0 := {| loc_sid := SidMany [1%Z]; hzrd_ctrl_pnt := None;
                            hazard_sid := Some 1%Z |} ]} : gmap Exposure.ref location)
                  !! Exposure.o_location obj = Some (Annot.with_hazard_sid loc z)
             /\ (name', obj') ∈ Fixtures.caller_assets
             /\ Exposure.o_location obj' = Exposure.o_location obj
             /\ Exposure.o_taxonomy obj' ∈ (fst <$> Fixtures.bridge_cons)
             /\ Annot.resolve Fixtures.grid_km (sitecol Fixtures.one_event_field) true
                  [] None loc (Exposure.o_asset_type obj') = inr z
             /\ ((forall n o, (n, o) ∈ Fixtures.caller_assets ->
                    Exposure.o_location o = Exposure.o_location obj ->
                    Exposure.o_asset_type o = Exposure.o_asset_type obj) ->
                 Annot.resolve Fixtures.grid_km (sitecol Fixtures.one_event_field) true
                   [] None loc (Exposure.o_asset_type obj) = inr z))
  /\ (forall r,
        ({[ 0 := {| loc_sid := SidMany [1%Z]; hzrd_ctrl_pnt := None;
                    hazard_sid := Some 1%Z |} ]} : gmap Exposure.ref location) !! r
        <> Fixtures.caller_store !! r ->
        exists name obj, (name, obj) ∈ Fixtures.caller_assets
                         /\ Exposure.o_location obj = r
                         /\ Exposure.o_taxonomy obj ∈ (fst <$> Fixtures.bridge_cons)).
Proof.
  apply (exposure_annotates_in_place Fixtures.grid_km Fixtures.caller_store
           Fixtures.caller_assets Fixtures.bridge_cons Fixtures.one_event_field
           true [] None).
  vm_compute. reflexivity.
Defined.

(** C9, as stated, fails: after the call the caller's asset "a1" reads a
    location dict with [hazard_sid] 1 where it read none before. *)
Lemma caller_asset_mutated :
  exists h' by_tax,
    Exposure.exposure_by_taxonomy Fixtures.grid_km Fixtures.caller_store
      Fixtures.caller_assets Fixtures.bridge_cons Fixtures.one_event_field
      true [] None = inr (h', by_tax)
    /\ (asset_location <$> Exposure.view Fixtures.caller_store Fixtures.caller_asset)
       = Some {| loc_sid := SidMany [1%Z]; hzrd_ctrl_pnt := None; hazard_sid := None |}
    /\ (asset_location <$> Exposure.view h' Fixtures.caller_asset)
       = Some {| loc_sid := SidMany [1%Z]; hzrd_ctrl_pnt := None; hazard_sid := Some 1%Z |}
    /\ Exposure.view h' Fixtures.caller_asset
       <> Exposure.view Fixtures.caller_store Fixtures.caller_asset.
Proof.
  eexists _, _. split; [vm_compute; reflexivity |].
  split; [vm_compute; reflexivity |].
  split; [vm_compute; reflexivity |].
  vm_compute. discriminate.
Qed.

(** * Further properties of the code *)

(** ** Loops in the error monad *)

Lemma for_each_each {A S} (xs : list A) (body : A -> S -> res S) (st st' : S) (x : A) :
  for_each xs body st = inr st' ->
  x ∈ xs ->
  exists s s', body x s = inr s'.
Proof.
  revert st. induction xs as [| y xs IH]; intros st H Hx; simpl in H.
  - by apply elem_of_nil in Hx.
  - bind_inv H as st1 H1. apply elem_of_cons in Hx as [-> | Hx]; [by eexists _, _ |].
    by apply (IH st1).
Qed.

Lemma for_each_ext {A S} (xs : list A) (body body' : A -> S -> res S) (st : S) :
  (forall x s, x ∈ xs -> body x s = body' x s) ->
  for_each xs body st = for_each xs body' st.
Proof.
  revert st. induction xs as [| y xs IH]; intros st H; simpl; [reflexivity |].
  rewrite H by (apply elem_of_cons; by left).
  destruct (body' y st) as [e | st1]; simpl; [reflexivity |].
  apply IH. intros x s Hx. apply H. apply elem_of_cons. by right.
Qed.

(** A property kept by every pass of a loop holds when the loop returns. *)
Lemma for_each_invariant {A S} (I : S -> Prop) (xs : list A)
    (body : A -> S -> res S) (st st' : S) :
  (forall x s s', x ∈ xs -> I s -> body x s = inr s' -> I s') ->
  I st ->
  for_each xs body st = inr st' ->
  I st'.
Proof.
  revert st. induction xs as [| y xs IH]; intros st Hstep Hst H; simpl in H.
  - by injection H as <-.
  - bind_inv H as st1 H1. apply (IH st1); [| | exact H].
    + intros x s s' Hx. apply Hstep. apply elem_of_cons. by right.
    + eapply Hstep; [| exact Hst | exact H1]. apply elem_of_cons. by left.
Qed.

(** ** The nearest intensity level *)

(** X1. The level picked for an intensity value is the first one whose
    binary64 difference from the value is least in absolute value: no
    level has a smaller one and every earlier level has a larger one.
    The differences are compared as the interpreter computes them, after
    rounding. *)
Lemma closest_im_first_nearest (asset_im_levels : list Q) (im_value : Q) (i : nat) :
  Consequences.closest_im asset_im_levels im_value = inr i ->
  exists l,
    asset_im_levels !! i = Some l
    /\ (forall j lj, asset_im_levels !! j = Some lj ->
          (Qabs (Binary64.sub l im_value) <= Qabs (Binary64.sub lj im_value))%Q)
    /\ (forall j lj, j < i -> asset_im_levels !! j = Some lj ->
          (Qabs (Binary64.sub l im_value) < Qabs (Binary64.sub lj im_value))%Q).
Proof.
  unfold Consequences.closest_im. intros H.
  destruct (argmin_first_min _ _ H) as (k & Hk & Hmin & Hfirst).
  rewrite list_lookup_fmap in Hk.
  destruct (asset_im_levels !! i) as [l |] eqn:Hl; [| discriminate].
  simpl in Hk. injection Hk as <-. exists l. split; [reflexivity |]. split.
  - intros j lj Hj. apply (Hmin j). by rewrite list_lookup_fmap, Hj.
  - intros j lj Hlt Hj. apply (Hfirst j); [exact Hlt |]. by rewrite list_lookup_fmap, Hj.
Qed.

Lemma closest_im_first_nearest_witness :
  exists l,
    [Cases.level_0_9; Cases.level_0_1] !! 0 = Some l
    /\ (forall j lj, [Cases.level_0_9; Cases.level_0_1] !! j = Some lj ->
          (Qabs (Binary64.sub l 0.5) <= Qabs (Binary64.sub lj 0.5))%Q)
    /\ (forall j lj, j < 0 -> [Cases.level_0_9; Cases.level_0_1] !! j = Some lj ->
          (Qabs (Binary64.sub l 0.5) < Qabs (Binary64.sub lj 0.5))%Q).
Proof.
  apply (closest_im_first_nearest [Cases.level_0_9; Cases.level_0_1] 0.5%Q 0).
  vm_compute. reflexivity.
Defined.

(** ** Storing the consequences of an asset *)

Lemma result_of_store (event ev : Z) (asset_name a : string)
    (rrng : gmap string value) (results : Consequences.results_t) :
  View.result_of (Consequences.store_result event asset_name rrng results) ev a
  = if decide (ev = event /\ a = asset_name) then Some (VDict rrng)
    else View.result_of results ev a.
Proof.
  unfold View.result_of, Consequences.store_result, Consequences.results_t in *.
  destruct (decide (ev = event)) as [-> | Hne].
  - destruct (results !! pretty event) as [by_asset |] eqn:Hr;
      rewrite lookup_insert_eq; simpl.
    + destruct (decide (a = asset_name)) as [-> | Hna].
      * rewrite lookup_insert_eq. by rewrite decide_True.
      * rewrite lookup_insert_ne by done. rewrite decide_False by tauto. reflexivity.
    + destruct (decide (a = asset_name)) as [-> | Hna].
      * rewrite lookup_singleton_eq. by rewrite decide_True.
      * rewrite lookup_singleton_ne by done. rewrite decide_False by tauto. reflexivity.
  - assert (Hp : pretty event <> pretty ev).
    { intros Heq. apply pretty_Z_inj in Heq. congruence. }
    rewrite decide_False by tauto.
    destruct (results !! pretty event); by rewrite lookup_insert_ne.
Qed.

Lemma event_loop_entries (im_values : list Q) (asset_name : string)
    (asset_im_levels : list Q) (asset_consequences : list value) (rndnums : list nat)
    (l : list (nat * Z)) (results results' : Consequences.results_t) :
  for_each l
    (Consequences.event_body im_values asset_name asset_im_levels asset_consequences
       rndnums) results = inr results' ->
  (forall ev, ev ∈ l.*2 ->
     exists i im_value idx rec rrng,
       (i, ev) ∈ l
       /\ im_values !! i = Some im_value
       /\ Consequences.closest_im asset_im_levels im_value = inr idx
       /\ asset_consequences !! idx = Some rec
       /\ Consequences.rearrange rndnums rec = inr rrng
       /\ View.result_of results' ev asset_name = Some (VDict rrng))
  /\ (forall ev a, ev ∉ l.*2 \/ a <> asset_name ->
        View.result_of results' ev a = View.result_of results ev a).
Proof.
  revert results. induction l as [| [i0 ev0] l IH]; intros results H; simpl in H.
  - injection H as <-. split; [| reflexivity].
    intros ev Hev. by apply elem_of_nil in Hev.
  - bind_inv H as results1 H1. destruct (IH _ H) as [Hin Hframe]. clear IH H.
    unfold Consequences.event_body in H1.
    bind_inv H1 as im Him. apply of_option_inr in Him.
    bind_inv H1 as idx Hidx. bind_inv H1 as rec Hrec. apply of_option_inr in Hrec.
    bind_inv H1 as rrng Hrr. injection H1 as <-.
    split.
    + intros ev Hev. destruct (decide (ev ∈ l.*2)) as [Htail | Hntail].
      * destruct (Hin ev Htail) as (i & im' & idx' & rec' & rrng' & Hi & Hrest).
        exists i, im', idx', rec', rrng'. split; [apply elem_of_cons; by right | exact Hrest].
      * simpl in Hev. apply elem_of_cons in Hev as [-> | Hev]; [| done].
        exists i0, im, idx, rec, rrng.
        split; [apply elem_of_cons; by left |]. repeat (split; [assumption |]).
        rewrite Hframe by (by left). rewrite result_of_store. by rewrite decide_True.
    + intros ev a Hout. rewrite Hframe.
      * rewrite result_of_store. rewrite decide_False; [reflexivity |].
        intros [-> ->]. destruct Hout as [Hout | Hout]; [| done].
        apply Hout. simpl. apply elem_of_cons. by left.
      * destruct Hout as [Hout | Hout]; [left | by right].
        intros Hev. apply Hout. simpl. apply elem_of_cons. by right.
Qed.

(** X2. [get_consequences_by_event] stores, for every event of its list, the
    consequences of the asset rearranged at the level [closest_im] picks
    for the event's intensity value (the first level of least binary64
    difference), and leaves the results of every other event and of
    every other asset as they were. *)
Theorem event_results_stored (events : list Z) (im_values : list Q)
    (asset_name : string) (asset_im_levels : list Q) (asset_consequences : list value)
    (rndnums : list nat) (results results' : Consequences.results_t) :
  Consequences.get_consequences_by_event events im_values asset_name asset_im_levels
    asset_consequences rndnums results = inr results' ->
  (forall ev, ev ∈ events ->
     exists i im_value idx rec rrng,
       events !! i = Some ev
       /\ im_values !! i = Some im_value
       /\ Consequences.closest_im asset_im_levels im_value = inr idx
       /\ asset_consequences !! idx = Some rec
       /\ Consequences.rearrange rndnums rec = inr rrng
       /\ View.result_of results' ev asset_name = Some (VDict rrng))
  /\ (forall ev a, ev ∉ events \/ a <> asset_name ->
        View.result_of results' ev a = View.result_of results ev a).
Proof.
  intros H. unfold Consequences.get_consequences_by_event in H.
  destruct (event_loop_entries _ _ _ _ _ _ _ _ H) as [Hin Hframe].
  assert (Hsnd : forall ev, ev ∈ (imap pair events).*2 <-> ev ∈ events).
  { intros ev. rewrite list_elem_of_fmap. split.
    - intros ([i e] & -> & Hie). apply elem_of_lookup_imap in Hie as (j & x & [= -> ->] & Hj).
      apply list_elem_of_lookup. by exists j.
    - intros Hev. apply list_elem_of_lookup in Hev as [j Hj].
      exists (j, ev). split; [reflexivity |]. apply elem_of_lookup_imap. by exists j, ev. }
  split.
  - intros ev Hev. apply Hsnd in Hev.
    destruct (Hin ev Hev) as (i & im & idx & rec & rrng & Hi & Hrest).
    exists i, im, idx, rec, rrng. split; [| exact Hrest].
    apply elem_of_lookup_imap in Hi as (j & x & [= -> ->] & Hj). exact Hj.
  - intros ev a [Hout | Hout]; apply Hframe; [left | by right].
    by rewrite Hsnd.
Qed.

Lemma event_results_stored_witness :
  (forall ev, ev ∈ [7%Z] ->
     exists i im_value idx rec rrng,
       [7%Z] !! i = Some ev
       /\ [0.1%Q] !! i = Some im_value
       /\ Consequences.closest_im [0.1%Q] im_value = inr idx
       /\ [Fixtures.bridge_record] !! idx = Some rec
       /\ Consequences.rearrange [1; 0] rec = inr rrng
       /\ View.result_of
            {[ "7" := {[ "a1" := VDict {[ "global" :=
                  VDict {[ "cost" := VList [VNum 20; VNum 10] ]} ]} ]} ]}
            ev "a1" = Some (VDict rrng))
  /\ (forall ev a, ev ∉ [7%Z] \/ a <> "a1" ->
        View.result_of
          {[ "7" := {[ "a1" := VDict {[ "global" :=
                VDict {[ "cost" := VList [VNum 20; VNum 10] ]} ]} ]} ]} ev a
        = View.result_of ∅ ev a).
Proof.
  apply (event_results_stored [7%Z] [0.1%Q] "a1" [0.1%Q] [Fixtures.bridge_record]
           [1; 0] ∅).
  vm_compute. reflexivity.
Defined.

(** ** What a run of the engine requires and what it fills in *)

Section EngineRun.

Variable float_of_string : string -> option Q.

Lemma get_cons_imlevels_inv (consequences : list value) (imls : list Q) :
  Consequences.get_cons_imlevels float_of_string consequences = inr imls ->
  length imls = length consequences
  /\ Forall (fun rec => exists d : gmap string value,
                 rec = VDict d /\ is_Some (d !! "im_level")) consequences.
Proof.
  intros H. apply map_res_inr in H. split; [symmetry; by eapply Forall2_length |].
  induction H as [| rec l recs ls Hrec _ IH]; constructor; [| exact IH].
  bind_inv Hrec as v Hv. destruct rec as [| | | d]; try discriminate.
  simpl in Hv. apply of_option_inr in Hv. exists d. split; [reflexivity | by eexists].
Qed.

Lemma single_event_entry (event : Z) (im_values : list Q) (asset_name : string)
    (asset_im_levels : list Q) (asset_consequences : list value) (rndnums : list nat)
    (results results' : Consequences.results_t) :
  Consequences.get_consequences_by_event [event] im_values asset_name asset_im_levels
    asset_consequences rndnums results = inr results' ->
  (exists rrng, View.result_of results' event asset_name = Some (VDict rrng))
  /\ (forall ev a, ev <> event \/ a <> asset_name ->
        View.result_of results' ev a = View.result_of results ev a).
Proof.
  intros H. destruct (event_loop_entries _ _ _ _ _ _ _ _ H) as [Hin Hframe]. split.
  - destruct (Hin event) as (i & im & idx & rec & rrng & _ & _ & _ & _ & _ & Hr).
    { simpl. apply elem_of_cons. by left. }
    by exists rrng.
  - intros ev a Hout. apply Hframe. destruct Hout as [Hout | Hout]; [left | by right].
    simpl. intros Hev. apply list_elem_of_singleton in Hev. done.
Qed.

Lemma process_asset_inv (event_id : Z) (rows_ev : list gmf_row) (tc : taxonomy_cons)
    (nums : list nat) (name : string) (a : asset)
    (results results' : Consequences.results_t) (descr descr' : gmap string value) :
  Consequences.process_asset float_of_string event_id rows_ev tc nums (name, a)
    (results, descr) = inr (results', descr') ->
  exists hsid row imls global_idx d,
    hazard_sid (asset_location a) = Some hsid
    /\ head (filter (fun r => sid r = hsid) rows_ev) = Some row
    /\ Consequences.get_cons_imlevels float_of_string (iml_consequences tc) = inr imls
    /\ Consequences.get_consequences_by_event [event_id] (gmv row) name imls
         (iml_consequences tc) nums results = inr results'
    /\ Consequences.find_cons_idx (component_damage_state_description tc)
         "component" "global" = inr global_idx
    /\ component_damage_state_description tc !! global_idx = Some d
    /\ descr' = <[name := d]> descr.
Proof.
  intros H. unfold Consequences.process_asset in H.
  bind_inv H as hsid Hh. apply of_option_inr in Hh.
  bind_inv H as row Hrow. apply of_option_inr in Hrow.
  bind_inv H as imls Himls. bind_inv H as res1 Hres.
  bind_inv H as gidx Hg. bind_inv H as d Hd. apply of_option_inr in Hd.
  injection H as <- <-. by exists hsid, row, imls, gidx, d.
Qed.

(** Every asset of a traversal that returns was processed. *)
Lemma run_from_each (perm_at : nat -> res (list nat)) (event_id : Z)
    (rows_ev : list gmf_row) (k0 : nat)
    (trav : list (taxonomy_cons * (string * asset)))
    (out out' : Consequences.results_t * gmap string value)
    (x : taxonomy_cons * (string * asset)) :
  Traversal.run_from float_of_string perm_at event_id rows_ev k0 trav out = inr out' ->
  x ∈ trav ->
  exists p o o',
    Consequences.process_asset float_of_string event_id rows_ev (fst x) p (snd x) o
    = inr o'.
Proof.
  intros H Hx. unfold Traversal.run_from in H.
  apply list_elem_of_lookup in Hx as [i Hi].
  assert (Hin : (k0 + i, x) ∈ imap (fun i x => (k0 + i, x)) trav).
  { apply elem_of_lookup_imap. by exists i, x. }
  destruct (for_each_each _ _ _ _ _ H Hin) as (o & o' & Hbody).
  unfold Traversal.position_body in Hbody. bind_inv Hbody as p Hp.
  by exists p, o, o'.
Qed.

End EngineRun.

Section EngineResults.

Variable float_of_string : string -> option Q.

Lemma engine_as_traversal (fuel : nat) (event_id : Z) (imf : imfield)
    (cons_for_hazard : list (string * taxonomy_cons)) (cons_mtdata : gmap string Z)
    (exp_assets : gmap string (list (string * asset)))
    (r : Consequences.results_t * gmap string value) :
  Consequences.get_consequences_by_event_all_assets float_of_string fuel event_id imf
    cons_for_hazard cons_mtdata exp_assets = inr r ->
  exists N : nat,
    Traversal.run_from float_of_string (Traversal.running_perm fuel N) event_id
      (filter (fun row => eid row = event_id) (gmf_data imf)) 0
      (Traversal.traversal cons_for_hazard exp_assets) (∅, ∅) = inr r.
Proof.
  intros H. unfold Consequences.get_consequences_by_event_all_assets in H.
  bind_inv H as N HN. bind_inv H as st Hloop. injection H as <-.
  exists (Z.to_nat N).
  eapply (taxonomy_loop_positions float_of_string fuel (Z.to_nat N) event_id _ imf
            exp_assets cons_for_hazard 0) in Hloop; [exact Hloop |].
  split; reflexivity.
Qed.

Lemma two_keys_size (d : gmap string value) (k1 k2 : string) :
  k1 <> k2 -> is_Some (d !! k1) -> is_Some (d !! k2) -> 2 <= size d.
Proof.
  intros Hne H1 H2.
  pose proof (map_size_delete_Some k1 d H1) as Hdel.
  assert (Hrest : size (delete k1 d) <> 0).
  { apply (map_size_ne_0_lookup_2 _ k2). by rewrite lookup_delete_ne. }
  lia.
Qed.

(** X3. The engine returns only if every record of every taxonomy that
    has an asset is a dict with the key "im_level".  No such record has
    "global" as its only key; whatever rearranging such a record returns
    is what the Tier I loop returns on it; and on such a record with a
    single key the Tier II code is entered and fails on the missing key
    "global". *)
Theorem engine_needs_im_level (fuel : nat) (event_id : Z) (imf : imfield)
    (cons_for_hazard : list (string * taxonomy_cons)) (cons_mtdata : gmap string Z)
    (exp_assets : gmap string (list (string * asset)))
    (r : Consequences.results_t * gmap string value) :
  Consequences.get_consequences_by_event_all_assets float_of_string fuel event_id imf
    cons_for_hazard cons_mtdata exp_assets = inr r ->
  forall tc a rec,
    (tc, a) ∈ Traversal.traversal cons_for_hazard exp_assets ->
    rec ∈ iml_consequences tc ->
    exists d : gmap string value,
      rec = VDict d /\ is_Some (d !! "im_level") /\ dom d <> {[ "global" ]}
      /\ (forall P out, Consequences.rearrange P rec = inr out ->
            2 <= size d /\ Consequences.tier1 P rec = inr out)
      /\ (size d = 1 ->
          forall P, Consequences.rearrange P rec = inl (KeyError "global")).
Proof.
  intros H tc a rec Hin Hrec.
  destruct (engine_as_traversal _ _ _ _ _ _ _ H) as (N & Hrun).
  destruct (run_from_each _ _ _ _ _ _ _ _ _ Hrun Hin) as (p & [res d0] & [res' d'] & Hp).
  simpl in Hp. destruct a as [name a].
  destruct (process_asset_inv _ _ _ _ _ _ _ _ _ _ _ Hp)
    as (hsid & row & imls & gidx & dd & _ & _ & Himls & _).
  destruct (get_cons_imlevels_inv _ _ _ Himls) as [_ Hall].
  rewrite Forall_forall in Hall. destruct (Hall rec Hrec) as (d & -> & Hlevel).
  exists d. split; [reflexivity |]. split; [exact Hlevel |].
  split; [| split].
  - intros Hdom. apply elem_of_dom in Hlevel. rewrite Hdom in Hlevel.
    by apply elem_of_singleton in Hlevel.
  - intros P out Hout. unfold Consequences.rearrange, len_keys in Hout. simpl in Hout.
    destruct (Nat.ltb_spec 1 (size d)) as [Hlt | Hle]; [split; [lia | exact Hout] |].
    exfalso. unfold Consequences.tier2, getitem in Hout. simpl in Hout.
    destruct (d !! "global") as [g |] eqn:Hg; [| discriminate].
    assert (2 <= size d); [| lia].
    apply (two_keys_size d "global" "im_level"); [done | by eexists | exact Hlevel].
  - intros Hsize P. unfold Consequences.rearrange, len_keys. simpl.
    rewrite Hsize. simpl. unfold Consequences.tier2, getitem. simpl.
    destruct (d !! "global") as [g |] eqn:Hg; [| reflexivity].
    assert (2 <= size d); [| lia].
    apply (two_keys_size d "global" "im_level"); [done | by eexists | exact Hlevel].
Qed.

Lemma taxonomy_checks_of_loop {S} (imf : imfield)
    (exp_assets : gmap string (list (string * asset)))
    (cons : list (string * taxonomy_cons)) (body : string * taxonomy_cons -> S -> res S)
    (st st' : S) :
  (forall t s s', body t s = inr s' ->
     lower (im_type (snd t)) = lower (imts imf) /\ is_Some (exp_assets !! fst t)) ->
  for_each cons body st = inr st' ->
  Forall (fun t => lower (im_type (snd t)) = lower (imts imf)
                   /\ is_Some (exp_assets !! fst t)) cons.
Proof.
  intros Hbody H. apply Forall_forall. intros t Ht.
  destruct (for_each_each _ _ _ _ _ H Ht) as (s & s' & Hs). by eapply Hbody.
Qed.

(** X4. The engine and stage 1 of the filter return only when every taxonomy
    of the consequence model has an intensity type whose [str.lower] is
    that of the catalog's intensity type, and has an entry in the assets
    by taxonomy. *)
Theorem im_type_checked (fuel : nat) (event_id : Z) (imf : imfield)
    (cons_for_hazard : list (string * taxonomy_cons)) (cons_mtdata : gmap string Z)
    (exp_assets : gmap string (list (string * asset)))
    (events_filtering_method : Z) (IM_threshold : option Q) :
  (exists r, Consequences.get_consequences_by_event_all_assets float_of_string fuel
               event_id imf cons_for_hazard cons_mtdata exp_assets = inr r)
  \/ (exists s, ImFields.filter_events_by_imvalue cons_for_hazard imf exp_assets
                  events_filtering_method IM_threshold = inr s) ->
  Forall (fun t => lower (im_type (snd t)) = lower (imts imf)
                   /\ is_Some (exp_assets !! fst t)) cons_for_hazard.
Proof.
  intros [[r H] | [s H]].
  - unfold Consequences.get_consequences_by_event_all_assets in H.
    bind_inv H as N HN. bind_inv H as st Hloop.
    eapply taxonomy_checks_of_loop; [| exact Hloop].
    intros [tax tc] s0 s1 Hb. unfold Consequences.taxonomy_body in Hb.
    bind_inv Hb as u Hu. apply assert_inr in Hu. apply String.eqb_eq in Hu.
    bind_inv Hb as assets Ha. apply of_option_inr in Ha. split; [exact Hu | by eexists].
  - unfold ImFields.filter_events_by_imvalue in H.
    destruct (_ && _); [discriminate |].
    bind_inv H as s0 Hloop. unfold ImFields.collect_events in Hloop.
    eapply taxonomy_checks_of_loop; [| exact Hloop].
    intros [tax tc] s1 s2 Hb. unfold ImFields.stage1_taxonomy in Hb.
    bind_inv Hb as u Hu. apply assert_inr in Hu. apply String.eqb_eq in Hu.
    bind_inv Hb as assets Ha. apply of_option_inr in Ha. split; [exact Hu | by eexists].
Qed.

End EngineResults.

Lemma engine_needs_im_level_witness :
  exists d : gmap string value,
    Fixtures.bridge_record = VDict d /\ is_Some (d !! "im_level")
    /\ dom d <> {[ "global" ]}
    /\ (forall P out, Consequences.rearrange P Fixtures.bridge_record = inr out ->
          2 <= size d /\ Consequences.tier1 P Fixtures.bridge_record = inr out)
    /\ (size d = 1 ->
        forall P, Consequences.rearrange P Fixtures.bridge_record
                  = inl (KeyError "global")).
Proof.
  apply (engine_needs_im_level Fixtures.no_float 64 7 Fixtures.one_event_field
           Fixtures.bridge_cons Fixtures.five_realizations Fixtures.two_bridges
           Fixtures.two_bridges_out eq_refl
           {| im_type := "PGA"; iml_consequences := [Fixtures.bridge_record];
              component_damage_state_description :=
                [VDict {[ "component" := VStr "global" ]}] |}
           ("a1", Fixtures.at_site 1)).
  - apply list_elem_of_lookup. exists 0. reflexivity.
  - apply list_elem_of_lookup. exists 0. reflexivity.
Defined.

Lemma im_type_checked_witness :
  Forall (fun t => lower (im_type (snd t)) = lower (imts Fixtures.one_event_field)
                   /\ is_Some (Fixtures.two_bridges !! fst t)) Fixtures.bridge_cons.
Proof.
  apply (im_type_checked Fixtures.no_float 64 7 Fixtures.one_event_field
           Fixtures.bridge_cons Fixtures.five_realizations Fixtures.two_bridges 1 None).
  left. exists Fixtures.two_bridges_out. vm_compute. reflexivity.
Defined.

Section EngineOutput.

Variable float_of_string : string -> option Q.
Variables (perm_at : nat -> res (list nat)) (event_id : Z) (rows_ev : list gmf_row).

Lemma position_body_output (ka : nat * (taxonomy_cons * (string * asset)))
    (out out' : Consequences.results_t * gmap string value) :
  Traversal.position_body float_of_string perm_at event_id rows_ev ka out = inr out' ->
  View.filled out' event_id (fst (snd (snd ka)))
  /\ (forall ev a, ev <> event_id \/ a <> fst (snd (snd ka)) ->
        View.result_of (fst out') ev a = View.result_of (fst out) ev a)
  /\ (forall n, n <> fst (snd (snd ka)) -> snd out' !! n = snd out !! n).
Proof.
  intros H. unfold Traversal.position_body in H. bind_inv H as p Hp.
  destruct ka as [k [tc [name a]]], out as [res d], out' as [res' d']. simpl in *.
  destruct (process_asset_inv _ _ _ _ _ _ _ _ _ _ _ H)
    as (hsid & row & imls & gidx & dd & _ & _ & _ & Hev & _ & _ & ->).
  destruct (single_event_entry _ _ _ _ _ _ _ _ Hev) as [Hentry Hframe].
  unfold View.filled. simpl.
  split; [split; [exact Hentry | by rewrite lookup_insert_eq] |].
  split; [exact Hframe |]. intros n Hn. by rewrite lookup_insert_ne.
Qed.

Lemma position_loop_output (l : list (nat * (taxonomy_cons * (string * asset))))
    (out out' : Consequences.results_t * gmap string value) :
  for_each l (Traversal.position_body float_of_string perm_at event_id rows_ev) out
  = inr out' ->
  (forall n, View.filled out event_id n -> View.filled out' event_id n)
  /\ (forall x, x ∈ l -> View.filled out' event_id (fst (snd (snd x))))
  /\ (forall ev a, is_Some (View.result_of (fst out') ev a) ->
        is_Some (View.result_of (fst out) ev a)
        \/ (ev = event_id /\ exists x, x ∈ l /\ fst (snd (snd x)) = a))
  /\ (forall n, is_Some (snd out' !! n) ->
        is_Some (snd out !! n) \/ exists x, x ∈ l /\ fst (snd (snd x)) = n).
Proof.
  revert out. induction l as [| ka l IH]; intros out H; simpl in H.
  - injection H as <-. split; [done |]. split; [| split; by left].
    intros x Hx. by apply elem_of_nil in Hx.
  - bind_inv H as out1 H1. destruct (IH _ H) as (Hkeep & Hall & Hres & Hdescr).
    destruct (position_body_output _ _ _ H1) as (Hnew & Hframe & Hdframe).
    clear IH H H1.
    assert (Hstep : forall n, View.filled out event_id n -> View.filled out1 event_id n).
    { intros n [[rr Hr] Hd].
      destruct (decide (n = fst (snd (snd ka)))) as [-> | Hne]; [exact Hnew |].
      split; [exists rr; rewrite Hframe by (by right); exact Hr |].
      by rewrite Hdframe. }
    split; [intros n Hn; by apply Hkeep, Hstep |].
    split; [| split].
    + intros x Hx. apply elem_of_cons in Hx as [-> | Hx]; [by apply Hkeep | by apply Hall].
    + intros ev a Hs. destruct (Hres ev a Hs) as [Hold | (-> & x & Hx & Hn)].
      * destruct (decide (ev = event_id /\ a = fst (snd (snd ka)))) as [[-> ->] | Hne].
        -- right. split; [reflexivity |]. exists ka. split; [apply elem_of_cons; by left | done].
        -- left. rewrite <- Hframe; [exact Hold |].
           destruct (decide (ev = event_id)); [right | by left]. intros ->. tauto.
      * right. split; [reflexivity |]. exists x. split; [apply elem_of_cons; by right | done].
    + intros n Hs. destruct (Hdescr n Hs) as [Hold | (x & Hx & Hn)].
      * destruct (decide (n = fst (snd (snd ka)))) as [-> | Hne].
        -- right. exists ka. split; [apply elem_of_cons; by left | done].
        -- left. by rewrite <- Hdframe.
      * right. exists x. split; [apply elem_of_cons; by right | done].
Qed.

End EngineOutput.

(** X5. When the engine returns, its results hold an entry under the event
    for every asset of every taxonomy of the consequence model, and a
    damage state description for each of them; they hold nothing under
    another event or for another asset name. *)
Theorem engine_fills_every_asset (float_of_string : string -> option Q)
    (fuel : nat) (event_id : Z) (imf : imfield)
    (cons_for_hazard : list (string * taxonomy_cons)) (cons_mtdata : gmap string Z)
    (exp_assets : gmap string (list (string * asset)))
    (r : Consequences.results_t * gmap string value) :
  Consequences.get_consequences_by_event_all_assets float_of_string fuel event_id imf
    cons_for_hazard cons_mtdata exp_assets = inr r ->
  (forall tc name a,
      (tc, (name, a)) ∈ Traversal.traversal cons_for_hazard exp_assets ->
      View.filled r event_id name)
  /\ (forall ev name, is_Some (View.result_of (fst r) ev name) ->
        ev = event_id
        /\ exists tc a, (tc, (name, a)) ∈ Traversal.traversal cons_for_hazard exp_assets)
  /\ (forall name, is_Some (snd r !! name) ->
        exists tc a, (tc, (name, a)) ∈ Traversal.traversal cons_for_hazard exp_assets).
Proof.
  intros H. destruct (engine_as_traversal _ _ _ _ _ _ _ _ H) as (N & Hrun).
  unfold Traversal.run_from in Hrun.
  destruct (position_loop_output _ _ _ _ _ _ _ Hrun) as (_ & Hall & Hres & Hdescr).
  assert (Hmem : forall x,
             x ∈ imap (fun i y => (0 + i, y))
                   (Traversal.traversal cons_for_hazard exp_assets) ->
             snd x ∈ Traversal.traversal cons_for_hazard exp_assets).
  { intros x Hx. apply elem_of_lookup_imap in Hx as (i & y & -> & Hy).
    apply list_elem_of_lookup. by exists i. }
  split; [| split].
  - intros tc name a Hin. apply list_elem_of_lookup in Hin as [i Hi].
    apply (Hall (0 + i, (tc, (name, a)))). apply elem_of_lookup_imap. by eexists i, _.
  - intros ev name Hs. destruct (Hres ev name Hs) as [Hold | (-> & x & Hx & Hn)].
    + unfold View.result_of, Consequences.results_t in Hold. simpl in Hold.
      rewrite lookup_empty in Hold. by destruct Hold.
    + split; [reflexivity |]. apply Hmem in Hx.
      destruct x as [k [tc [n a]]]. simpl in *. subst. by exists tc, a.
  - intros name Hs. destruct (Hdescr name Hs) as [Hold | (x & Hx & Hn)].
    + simpl in Hold. rewrite lookup_empty in Hold. by destruct Hold.
    + apply Hmem in Hx. destruct x as [k [tc [n a]]]. simpl in *. subst. by exists tc, a.
Qed.

Lemma engine_fills_every_asset_witness :
  (forall tc name a,
      (tc, (name, a)) ∈ Traversal.traversal Fixtures.bridge_cons Fixtures.two_bridges ->
      View.filled Fixtures.two_bridges_out 7 name)
  /\ (forall ev name, is_Some (View.result_of (fst Fixtures.two_bridges_out) ev name) ->
        ev = 7%Z
        /\ exists tc a,
             (tc, (name, a)) ∈ Traversal.traversal Fixtures.bridge_cons Fixtures.two_bridges)
  /\ (forall name, is_Some (snd Fixtures.two_bridges_out !! name) ->
        exists tc a,
          (tc, (name, a)) ∈ Traversal.traversal Fixtures.bridge_cons Fixtures.two_bridges).
Proof.
  apply (engine_fills_every_asset Fixtures.no_float 64 7 Fixtures.one_event_field
           Fixtures.bridge_cons Fixtures.five_realizations Fixtures.two_bridges).
  vm_compute. reflexivity.
Defined.

(** ** Finding a component by name *)

Lemma find_conss_idx_loop (tag : string) (comps_data : list value)
    (comp_refs names comp_refs' names' : list string) :
  for_each comps_data (Consequences.find_conss_idx_body tag) (comp_refs, names)
  = inr (comp_refs', names') ->
  exists full,
    Forall2 (fun c n => exists d : gmap string value,
                 c = VDict d /\ d !! tag = Some (VStr n)) comps_data full
    /\ comp_refs' = rev full ++ comp_refs
    /\ names' = names ++ (Unicode.stored 25 <$> full)
    /\ (NoDup comp_refs -> NoDup comp_refs').
Proof.
  revert comp_refs names. induction comps_data as [| c comps IH];
    intros comp_refs names H; simpl in H.
  - injection H as <- <-. exists []. split; [constructor |].
    split; [reflexivity |]. split; [by rewrite app_nil_r | done].
  - bind_inv H as st1 H1. unfold Consequences.find_conss_idx_body in H1.
    bind_inv H1 as v Hv. bind_inv H1 as name Hname.
    destruct c as [| | | d]; try discriminate. simpl in Hv. apply of_option_inr in Hv.
    destruct v as [| n | |]; try discriminate. injection Hname as <-.
    case_bool_decide as Hin; [discriminate |]. injection H1 as <-.
    destruct (IH _ _ H) as (full & Hall & -> & -> & Hnd).
    exists (n :: full). split; [constructor; [by exists d | exact Hall] |].
    split; [simpl; by rewrite <- app_assoc |].
    split; [simpl; by rewrite <- app_assoc |].
    intros Hnd0. apply Hnd. by constructor.
Qed.

Lemma first_index_lookup (component : string) (names : list string) (i0 i : nat) :
  Consequences.first_index component names i0 = inr i ->
  exists j, i = i0 + j /\ names !! j = Some component
            /\ forall j', j' < j -> names !! j' <> Some component.
Proof.
  revert i0. induction names as [| n names IH]; intros i0 H; simpl in H; [discriminate |].
  destruct (String.eqb_spec n component) as [-> | Hne].
  - injection H as <-. exists 0. split; [lia |]. split; [reflexivity |]. intros; lia.
  - destruct (IH _ H) as (j & -> & Hj & Hfirst). exists (S j).
    split; [lia |]. split; [exact Hj |].
    intros [| j'] Hlt; simpl; [congruence | apply Hfirst; lia].
Qed.

Lemma string_names_unique (tag : string) (comps_data : list value) (full full' : list string) :
  Forall2 (fun c n => exists d : gmap string value,
               c = VDict d /\ d !! tag = Some (VStr n)) comps_data full ->
  Forall2 (fun c n => exists d : gmap string value,
               c = VDict d /\ d !! tag = Some (VStr n)) comps_data full' ->
  full' = full.
Proof.
  intros H. revert full'. induction H as [| c n l ns (d & -> & Hd) _ IH];
    intros full' H'; inversion H' as [| ? n' ? ns' (d' & Hc & Hd') Hrest]; subst;
    [reflexivity |].
  injection Hc as <-. rewrite Hd in Hd'. injection Hd' as <-. f_equal. by apply IH.
Qed.

(** X6. On component descriptions whose names under [tag] are strings,
    [find_cons_idx] returns only when the names are pairwise distinct,
    and then gives the first position whose name, as the array keeps it
    (cut to 25 code points, trailing NUL characters gone), is the
    component asked for. *)
Theorem find_cons_idx_first (comps_data : list value) (tag component : string)
    (full : list string) (i : nat) :
  Forall2 (fun c n => exists d : gmap string value,
               c = VDict d /\ d !! tag = Some (VStr n)) comps_data full ->
  Consequences.find_cons_idx comps_data tag component = inr i ->
  NoDup full
  /\ (Unicode.stored 25 <$> full) !! i = Some (Unicode.strip_nul component)
  /\ (forall j, j < i ->
        (Unicode.stored 25 <$> full) !! j <> Some (Unicode.strip_nul component)).
Proof.
  intros Hfull H. unfold Consequences.find_cons_idx in H. bind_inv H as names Hnames.
  unfold Consequences.find_conss_idx in Hnames. bind_inv Hnames as st Hloop.
  injection Hnames as <-. destruct st as [refs names].
  destruct (find_conss_idx_loop _ _ _ _ _ _ Hloop) as (full' & Hall & Hrefs & -> & Hnd).
  rewrite (string_names_unique _ _ _ _ Hfull Hall) in *.
  destruct (first_index_lookup _ _ _ _ H) as (j & -> & Hj & Hfirst). simpl in *.
  split.
  { specialize (Hnd (NoDup_nil_2)). rewrite Hrefs, app_nil_r in Hnd.
    by rewrite (Permutation_rev full). }
  split; [exact Hj | exact Hfirst].
Qed.

Lemma find_cons_idx_first_witness :
  NoDup ["deck"; "global"]
  /\ (Unicode.stored 25 <$> ["deck"; "global"]) !! 1 = Some (Unicode.strip_nul "global")
  /\ (forall j, j < 1 ->
        (Unicode.stored 25 <$> ["deck"; "global"]) !! j
        <> Some (Unicode.strip_nul "global")).
Proof.
  apply (find_cons_idx_first
           [VDict {[ "component" := VStr "deck" ]}; VDict {[ "component" := VStr "global" ]}]
           "component" "global" ["deck"; "global"] 1).
  - repeat constructor; eexists; (split; [reflexivity |]); vm_compute; reflexivity.
  - vm_compute. reflexivity.
Defined.

(** ** The fields the engine emits *)

Section OutputShape.

Lemma rearrange_field_shape (owner : value) (guard src out comp : string)
    (P : list nat) (rrng rrng' f : gmap string value) :
  rrng !! comp = Some (VDict f) ->
  Consequences.rearrange_field owner guard src out comp P rrng = inr rrng' ->
  exists f', rrng' = <[comp := VDict f']> rrng
             /\ (f' = f \/ exists ys, f' = <[out := VList ys]> f).
Proof.
  intros Hcomp H. unfold Consequences.rearrange_field in H.
  bind_inv H as present Hp. destruct present.
  - bind_inv H as xs Hxs. rewrite (update_field_insert _ _ _ f) in H by exact Hcomp.
    injection H as <-. exists (<[out := VList xs]> f). split; [reflexivity |].
    right. by exists xs.
  - injection H as <-. exists f. split; [by rewrite insert_id | by left].
Qed.

Lemma keys_after_insert (f : gmap string value) (out k : string) (ys : list value)
    (f' : gmap string value) (allowed : string -> Prop) :
  (forall k, is_Some (f !! k) -> allowed k) ->
  allowed out ->
  f' = f \/ (exists ys, f' = <[out := VList ys]> f) ->
  is_Some (f' !! k) -> allowed k.
Proof.
  intros Hf Hout [-> | (zs & ->)] Hk; [by apply Hf |].
  destruct (decide (out = k)) as [<- | Hne]; [exact Hout |].
  rewrite lookup_insert_ne in Hk by done. by apply Hf.
Qed.

Lemma tier1_component_shape (P : list nat) (c : value) (rrng rrng' : gmap string value) :
  Consequences.tier1_component P c rrng = inr rrng' ->
  exists (name : string) (f : gmap string value),
    rrng' = <[name := VDict f]> rrng
    /\ forall k, is_Some (f !! k) ->
         k = "cost" \/ k = "damage_state" \/ (k = "recovery" /\ name = "global").
Proof.
  intros H. unfold Consequences.tier1_component in H.
  bind_inv H as v Hv. bind_inv H as name Hname. exists name.
  set (rrng0 := <[name := VDict ∅]> rrng) in H.
  assert (H0 : rrng0 !! name = Some (VDict ∅)) by apply lookup_insert_eq.
  set (allowed := fun k : string =>
         k = "cost" \/ k = "damage_state" \/ (k = "recovery" /\ name = "global")).
  assert (A0 : forall k, is_Some ((∅ : gmap string value) !! k) -> allowed k).
  { intros k Hk. rewrite lookup_empty in Hk. by destruct Hk. }
  destruct (String.eqb_spec name "global") as [Hg | Hng]; simpl in H.
  - bind_inv H as r1 H1. bind_inv H as r2 H2.
    destruct (rearrange_field_shape _ _ _ _ _ _ _ _ _ H0 H1) as (f1 & -> & S1).
    destruct (rearrange_field_shape _ _ _ _ _ _ _ _ f1 (lookup_insert_eq _ _ _) H2)
      as (f2 & -> & S2).
    destruct (rearrange_field_shape _ _ _ _ _ _ _ _ f2 (lookup_insert_eq _ _ _) H)
      as (f3 & -> & S3).
    exists f3. split; [unfold rrng0; by rewrite !insert_insert_eq |].
    intros k. apply (keys_after_insert f2 "damage_state" k [] f3 allowed);
      [| right; by left | exact S3].
    intros k'. apply (keys_after_insert f1 "cost" k' [] f2 allowed);
      [| by left | exact S2].
    intros k''. apply (keys_after_insert ∅ "recovery" k'' [] f1 allowed);
      [exact A0 | right; right; by split | exact S1].
  - bind_inv H as r1 H1.
    destruct (rearrange_field_shape _ _ _ _ _ _ _ _ _ H0 H1) as (f1 & -> & S1).
    destruct (rearrange_field_shape _ _ _ _ _ _ _ _ f1 (lookup_insert_eq _ _ _) H)
      as (f2 & -> & S2).
    exists f2. split; [unfold rrng0; by rewrite !insert_insert_eq |].
    intros k. apply (keys_after_insert f1 "damage_state" k [] f2 allowed);
      [| right; by left | exact S2].
    intros k'. apply (keys_after_insert ∅ "cost" k' [] f1 allowed);
      [exact A0 | by left | exact S1].
Qed.

End OutputShape.

(** X7. Whatever fields the components of a record have, the rearranged
    output of the engine is a dict of dicts whose only keys are "cost",
    "damage_state" and, under the component "global" alone, "recovery":
    every other field of the input is skipped. *)
Theorem only_known_fields_emitted (P : list nat) (rec : value)
    (out : gmap string value) (comp : string) (v : value) :
  Consequences.rearrange P rec = inr out ->
  out !! comp = Some v ->
  exists fields : gmap string value,
    v = VDict fields
    /\ forall k, is_Some (fields !! k) ->
         k = "cost" \/ k = "damage_state" \/ (k = "recovery" /\ comp = "global").
Proof.
  intros H Hcomp. unfold Consequences.rearrange in H. bind_inv H as n Hn.
  destruct (1 <? n).
  - unfold Consequences.tier1 in H. bind_inv H as cs Hcs. bind_inv H as comps Hcomps.
    revert comp v Hcomp. eapply (for_each_invariant
      (fun rrng : gmap string value =>
         forall comp v, rrng !! comp = Some v ->
           exists fields : gmap string value,
             v = VDict fields
             /\ forall k, is_Some (fields !! k) ->
                  k = "cost" \/ k = "damage_state" \/ (k = "recovery" /\ comp = "global")));
      [| | exact H].
    + intros c s s' _ Hs Hstep comp' v' Hv'.
      destruct (tier1_component_shape _ _ _ _ Hstep) as (name & f & -> & Hf).
      destruct (decide (name = comp')) as [<- | Hne].
      * rewrite lookup_insert_eq in Hv'. injection Hv' as <-. by exists f.
      * rewrite lookup_insert_ne in Hv' by done. by apply (Hs comp').
    + intros comp' v' Hv'. by rewrite lookup_empty in Hv'.
  - unfold Consequences.tier2 in H.
    bind_inv H as g Hg. bind_inv H as r1 H1. bind_inv H as r2 H2.
    bind_inv H as present Hp.
    destruct (rearrange_field_shape _ _ _ _ _ _ _ _ ∅ (lookup_singleton_eq _ _) H1)
      as (f1 & -> & S1).
    destruct (rearrange_field_shape _ _ _ _ _ _ _ _ f1 (lookup_insert_eq _ _ _) H2)
      as (f2 & -> & S2).
    rewrite insert_insert_eq, insert_singleton_eq in H.
    set (allowed := fun k : string =>
           k = "cost" \/ k = "damage_state" \/ (k = "recovery" /\ "global" = "global")).
    assert (A2 : forall k, is_Some (f2 !! k) -> allowed k).
    { intros k. apply (keys_after_insert f1 "damage_state" k [] f2 allowed);
        [| right; by left | exact S2].
      intros k'. apply (keys_after_insert ∅ "cost" k' [] f1 allowed);
        [| by left | exact S1].
      intros k'' Hk. rewrite lookup_empty in Hk. by destruct Hk. }
    destruct present.
    + bind_inv H as rcv Hrcv. bind_inv H as r' Hr'.
      rewrite (update_field_insert _ _ _ f2) in H by apply lookup_singleton_eq.
      injection H as <-. rewrite insert_singleton_eq in Hcomp.
      apply lookup_singleton_Some in Hcomp as [<- <-].
      eexists. split; [reflexivity |]. intros k Hk.
      destruct (decide (k = "recovery")) as [-> | Hne]; [right; right; by split |].
      rewrite lookup_insert_ne in Hk by done. by apply A2.
    + injection H as <-. apply lookup_singleton_Some in Hcomp as [<- <-].
      exists f2. split; [reflexivity | exact A2].
Qed.

Lemma only_known_fields_emitted_witness :
  exists fields : gmap string value,
    VDict {[ "cost" := VList [VNum 20; VNum 10] ]} = VDict fields
    /\ forall k, is_Some (fields !! k) ->
         k = "cost" \/ k = "damage_state" \/ (k = "recovery" /\ "deck" = "global").
Proof.
  apply (only_known_fields_emitted [1; 0] Fixtures.tier1_minimal
           {[ "deck" := VDict {[ "cost" := VList [VNum 20; VNum 10] ]};
              "global" := VDict {[ "damage_state" := VList [VStr "DS2"; VStr "DS1"] ]} ]}
           "deck").
  - vm_compute. reflexivity.
  - vm_compute. reflexivity.
Defined.

(** ** Stage 1 of the filter *)

Section StageOne.

Lemma threshold_events (t : Q) (at_site : list gmf_row) (im_values : list Q) (e : Z) :
  Forall2 (fun r v => head (gmv r) = Some v) at_site im_values ->
  e ∈ (fst <$> filter (fun ev : Z * Q => Qle_bool t (snd ev) = true)
                 (zip (eid <$> at_site) im_values))
  <-> exists r v, r ∈ at_site /\ eid r = e /\ head (gmv r) = Some v /\ (t <= v)%Q.
Proof.
  induction 1 as [| r v rs vs Hrv Hall IH]; simpl.
  - split; [intros H; by apply elem_of_nil in H |].
    intros (r & v & Hr & _). by apply elem_of_nil in Hr.
  - rewrite filter_cons. simpl.
    destruct (decide (Qle_bool t v = true)) as [Hle | Hnle].
    + rewrite fmap_cons, elem_of_cons, IH. simpl. split.
      * intros [-> | (r' & v' & Hr' & Hrest)].
        -- exists r, v. split; [apply elem_of_cons; by left |].
           split; [reflexivity |]. split; [exact Hrv | by apply Qle_bool_iff].
        -- exists r', v'. split; [apply elem_of_cons; by right | exact Hrest].
      * intros (r' & v' & Hr' & He & Hv' & Ht).
        apply elem_of_cons in Hr' as [-> | Hr']; [by left |].
        right. by exists r', v'.
    + rewrite IH. split.
      * intros (r' & v' & Hr' & Hrest).
        exists r', v'. split; [apply elem_of_cons; by right | exact Hrest].
      * intros (r' & v' & Hr' & He & Hv' & Ht).
        apply elem_of_cons in Hr' as [-> | Hr']; [| by exists r', v'].
        exfalso. apply Hnle. apply Qle_bool_iff. congruence.
Qed.

Lemma events_of_asset_inv (rows : list gmf_row) (m : Z) (IM_threshold : option Q)
    (a : asset) (evs : list Z) :
  ImFields.events_of_asset rows m IM_threshold a = inr evs ->
  forall e, e ∈ evs <-> View.asset_candidate rows m IM_threshold a e.
Proof.
  intros H e. unfold ImFields.events_of_asset in H. unfold View.asset_candidate.
  bind_inv H as h Hh. apply of_option_inr in Hh.
  destruct (Z.eqb_spec m 1) as [-> | Hm1].
  - injection H as <-. rewrite list_elem_of_fmap. split.
    + intros (row & -> & Hrow). apply list_elem_of_filter in Hrow as [Hs Hin].
      exists h, row. repeat (split; [done |]). discriminate.
    + intros (h' & row & Hh' & Hin & Hs & He & _). exists row.
      split; [done |]. apply list_elem_of_filter. split; [congruence | exact Hin].
  - destruct (Z.eqb_spec m 2) as [-> | Hm2]; [| discriminate].
    bind_inv H as im_values Him. bind_inv H as t Ht. apply of_option_inr in Ht.
    injection H as <-. apply map_res_inr in Him.
    assert (Hall : Forall2 (fun r v => head (gmv r) = Some v)
                     (filter (fun r => sid r = h) rows) im_values).
    { eapply Forall2_impl; [exact Him |]. intros r v Hr. by apply of_option_inr in Hr. }
    rewrite (threshold_events t _ _ e Hall). split.
    + intros (r & v & Hr & He & Hv & Hle).
      apply list_elem_of_filter in Hr as [Hs Hin].
      exists h, r. repeat (split; [done |]). intros _. by exists t, v.
    + intros (h' & row & Hh' & Hin & Hs & He & Hthr).
      destruct (Hthr eq_refl) as (t' & v & Ht' & Hv & Hle).
      assert (t' = t) as -> by congruence.
      exists row, v. split; [| done].
      apply list_elem_of_filter. split; [congruence | exact Hin].
Qed.

Lemma stage1_asset_loop (rows : list gmf_row) (m : Z) (IM_threshold : option Q)
    (assets : list (string * asset)) (s0 s : gset Z) :
  for_each assets (ImFields.stage1_asset rows m IM_threshold) s0 = inr s ->
  forall e, e ∈ s <->
    e ∈ s0 \/ exists name a, (name, a) ∈ assets
                             /\ View.asset_candidate rows m IM_threshold a e.
Proof.
  revert s0. induction assets as [| [name a] assets IH]; intros s0 H e; simpl in H.
  - injection H as <-. split; [by left |].
    intros [? | (n & a & Hin & _)]; [done | by apply elem_of_nil in Hin].
  - bind_inv H as s1 H1. unfold ImFields.stage1_asset in H1.
    bind_inv H1 as evs Hevs. injection H1 as <-. simpl in Hevs.
    rewrite (IH _ H e), elem_of_union, elem_of_list_to_set,
      (events_of_asset_inv _ _ _ _ _ Hevs e). split.
    + intros [[Hc | Hs0] | (n & a' & Hin & Hc)].
      * right. exists name, a. split; [apply elem_of_cons; by left | exact Hc].
      * by left.
      * right. exists n, a'. split; [apply elem_of_cons; by right | exact Hc].
    + intros [Hs0 | (n & a' & Hin & Hc)]; [left; by right |].
      apply elem_of_cons in Hin as [[= -> ->] | Hin]; [left; by left |].
      right. by exists n, a'.
Qed.

Lemma stage1_taxonomy_loop (imf : imfield)
    (exp_assets : gmap string (list (string * asset))) (m : Z) (IM_threshold : option Q)
    (consequences : list (string * taxonomy_cons)) (s0 s : gset Z) :
  for_each consequences (ImFields.stage1_taxonomy imf exp_assets m IM_threshold) s0
  = inr s ->
  forall e, e ∈ s <->
    e ∈ s0 \/ View.candidate imf consequences exp_assets m IM_threshold e.
Proof.
  revert s0. induction consequences as [| [tax tc] cons IH]; intros s0 H e; simpl in H.
  - injection H as <-. split; [by left |].
    intros [? | (t & c & l & n & a & Hin & _)]; [done | by apply elem_of_nil in Hin].
  - bind_inv H as s1 H1. unfold ImFields.stage1_taxonomy in H1.
    bind_inv H1 as u Hu. bind_inv H1 as assets Hassets. apply of_option_inr in Hassets.
    rewrite (IH _ H e), (stage1_asset_loop _ _ _ _ _ _ H1 e). unfold View.candidate. split.
    + intros [[Hs0 | (n & a & Hin & Hc)] | (t & c & l & n & a & Hin & Hrest)].
      * by left.
      * right. exists tax, tc, assets, n, a. split; [apply elem_of_cons; by left | done].
      * right. exists t, c, l, n, a. split; [apply elem_of_cons; by right | done].
    + intros [Hs0 | (t & c & l & n & a & Hin & Hl & Hna & Hc)]; [left; by left |].
      apply elem_of_cons in Hin as [[= -> ->] | Hin].
      * left. right. exists n, a. split; [congruence | exact Hc].
      * right. by exists t, c, l, n, a.
Qed.

End StageOne.

(** X8. The events of interest are exactly the events for which some asset of
    some taxonomy of the consequence model has a sample at its hazard
    site and, in threshold mode, a first intensity value at or above the
    threshold there: one such asset is enough. *)
Theorem candidates_characterized (consequences : list (string * taxonomy_cons))
    (imf : imfield) (exp_assets : gmap string (list (string * asset)))
    (events_filtering_method : Z) (IM_threshold : option Q) (s : gset Z) :
  ImFields.filter_events_by_imvalue consequences imf exp_assets events_filtering_method
    IM_threshold = inr s ->
  forall e, e ∈ s <->
    View.candidate imf consequences exp_assets events_filtering_method IM_threshold e.
Proof.
  intros H e. unfold ImFields.filter_events_by_imvalue in H.
  destruct (_ && _); [discriminate |].
  bind_inv H as s0 Hloop. bind_inv H as u Hu. injection H as <-.
  rewrite (stage1_taxonomy_loop _ _ _ _ _ _ _ Hloop e). split; [| by right].
  intros [Hempty | Hc]; [by apply elem_of_empty in Hempty | exact Hc].
Qed.

Lemma candidates_characterized_witness :
  7%Z ∈ ({[ 7%Z ]} : gset Z)
  <-> View.candidate Cases.weak_and_strong_field Fixtures.bridge_cons
        Cases.bridges_at_1_and_2 2 (Some 0.1%Q) 7.
Proof.
  apply (candidates_characterized Fixtures.bridge_cons Cases.weak_and_strong_field
           Cases.bridges_at_1_and_2 2 (Some 0.1%Q) {[ 7%Z ]}).
  vm_compute. reflexivity.
Defined.

(** ** Bounds that do not bind *)

Section Bounds.

Variable geodesic_km : Q * Q -> Q * Q -> res Q.

Lemma truthy_effective (x : option Q) :
  ImFields.truthy (View.effective x) = ImFields.truthy x.
Proof. unfold View.effective. by destruct (ImFields.truthy x) eqn:E. Qed.

Lemma in_range_effective (lo hi : option Q) (x : Q) :
  ImFields.in_range (View.effective lo) (View.effective hi) x
  = ImFields.in_range lo hi x.
Proof.
  unfold ImFields.in_range. rewrite !truthy_effective. unfold View.effective.
  by destruct (ImFields.truthy lo), (ImFields.truthy hi).
Qed.

Lemma filter_iff_ext {A} (P R : A -> Prop) `{!forall x, Decision (P x)}
    `{!forall x, Decision (R x)} (l : list A) :
  (forall x, P x <-> R x) -> filter P l = filter R l.
Proof.
  intros Hiff. induction l as [| x l IH]; [reflexivity |].
  rewrite !filter_cons, IH. specialize (Hiff x).
  destruct (decide (P x)) as [HP | HP], (decide (R x)) as [HR | HR];
    try reflexivity; tauto.
Qed.

Lemma filter_by_distance_effective (min_dist max_dist : option Q)
    (ref_coords : gmap string Q) (rups : list rupture_row) :
  ImFields.filter_by_distance geodesic_km (View.effective min_dist)
    (View.effective max_dist) ref_coords rups
  = ImFields.filter_by_distance geodesic_km min_dist max_dist ref_coords rups.
Proof.
  unfold ImFields.filter_by_distance. rewrite !truthy_effective.
  destruct (_ || _); [| reflexivity].
  destruct (assert_ _ _); simpl; [reflexivity |].
  destruct (of_option (ref_coords !! "lon") _); simpl; [reflexivity |].
  destruct (of_option (ref_coords !! "lat") _); simpl; [reflexivity |].
  destruct (map_res _ rups); simpl; [reflexivity |].
  do 2 f_equal. apply filter_iff_ext. intros rd. by rewrite in_range_effective.
Qed.

Lemma stage1_effective (cons_for_hazard : list (string * taxonomy_cons))
    (imf : imfield) (exp_assets : gmap string (list (string * asset)))
    (IM_threshold : option Q) :
  ImFields.filter_events_by_imvalue cons_for_hazard imf exp_assets
    (if negb (ImFields.truthy (View.effective IM_threshold)) then 1%Z else 2%Z)
    (View.effective IM_threshold)
  = ImFields.filter_events_by_imvalue cons_for_hazard imf exp_assets
      (if negb (ImFields.truthy IM_threshold) then 1%Z else 2%Z) IM_threshold.
Proof.
  rewrite truthy_effective. unfold View.effective.
  destruct (ImFields.truthy IM_threshold) eqn:E; [reflexivity |]. simpl.
  unfold ImFields.filter_events_by_imvalue. rewrite E. simpl.
  assert (Hloop :
    ImFields.collect_events cons_for_hazard imf exp_assets 1 None
    = ImFields.collect_events cons_for_hazard imf exp_assets 1 IM_threshold).
  { unfold ImFields.collect_events. apply for_each_ext. intros [tax tc] s _.
    unfold ImFields.stage1_taxonomy. destruct (assert_ _ _); simpl; [reflexivity |].
    destruct (of_option _ _); simpl; reflexivity. }
  by rewrite Hloop.
Qed.

(** X9. A magnitude bound, a distance bound or an intensity threshold equal
    to 0 acts as if it were not given: the pipeline returns what it
    returns with [None] in its place. *)
Theorem zero_bounds_do_not_bind (imf : imfield)
    (cons_for_hazard : list (string * taxonomy_cons))
    (exp_assets : gmap string (list (string * asset)))
    (min_mag max_mag IM_threshold min_dist max_dist : option Q)
    (ref_coords : gmap string Q) :
  ImFields.filter_events geodesic_km imf cons_for_hazard exp_assets
    min_mag max_mag IM_threshold min_dist max_dist ref_coords
  = ImFields.filter_events geodesic_km imf cons_for_hazard exp_assets
      (View.effective min_mag) (View.effective max_mag) (View.effective IM_threshold)
      (View.effective min_dist) (View.effective max_dist) ref_coords.
Proof.
  unfold ImFields.filter_events. rewrite stage1_effective.
  destruct (ImFields.filter_events_by_imvalue _ _ _ _ _) as [e | s]; [reflexivity |].
  simpl. destruct (ImFields.fiter_imfield_data imf s) as [e | [fe fr]]; [reflexivity |].
  simpl. rewrite filter_by_distance_effective.
  assert (Hmag :
    filter (fun r => ImFields.in_range (View.effective min_mag) (View.effective max_mag)
                       (mag r) = true) fr
    = filter (fun r => ImFields.in_range min_mag max_mag (mag r) = true) fr).
  { apply filter_iff_ext. intros r. by rewrite in_range_effective. }
  by rewrite Hmag.
Qed.

End Bounds.

(** ** The distance stage needs a reference point *)

(** X10. With a distance bound set and no reference coordinates the pipeline
    never returns a result; once stage 1 and the selection of catalog
    rows have gone through, it fails on the assertion that asks for the
    reference point. *)
Theorem distance_needs_reference (geodesic_km : Q * Q -> Q * Q -> res Q)
    (imf : imfield) (cons_for_hazard : list (string * taxonomy_cons))
    (exp_assets : gmap string (list (string * asset)))
    (min_mag max_mag IM_threshold min_dist max_dist : option Q) :
  ImFields.truthy min_dist || ImFields.truthy max_dist = true ->
  (forall ids,
      ImFields.filter_events geodesic_km imf cons_for_hazard exp_assets
        min_mag max_mag IM_threshold min_dist max_dist ∅ <> inr ids)
  /\ (forall s fil,
        ImFields.filter_events_by_imvalue cons_for_hazard imf exp_assets
          (if negb (ImFields.truthy IM_threshold) then 1%Z else 2%Z) IM_threshold
        = inr s ->
        ImFields.fiter_imfield_data imf s = inr fil ->
        ImFields.filter_events geodesic_km imf cons_for_hazard exp_assets
          min_mag max_mag IM_threshold min_dist max_dist ∅
        = inl (AssertionError
                 "filtering the events by distance needs also a reference point")).
Proof.
  intros Hon.
  assert (Hdist : forall rups,
    ImFields.filter_by_distance geodesic_km min_dist max_dist ∅ rups
    = inl (AssertionError
             "filtering the events by distance needs also a reference point")).
  { intros rups. unfold ImFields.filter_by_distance. rewrite Hon.
    by rewrite bool_decide_eq_true_2. }
  split.
  - intros ids H. unfold ImFields.filter_events in H.
    bind_inv H as s Hs. bind_inv H as fil Hfil. destruct fil as [fe fr].
    bind_inv H as rs Hrs. by rewrite Hdist in Hrs.
  - intros s [fe fr] Hs Hfil. unfold ImFields.filter_events.
    rewrite Hs. simpl. rewrite Hfil. simpl. by rewrite Hdist.
Qed.

Lemma distance_needs_reference_witness :
  (forall ids,
      ImFields.filter_events Fixtures.grid_km Fixtures.one_event_field Fixtures.bridge_cons
        Fixtures.two_bridges None None None None (Some 100%Q) ∅ <> inr ids)
  /\ (forall s fil,
        ImFields.filter_events_by_imvalue Fixtures.bridge_cons Fixtures.one_event_field
          Fixtures.two_bridges 1 None = inr s ->
        ImFields.fiter_imfield_data Fixtures.one_event_field s = inr fil ->
        ImFields.filter_events Fixtures.grid_km Fixtures.one_event_field
          Fixtures.bridge_cons Fixtures.two_bridges None None None None (Some 100%Q) ∅
        = inl (AssertionError
                 "filtering the events by distance needs also a reference point")).
Proof.
  apply (distance_needs_reference Fixtures.grid_km Fixtures.one_event_field
           Fixtures.bridge_cons Fixtures.two_bridges None None None None (Some 100%Q)).
  reflexivity.
Defined.

(** ** The catalog rows kept for the events of interest *)

Section KeptRows.

Lemma rows_of_indices {A} (key : A -> Z) (arr : list A) (xs : list Z)
    (idx : list nat) (rows : list A) :
  map_res (fun x => ImFields.list_index x (key <$> arr) 0) xs = inr idx ->
  ImFields.take_rows arr (ImFields.sorted idx) = inr rows ->
  key <$> rows ≡ₚ xs.
Proof.
  intros Hidx Hrows. apply map_res_inr in Hidx. apply take_rows_lookup in Hrows.
  assert (Hperm : ImFields.sorted idx ≡ₚ idx) by apply merge_sort_Permutation.
  destruct (Permutation_Forall2 Hperm Hrows) as (rows' & Hrr & Hall).
  rewrite Hrr. assert (key <$> rows' = xs) as ->; [| reflexivity].
  clear Hrr Hperm Hrows rows. revert rows' Hall.
  induction Hidx as [| x i xs idx Hx _ IH]; intros rows' Hall.
  - inversion Hall. reflexivity.
  - inversion Hall as [| ? r ? rs Hr Hrs]; subst. simpl.
    destruct (list_index_lookup _ _ _ _ Hx) as (j & -> & Hj). simpl in Hr.
    rewrite list_lookup_fmap, Hr in Hj. simpl in Hj. injection Hj as ->.
    f_equal. by apply IH.
Qed.

End KeptRows.

(** X11. [fiter_imfield_data] keeps one event row for each event of interest
    and one rupture row for each kept event: the ids of the kept events
    are the events of interest, and the rupture ids of the kept rupture
    rows are, with repetitions, the rupture ids of the kept events. *)
Theorem kept_rows_per_event (imf : imfield) (s : gset Z)
    (fe : list event_row) (fr : list rupture_row) :
  ImFields.fiter_imfield_data imf s = inr (fe, fr) ->
  ev_id <$> fe ≡ₚ elements s
  /\ rup <$> fr ≡ₚ rup_id <$> fe
  /\ length fe = size s /\ length fr = size s.
Proof.
  intros H. unfold ImFields.fiter_imfield_data in H.
  bind_inv H as idx Hidx. bind_inv H as fe' Hfe. bind_inv H as ridx Hridx.
  bind_inv H as fr' Hfr. injection H as <- <-.
  pose proof (rows_of_indices ev_id _ _ _ _ Hidx Hfe) as Hev.
  pose proof (rows_of_indices rup _ _ _ _ Hridx Hfr) as Hrup.
  split; [exact Hev |]. split; [exact Hrup |].
  assert (Hlen : length fe' = size s).
  { apply Permutation_length in Hev. by rewrite length_fmap in Hev. }
  split; [exact Hlen |].
  apply Permutation_length in Hrup. rewrite !length_fmap in Hrup. congruence.
Qed.

Lemma kept_rows_per_event_witness :
  ev_id <$> events Fixtures.shared_rupture_field ≡ₚ elements ({[ 10%Z; 11%Z ]} : gset Z)
  /\ rup <$> [ {| rup := 3; mag := 5.5%Q; hypo := (0%Q, 0%Q) |};
               {| rup := 3; mag := 5.5%Q; hypo := (0%Q, 0%Q) |} ]
     ≡ₚ rup_id <$> events Fixtures.shared_rupture_field
  /\ length (events Fixtures.shared_rupture_field) = size ({[ 10%Z; 11%Z ]} : gset Z)
  /\ length [ {| rup := 3; mag := 5.5%Q; hypo := (0%Q, 0%Q) |};
              {| rup := 3; mag := 5.5%Q; hypo := (0%Q, 0%Q) |} ]
     = size ({[ 10%Z; 11%Z ]} : gset Z).
Proof.
  apply (kept_rows_per_event Fixtures.shared_rupture_field {[ 10%Z; 11%Z ]}).
  vm_compute. reflexivity.
Defined.

Lemma filter_events_sound_witness :
  exists s,
    ImFields.filter_events_by_imvalue Fixtures.bridge_cons Fixtures.shared_rupture_field
      Fixtures.two_bridges 1 None = inr s
    /\ s <> ∅
    /\ forall e, e ∈ [10%Z; 10%Z] ->
         e ∈ s
         /\ Shape.qualifies Fixtures.grid_km Fixtures.shared_rupture_field
              (Some 4%Q) None None None ∅ e.
Proof.
  apply (filter_events_sound Fixtures.grid_km Fixtures.shared_rupture_field
           Fixtures.bridge_cons Fixtures.two_bridges (Some 4%Q) None None None None ∅
           [10%Z; 10%Z]).
  vm_compute. reflexivity.
Defined.

Lemma returned_event_is_first_of_rupture_witness :
  exists s fe fr,
    ImFields.filter_events_by_imvalue Fixtures.bridge_cons Fixtures.shared_rupture_field
      Fixtures.two_bridges 1 None = inr s
    /\ ImFields.fiter_imfield_data Fixtures.shared_rupture_field s = inr (fe, fr)
    /\ forall e, e ∈ [10%Z; 10%Z] ->
         exists j row,
           fe !! j = Some row /\ ev_id row = e
           /\ forall j' row', j' < j -> fe !! j' = Some row' -> rup_id row' <> rup_id row.
Proof.
  apply (returned_event_is_first_of_rupture Fixtures.grid_km
           Fixtures.shared_rupture_field Fixtures.bridge_cons Fixtures.two_bridges
           (Some 4%Q) None None None None ∅ [10%Z; 10%Z]).
  vm_compute. reflexivity.
Defined.

(** ** The site id of an asset *)

Lemma smallest_least (l : list Z) (m : Z) :
  Exposure.smallest l = inr m -> m ∈ l /\ forall x, x ∈ l -> (m <= x)%Z.
Proof.
  destruct l as [| z l]; [discriminate |]. simpl. intros [= <-].
  assert (Hfold : forall (l : list Z) (z : Z),
             (fold_left Z.min l z = z \/ fold_left Z.min l z ∈ l)
             /\ (fold_left Z.min l z <= z)%Z
             /\ forall x, x ∈ l -> (fold_left Z.min l z <= x)%Z).
  { clear. induction l as [| y l IH]; intros z; simpl.
    - split; [by left |]. split; [lia |]. intros x Hx. by apply elem_of_nil in Hx.
    - destruct (IH (Z.min z y)) as ([Heq | Hin] & Hle & Hall).
      + split; [| split].
        * rewrite Heq. destruct (Z.min_spec z y) as [[_ ->] | [_ ->]];
            [by left | right; apply elem_of_cons; by left].
        * lia.
        * intros x Hx. apply elem_of_cons in Hx as [-> | Hx]; [lia | by apply Hall].
      + split; [right; apply elem_of_cons; by right |]. split; [lia |].
        intros x Hx. apply elem_of_cons in Hx as [-> | Hx]; [lia | by apply Hall]. }
  destruct (Hfold l z) as ([Heq | Hin] & Hle & Hall).
  - split; [rewrite Heq; apply elem_of_cons; by left |].
    intros x Hx. apply elem_of_cons in Hx as [-> | Hx]; [exact Hle | by apply Hall].
  - split; [apply elem_of_cons; by right |].
    intros x Hx. apply elem_of_cons in Hx as [-> | Hx]; [exact Hle | by apply Hall].
Qed.

(** X14. Where site ids of exposure and hazard coincide: a point asset
    whose [sid] is a single integer, not a list, fails with [TypeError]
    on [len]; a point asset with a one-element [sid] list resolves to
    that element, whatever its control point; a point asset with any
    other [sid] list resolves to its control point and, without one, to
    the least element of the list; an area asset resolves to its control
    point and fails with [KeyError] without one; any other asset type
    fails. *)
Theorem direct_site_of_asset (geodesic_km : Q * Q -> Q * Q -> res Q)
    (imfield_sites site_mtdata : list site_row) (max_allowable_dist : option Q)
    (loc : location) (asset_type : string) :
  (lower asset_type = "point" ->
     (forall z, loc_sid loc = SidOne z ->
        Annot.resolve geodesic_km imfield_sites true site_mtdata max_allowable_dist
          loc asset_type = inl TypeError)
     /\ (forall z, loc_sid loc = SidMany [z] ->
        Annot.resolve geodesic_km imfield_sites true site_mtdata max_allowable_dist
          loc asset_type = inr z)
     /\ (forall l, loc_sid loc = SidMany l -> length l <> 1 ->
         forall c, hzrd_ctrl_pnt loc = Some c ->
           Annot.resolve geodesic_km imfield_sites true site_mtdata max_allowable_dist
             loc asset_type = inr c)
     /\ (forall l, loc_sid loc = SidMany l -> length l <> 1 ->
         hzrd_ctrl_pnt loc = None ->
         forall z, z ∈ l ->
           exists m,
             Annot.resolve geodesic_km imfield_sites true site_mtdata max_allowable_dist
               loc asset_type = inr m
             /\ m ∈ l /\ forall x, x ∈ l -> (m <= x)%Z))
  /\ (lower asset_type = "area" ->
      Annot.resolve geodesic_km imfield_sites true site_mtdata max_allowable_dist
        loc asset_type
      = of_option (hzrd_ctrl_pnt loc) (KeyError "hzrd_ctrl_pnt"))
  /\ (lower asset_type <> "point" -> lower asset_type <> "area" ->
      Annot.resolve geodesic_km imfield_sites true site_mtdata max_allowable_dist
        loc asset_type = inl NameError).
Proof.
  unfold Annot.resolve, Exposure.find_asset_sid. split; [| split].
  - intros ->. simpl. split; [| split; [| split]].
    + intros z ->. reflexivity.
    + intros z ->. reflexivity.
    + intros l -> Hlen c ->. destruct (Nat.eqb_spec (length l) 1); [lia |].
      reflexivity.
    + intros l -> Hlen -> z Hz. destruct (Nat.eqb_spec (length l) 1); [lia |].
      destruct (Exposure.smallest l) as [e | m] eqn:Hm.
      * destruct l; [by apply elem_of_nil in Hz | discriminate].
      * exists m. split; [reflexivity |]. by apply smallest_least.
  - intros Harea. destruct (String.eqb_spec (lower asset_type) "point") as [Hp | _];
      [rewrite Harea in Hp; discriminate |].
    rewrite Harea. simpl. by destruct (hzrd_ctrl_pnt loc).
  - intros Hp Ha.
    destruct (String.eqb_spec (lower asset_type) "point"); [done |].
    destruct (String.eqb_spec (lower asset_type) "area"); [done |]. reflexivity.
Qed.

Lemma direct_site_of_asset_witness :
  exists m,
    Annot.resolve Fixtures.grid_km [] true [] None
      {| loc_sid := SidMany [12%Z; 5%Z; 9%Z]; hzrd_ctrl_pnt := None;
         hazard_sid := None |}
      "Point" = inr m
    /\ m ∈ [12%Z; 5%Z; 9%Z] /\ forall x, x ∈ [12%Z; 5%Z; 9%Z] -> (m <= x)%Z.
Proof.
  apply (proj2 (proj2 (proj2 (proj1 (direct_site_of_asset Fixtures.grid_km [] [] None
           {| loc_sid := SidMany [12%Z; 5%Z; 9%Z]; hzrd_ctrl_pnt := None;
              hazard_sid := None |}
           "Point") eq_refl))) [12%Z; 5%Z; 9%Z] eq_refl ltac:(simpl; lia) eq_refl 12%Z).
  apply elem_of_cons. by left.
Defined.

(** ** What [exposure_by_taxonomy] returns *)

Section Grouping.

Variable geodesic_km : Q * Q -> Q * Q -> res Q.
Variables (imfield_sites site_mtdata : list site_row).
Variables (hazard2exppoints_consistency : bool) (max_allowable_dist : option Q).

Lemma assoc_update_fresh {V} (k : string) (v : V) (d : list (string * V)) :
  k ∉ d.*1 -> Exposure.assoc_update k v d = d ++ [(k, v)].
Proof.
  induction d as [| [k' v'] d IH]; simpl; intros Hk; [reflexivity |].
  apply not_elem_of_cons in Hk as [Hne Hk].
  destruct (String.eqb_spec k' k) as [-> | _]; [done |]. by rewrite IH.
Qed.

(** The entry of the taxonomy after the loop over its assets. *)
Lemma asset_loop_entry (tax_key : string) (l entry : list (string * Exposure.asset_obj))
    (h h' : gmap Exposure.ref location)
    (bt bt' : gmap string (list (string * Exposure.asset_obj))) :
  NoDup ((entry ++ l).*1) ->
  bt !! tax_key = Some entry ->
  for_each l (Exposure.asset_step geodesic_km imfield_sites hazard2exppoints_consistency
                site_mtdata max_allowable_dist tax_key) (h, bt) = inr (h', bt') ->
  bt' = <[tax_key := entry ++ l]> bt.
Proof.
  revert entry h bt. induction l as [| [name obj] l IH]; intros entry h bt Hnd He H;
    simpl in H.
  - injection H as <- <-. rewrite app_nil_r. by rewrite insert_id.
  - bind_inv H as st1 H1. destruct st1 as [h1 bt1].
    destruct (asset_step_resolve _ _ _ _ _ _ _ _ _ _ _ _ H1)
      as (loc & z & entry' & _ & _ & _ & He' & ->).
    assert (entry' = entry) as -> by congruence.
    assert (Hfresh : name ∉ entry.*1).
    { rewrite fmap_app in Hnd. apply NoDup_app in Hnd as (_ & Hdisj & _).
      intros Hin. apply (Hdisj name Hin). simpl. apply elem_of_cons. by left. }
    rewrite (assoc_update_fresh _ _ _ Hfresh) in H.
    assert (Hnd' : NoDup ((entry ++ [(name, obj)]) ++ l).*1) by (by rewrite <- app_assoc).
    rewrite (IH (entry ++ [(name, obj)]) h1 _ Hnd' (lookup_insert_eq _ _ _) H).
    rewrite insert_insert_eq. by rewrite <- app_assoc.
Qed.

Lemma taxonomy_loop_entries (exp : list (string * Exposure.asset_obj))
    (cons : list (string * taxonomy_cons)) (st st' : Exposure.state) :
  NoDup exp.*1 ->
  for_each cons
    (Exposure.taxonomy_step geodesic_km exp imfield_sites hazard2exppoints_consistency
       site_mtdata max_allowable_dist) st = inr st' ->
  forall tax,
    snd st' !! tax
    = if decide (tax ∈ cons.*1) then Some (Exposure.get_assets_by_taxonomy exp tax)
      else snd st !! tax.
Proof.
  intros Hnd. revert st. induction cons as [| [tax_key tc] cons IH]; intros st H tax;
    simpl in H.
  - injection H as <-. rewrite decide_False; [reflexivity |]. apply not_elem_of_nil.
  - bind_inv H as st1 H1. rewrite (IH _ H tax). clear IH H.
    unfold Exposure.taxonomy_step in H1. simpl in H1. destruct st1 as [h1 bt1].
    assert (Hsub : NoDup (([] ++ Exposure.get_assets_by_taxonomy exp tax_key).*1)).
    { simpl. unfold Exposure.get_assets_by_taxonomy.
      eapply sublist_NoDup; [exact Hnd |]. apply fmap_sublist, sublist_filter. }
    rewrite (asset_loop_entry tax_key _ [] _ _ _ _ Hsub (lookup_insert_eq _ _ _) H1).
    simpl. rewrite insert_insert_eq.
    destruct (decide (tax ∈ cons.*1)) as [Hin | Hnin].
    + rewrite decide_True; [reflexivity |]. simpl. apply elem_of_cons. by right.
    + destruct (decide (tax = tax_key)) as [-> | Hne].
      * rewrite lookup_insert_eq. rewrite decide_True; [reflexivity |].
        simpl. apply elem_of_cons. by left.
      * rewrite lookup_insert_ne by done. rewrite decide_False; [reflexivity |].
        simpl. intros Hin. apply elem_of_cons in Hin as [? | ?]; done.
Qed.

End Grouping.

(** X15. With pairwise distinct asset names, [exposure_by_taxonomy] returns,
    for every taxonomy of the consequence model, exactly the caller's
    assets of that taxonomy in the order of the exposure model, and no
    entry for any other taxonomy. *)
Theorem assets_grouped_by_taxonomy (geodesic_km : Q * Q -> Q * Q -> res Q)
    (h : gmap Exposure.ref location) (exp_assets : list (string * Exposure.asset_obj))
    (cons_for_hazard : list (string * taxonomy_cons)) (imf : imfield)
    (hazard2exppoints_consistency : bool) (site_mtdata : list site_row)
    (max_allowable_dist : option Q) (st : Exposure.state) :
  NoDup exp_assets.*1 ->
  Exposure.exposure_by_taxonomy geodesic_km h exp_assets cons_for_hazard imf
    hazard2exppoints_consistency site_mtdata max_allowable_dist = inr st ->
  forall tax,
    snd st !! tax
    = if decide (tax ∈ cons_for_hazard.*1)
      then Some (filter (fun a => Exposure.o_taxonomy (snd a) = tax) exp_assets)
      else None.
Proof.
  intros Hnd H tax. unfold Exposure.exposure_by_taxonomy in H.
  rewrite (taxonomy_loop_entries _ _ _ _ _ _ _ _ _ Hnd H tax). simpl.
  by rewrite lookup_empty.
Qed.

Lemma assets_grouped_by_taxonomy_witness :
  snd (({[ 0 := {| loc_sid := SidMany [1%Z]; hzrd_ctrl_pnt := None;
                   hazard_sid := Some 1%Z |} ]},
        {[ "bridge" := Fixtures.caller_assets ]}) : Exposure.state) !! "bridge"
  = if decide ("bridge" ∈ Fixtures.bridge_cons.*1)
    then Some (filter (fun a => Exposure.o_taxonomy (snd a) = "bridge")
                 Fixtures.caller_assets)
    else None.
Proof.
  apply (assets_grouped_by_taxonomy Fixtures.grid_km Fixtures.caller_store
           Fixtures.caller_assets Fixtures.bridge_cons Fixtures.one_event_field
           true [] None).
  - repeat constructor. apply not_elem_of_nil.
  - vm_compute. reflexivity.
Defined.

Section Resolved.

Variable geodesic_km : Q * Q -> Q * Q -> res Q.
Variables (imfield_sites site_mtdata : list site_row).
Variables (hazard2exppoints_consistency : bool) (max_allowable_dist : option Q).
Variable h : gmap Exposure.ref location.
Variable exp : list (string * Exposure.asset_obj).
Hypothesis distinct_locations : NoDup ((Exposure.o_location ∘ snd) <$> exp).

Local Abbreviation R :=
  (Annot.resolved geodesic_km imfield_sites hazard2exppoints_consistency site_mtdata
     max_allowable_dist h).
Local Abbreviation fresh_or_resolved :=
  (Annot.fresh_or_resolved geodesic_km imfield_sites hazard2exppoints_consistency
     site_mtdata max_allowable_dist h exp).

Lemma same_location_same_asset (a b : string * Exposure.asset_obj) :
  a ∈ exp -> b ∈ exp -> Exposure.o_location (snd a) = Exposure.o_location (snd b) ->
  a = b.
Proof.
  revert distinct_locations.
  induction exp as [| x l IH]; intros Hnd Ha Hb Heq; [by apply elem_of_nil in Ha |].
  rewrite fmap_cons in Hnd. apply NoDup_cons in Hnd as [Hx Hnd].
  apply elem_of_cons in Ha as [-> | Ha], Hb as [-> | Hb]; [reflexivity | | | by apply IH].
  - exfalso. apply Hx. apply list_elem_of_fmap. exists b. by split.
  - exfalso. apply Hx. apply list_elem_of_fmap. exists a. by split.
Qed.

Lemma resolve_with_hazard_sid (loc : location) (z : Z) (asset_type : string) :
  Annot.resolve geodesic_km imfield_sites hazard2exppoints_consistency site_mtdata
    max_allowable_dist (Annot.with_hazard_sid loc z) asset_type
  = Annot.resolve geodesic_km imfield_sites hazard2exppoints_consistency site_mtdata
      max_allowable_dist loc asset_type.
Proof. reflexivity. Qed.

Lemma asset_step_resolved (tax_key : string) (a : string * Exposure.asset_obj)
    (st st' : Exposure.state) :
  a ∈ exp ->
  fresh_or_resolved (fst st) ->
  Exposure.asset_step geodesic_km imfield_sites hazard2exppoints_consistency
    site_mtdata max_allowable_dist tax_key a st = inr st' ->
  fresh_or_resolved (fst st')
  /\ R (fst st') (snd a)
  /\ forall name obj, (name, obj) ∈ exp -> R (fst st) obj -> R (fst st') obj.
Proof.
  intros Ha Hinv H. destruct a as [n0 obj0], st as [hc bt], st' as [h1 bt1].
  destruct (asset_step_resolve _ _ _ _ _ _ _ _ _ _ _ _ H)
    as (loc_cur & z & entry & Hcur & Hres & -> & _ & _).
  simpl in *.
  assert (R0 : R (<[Exposure.o_location obj0 := Annot.with_hazard_sid loc_cur z]> hc) obj0).
  { destruct (Hinv n0 obj0 Ha) as [Hsame | (loc & z' & Hloc & Hz' & Hc)].
    - exists loc_cur, z. split; [congruence |]. split; [exact Hres |].
      apply lookup_insert_eq.
    - exists loc, z. rewrite Hcur in Hc. injection Hc as ->.
      rewrite resolve_with_hazard_sid in Hres.
      split; [exact Hloc |]. split; [exact Hres |]. by rewrite lookup_insert_eq. }
  assert (Hother : forall name obj, (name, obj) ∈ exp ->
            Exposure.o_location obj = Exposure.o_location obj0 -> obj = obj0).
  { intros name obj Hin Heq.
    by injection (same_location_same_asset (name, obj) (n0, obj0) Hin Ha Heq). }
  split; [| split; [exact R0 |]].
  - intros name obj Hin.
    destruct (decide (Exposure.o_location obj = Exposure.o_location obj0)) as [Heq | Hne].
    + right. by rewrite (Hother name obj Hin Heq).
    + destruct (Hinv name obj Hin) as [Hsame | (loc & z' & Hloc & Hz' & Hc)].
      * left. by rewrite lookup_insert_ne.
      * right. exists loc, z'. by rewrite lookup_insert_ne.
  - intros name obj Hin (loc & z' & Hloc & Hz' & Hc).
    destruct (decide (Exposure.o_location obj = Exposure.o_location obj0)) as [Heq | Hne].
    + by rewrite (Hother name obj Hin Heq).
    + exists loc, z'. by rewrite lookup_insert_ne.
Qed.

Lemma asset_loop_resolved (tax_key : string) (l : list (string * Exposure.asset_obj))
    (st st' : Exposure.state) :
  Forall (fun a => a ∈ exp) l ->
  fresh_or_resolved (fst st) ->
  for_each l (Exposure.asset_step geodesic_km imfield_sites hazard2exppoints_consistency
                site_mtdata max_allowable_dist tax_key) st = inr st' ->
  fresh_or_resolved (fst st')
  /\ (forall name obj, (name, obj) ∈ exp -> R (fst st) obj -> R (fst st') obj)
  /\ forall a, a ∈ l -> R (fst st') (snd a).
Proof.
  intros Hl. revert st. induction Hl as [| a l Ha Hl IH]; intros st Hinv H; simpl in H.
  - injection H as <-. split; [exact Hinv |]. split; [done |].
    intros a Ha. by apply elem_of_nil in Ha.
  - bind_inv H as st1 H1.
    destruct (asset_step_resolved _ _ _ _ Ha Hinv H1) as (Hinv1 & Ra & Hkeep1).
    destruct (IH _ Hinv1 H) as (Hinv' & Hkeep & Hall).
    split; [exact Hinv' |]. split.
    + intros name obj Hin Hr. by apply (Hkeep name), (Hkeep1 name).
    + intros b Hb. apply elem_of_cons in Hb as [-> | Hb]; [| by apply Hall].
      destruct a as [n obj]. by apply (Hkeep n).
Qed.

Lemma taxonomy_loop_resolved (cons : list (string * taxonomy_cons))
    (st st' : Exposure.state) :
  fresh_or_resolved (fst st) ->
  for_each cons
    (Exposure.taxonomy_step geodesic_km exp imfield_sites hazard2exppoints_consistency
       site_mtdata max_allowable_dist) st = inr st' ->
  fresh_or_resolved (fst st')
  /\ (forall name obj, (name, obj) ∈ exp -> R (fst st) obj -> R (fst st') obj)
  /\ forall name obj, (name, obj) ∈ exp -> Exposure.o_taxonomy obj ∈ cons.*1 ->
       R (fst st') obj.
Proof.
  revert st. induction cons as [| [tax_key tc] cons IH]; intros st Hinv H; simpl in H.
  - injection H as <-. split; [exact Hinv |]. split; [done |].
    intros name obj _ Hin. by apply elem_of_nil in Hin.
  - bind_inv H as st1 H1. unfold Exposure.taxonomy_step in H1. simpl in H1.
    assert (Hl : Forall (fun a => a ∈ exp) (Exposure.get_assets_by_taxonomy exp tax_key)).
    { apply Forall_forall. intros a Ha. unfold Exposure.get_assets_by_taxonomy in Ha.
      by apply list_elem_of_filter in Ha as [_ ?]. }
    destruct (asset_loop_resolved tax_key _ (fst st, <[tax_key := []]> (snd st)) _
                Hl Hinv H1) as (Hinv1 & Hkeep1 & Hall1).
    destruct (IH _ Hinv1 H) as (Hinv' & Hkeep & Hall).
    split; [exact Hinv' |]. split.
    + intros name obj Hin Hr. by apply (Hkeep name), (Hkeep1 name).
    + intros name obj Hin Htax. simpl in Htax.
      destruct (decide (Exposure.o_taxonomy obj ∈ cons.*1)) as [Hc | Hnc];
        [by apply (Hall name) |].
      apply elem_of_cons in Htax as [Htax | Htax]; [| done].
      apply (Hkeep name obj Hin). apply (Hall1 (name, obj)).
      apply list_elem_of_filter. by split.
Qed.

End Resolved.

(** X16. When [exposure_by_taxonomy] returns and no two caller assets share a location dict, the location
    dict of every caller asset whose taxonomy is a key of the consequence
    model is, afterwards, the dict the caller passed with [hazard_sid] set
    to the site id the loop body computes from that original dict and the
    asset's type: no other key of it changed, and a later asset's update
    never overwrote it. *)
Theorem hazard_sid_is_resolved_site (geodesic_km : Q * Q -> Q * Q -> res Q)
    (h : gmap Exposure.ref location) (exp_assets : list (string * Exposure.asset_obj))
    (cons_for_hazard : list (string * taxonomy_cons)) (imf : imfield)
    (hazard2exppoints_consistency : bool) (site_mtdata : list site_row)
    (max_allowable_dist : option Q)
    (h' : gmap Exposure.ref location)
    (by_tax : gmap string (list (string * Exposure.asset_obj))) :
  NoDup ((Exposure.o_location ∘ snd) <$> exp_assets) ->
  Exposure.exposure_by_taxonomy geodesic_km h exp_assets cons_for_hazard imf
    hazard2exppoints_consistency site_mtdata max_allowable_dist = inr (h', by_tax) ->
  forall name obj, (name, obj) ∈ exp_assets ->
    Exposure.o_taxonomy obj ∈ cons_for_hazard.*1 ->
    Annot.resolved geodesic_km (sitecol imf) hazard2exppoints_consistency site_mtdata
      max_allowable_dist h h' obj.
Proof.
  intros Hnd H name obj Hin Htax. unfold Exposure.exposure_by_taxonomy in H.
  destruct (taxonomy_loop_resolved geodesic_km (sitecol imf) site_mtdata
              hazard2exppoints_consistency max_allowable_dist h exp_assets Hnd
              cons_for_hazard (h, ∅) (h', by_tax)) as (_ & _ & Hall); [| exact H |].
  - intros n o _. by left.
  - exact (Hall name obj Hin Htax).
Qed.

Lemma hazard_sid_is_resolved_site_witness :
  Annot.resolved Fixtures.grid_km (sitecol Fixtures.one_event_field) true [] None
    Fixtures.caller_store
    {[ 0 := {| loc_sid := SidMany [1%Z]; hzrd_ctrl_pnt := None; hazard_sid := Some 1%Z |} ]}
    Fixtures.caller_asset.
Proof.
  apply (hazard_sid_is_resolved_site Fixtures.grid_km Fixtures.caller_store
           Fixtures.caller_assets Fixtures.bridge_cons Fixtures.one_event_field
           true [] None _ {[ "bridge" := Fixtures.caller_assets ]}) with (name := "a1").
  - repeat constructor. apply not_elem_of_nil.
  - vm_compute. reflexivity.
  - apply list_elem_of_singleton. reflexivity.
  - apply list_elem_of_lookup. exists 0. reflexivity.
Defined.

(** ** The nearest hazard site *)

(** X17. Where site ids of exposure and hazard differ, an asset gets a site id
    only when its own site id names exactly one row of the site metadata
    and an allowable distance is given; the id is that of the first
    hazard site at the least distance from that row, and this distance is
    strictly below the allowable one. *)
Theorem nearest_site_assigned (geodesic_km : Q * Q -> Q * Q -> res Q)
    (imfield_sites site_mtdata : list site_row) (max_allowable_dist : option Q)
    (s : Exposure.sid_value) (z : Z) :
  Exposure.nearest_hazard_sid geodesic_km imfield_sites site_mtdata
    max_allowable_dist s = inr z ->
  exists zs c m geo_dist i d r,
    Exposure.sid_scalar s = inr zs
    /\ filter (fun r => sids r = zs) site_mtdata = [c]
    /\ max_allowable_dist = Some m
    /\ Forall2 (fun r d => geodesic_km (site_lat r, site_lon r) (site_lat c, site_lon c)
                           = inr d) imfield_sites geo_dist
    /\ imfield_sites !! i = Some r /\ z = sids r
    /\ geo_dist !! i = Some d /\ (d < m)%Q
    /\ (forall j dj, geo_dist !! j = Some dj -> (d <= dj)%Q)
    /\ (forall j dj, j < i -> geo_dist !! j = Some dj -> (d < dj)%Q).
Proof.
  intros H. unfold Exposure.nearest_hazard_sid in H.
  bind_inv H as zs Hzs. bind_inv H as u Hlen. apply assert_inr in Hlen.
  bind_inv H as c Hc. apply of_option_inr in Hc.
  bind_inv H as geo_dist Hdist. apply map_res_inr in Hdist.
  bind_inv H as i Hi. bind_inv H as d Hd. apply of_option_inr in Hd.
  bind_inv H as m Hm. apply of_option_inr in Hm.
  bind_inv H as u' Hlt. apply assert_inr, Qlt_bool_iff in Hlt.
  bind_inv H as r Hr. apply of_option_inr in Hr. injection H as <-.
  destruct (argmin_first_min _ _ Hi) as (k & Hk & Hmin & Hfirst).
  rewrite Hd in Hk. injection Hk as <-.
  exists zs, c, m, geo_dist, i, d, r.
  split; [exact Hzs |]. split.
  { destruct (filter _ site_mtdata) as [| c0 [| c1 l]]; try discriminate.
    simpl in Hc. by injection Hc as ->. }
  repeat split; auto.
Qed.

Lemma nearest_site_assigned_witness :
  exists zs c m geo_dist i d r,
    Exposure.sid_scalar (Exposure.SidInt 1) = inr zs
    /\ filter (fun r => sids r = zs) Fixtures.far_site_mtdata = [c]
    /\ Some 8%Q = Some m
    /\ Forall2 (fun r d => Fixtures.grid_km (site_lat r, site_lon r)
                             (site_lat c, site_lon c) = inr d)
         (sitecol Fixtures.one_event_field) geo_dist
    /\ sitecol Fixtures.one_event_field !! i = Some r /\ 1%Z = sids r
    /\ geo_dist !! i = Some d /\ (d < m)%Q
    /\ (forall j dj, geo_dist !! j = Some dj -> (d <= dj)%Q)
    /\ (forall j dj, j < i -> geo_dist !! j = Some dj -> (d < dj)%Q).
Proof.
  apply (nearest_site_assigned Fixtures.grid_km (sitecol Fixtures.one_event_field)
           Fixtures.far_site_mtdata (Some 8%Q) (Exposure.SidInt 1) 1%Z).
  vm_compute. reflexivity.
Defined.

(** ** The consequence file grouped by hazard *)

Lemma hash_key_taxonomy (c : ConsFile.record) (v : value) (t : ConsFile.key) :
  c !! "asset_taxonomy" = Some v -> ConsFile.hash_key v = inr t ->
  ConsFile.taxonomy_of c = Some t.
Proof.
  intros Hv Ht. unfold ConsFile.taxonomy_of, ConsFile.record in *. rewrite Hv.
  destruct v as [x | s | |]; simpl in Ht; try discriminate; by injection Ht as <-.
Qed.

Lemma taxonomy_hash_key (c : ConsFile.record) (t : ConsFile.key) :
  ConsFile.taxonomy_of c = Some t ->
  exists v, c !! "asset_taxonomy" = Some v /\ ConsFile.hash_key v = inr t.
Proof.
  unfold ConsFile.taxonomy_of, ConsFile.record in *. intros Ht.
  destruct (c !! "asset_taxonomy") as [v |]; [| discriminate].
  exists v. split; [reflexivity |].
  destruct v as [x | s | |]; try discriminate; by injection Ht as <-.
Qed.

Lemma update_fresh {V} (k : ConsFile.key) (v : V) (d : list (ConsFile.key * V)) :
  k ∉ d.*1 -> ConsFile.update k v d = d ++ [(k, v)].
Proof.
  induction d as [| [k' v'] d IH]; simpl; intros Hk; [reflexivity |].
  apply not_elem_of_cons in Hk as [Hne Hk].
  destruct (decide (k' = k)) as [-> | _]; [done |]. by rewrite IH.
Qed.

Lemma check_taxonomy_loop (l : list ConsFile.record) (refs refs' : list ConsFile.key) :
  for_each l (ConsFile.check_taxonomy true) refs = inr refs' ->
  exists taxs,
    Forall2 (fun c t => ConsFile.taxonomy_of c = Some t) l taxs
    /\ NoDup taxs /\ (forall t, t ∈ taxs -> t ∉ refs).
Proof.
  revert refs. induction l as [| c l IH]; intros refs H; simpl in H.
  - exists []. split; [constructor |]. split; [constructor |].
    intros t Ht. by apply elem_of_nil in Ht.
  - bind_inv H as refs1 H1. unfold ConsFile.check_taxonomy in H1.
    bind_inv H1 as v Hv. apply of_option_inr in Hv.
    bind_inv H1 as t Ht. simpl in H1.
    destruct (bool_decide (t ∈ refs)) eqn:E; [discriminate |].
    apply bool_decide_eq_false in E. simpl in H1. injection H1 as <-.
    destruct (IH _ H) as (taxs & Hall & Hnd & Hfresh).
    exists (t :: taxs). split; [constructor; [by eapply hash_key_taxonomy | exact Hall] |].
    split.
    + constructor; [| exact Hnd]. intros Hin. apply (Hfresh t Hin).
      apply elem_of_cons. by left.
    + intros t' Ht'. apply elem_of_cons in Ht' as [-> | Ht']; [exact E |].
      intros Hr. apply (Hfresh t' Ht'). apply elem_of_cons. by right.
Qed.

Lemma kept_under_taxonomies (haz : string) (l : list ConsFile.record) :
  (omap (ConsFile.kept_under haz) l).*1 ⊆ omap ConsFile.taxonomy_of l.
Proof.
  induction l as [| c l IH]; [done |]. simpl. unfold ConsFile.kept_under at 1.
  destruct (ConsFile.taxonomy_of c) as [t |] eqn:Et; simpl; [| exact IH].
  destruct (c !! "hazard_type") as [[| hz | |] |];
    try (by apply list_subseteq_cons).
  destruct (decide (hz = haz)); [| by apply list_subseteq_cons].
  simpl. intros x Hx. apply elem_of_cons in Hx as [-> | Hx];
    apply elem_of_cons; [by left | right; by apply IH].
Qed.

Lemma group_loop (H0 : list string) (l pre : list ConsFile.record)
    (bh bh' : ConsFile.grouped) :
  Forall (fun c => is_Some (ConsFile.taxonomy_of c)) l ->
  NoDup (omap ConsFile.taxonomy_of (pre ++ l)) ->
  (forall haz, bh !! haz = if decide (haz ∈ H0)
                           then Some (omap (ConsFile.kept_under haz) pre) else None) ->
  for_each l ConsFile.group_step bh = inr bh' ->
  Forall (fun c => is_Some (c !! "hazard_type")) l
  /\ forall haz, bh' !! haz = if decide (haz ∈ H0)
                              then Some (omap (ConsFile.kept_under haz) (pre ++ l))
                              else None.
Proof.
  revert pre bh. induction l as [| c l IH]; intros pre bh Htax Hnd Hinv H; simpl in H.
  - injection H as <-. split; [constructor |]. by rewrite app_nil_r.
  - bind_inv H as bh1 H1. apply Forall_cons in Htax as [[t Ht] Htax].
    replace (pre ++ c :: l) with ((pre ++ [c]) ++ l) in * by by rewrite <- app_assoc.
    assert (Hfresh : t ∉ omap ConsFile.taxonomy_of pre).
    { rewrite !omap_app in Hnd. apply NoDup_app in Hnd as [Hnd _].
      apply NoDup_app in Hnd as (_ & Hdis & _). intros Hin. apply (Hdis t Hin).
      simpl. rewrite Ht. apply list_elem_of_singleton. reflexivity. }
    assert (Hty : is_Some (c !! "hazard_type")
                  /\ forall haz, bh1 !! haz
                       = if decide (haz ∈ H0)
                         then Some (omap (ConsFile.kept_under haz) (pre ++ [c]))
                         else None).
    { unfold ConsFile.group_step in H1.
      destruct (taxonomy_hash_key c t Ht) as (v & Ec & Hv).
      unfold ConsFile.record, ConsFile.grouped in *. cbv zeta in H1.
      rewrite lookup_delete_ne in H1 by done.
      rewrite Ec in H1. simpl in H1.
      assert (Hk : forall haz, ConsFile.kept_under haz c
                    = match c !! "hazard_type" with
                      | Some (VStr hz) =>
                          if decide (hz = haz)
                          then Some (t, delete "hazard_type" (delete "asset_taxonomy" c))
                          else None
                      | _ => None
                      end).
      { intros haz. unfold ConsFile.kept_under. by rewrite Ht. }
      destruct (c !! "hazard_type") as [[| hz | |] |] eqn:Eh; simpl in H1;
        try discriminate.
      - injection H1 as <-. split; [by eexists |]. intros haz.
        rewrite omap_app. simpl. rewrite Hk, app_nil_r. apply Hinv.
      - split; [by eexists |]. intros haz. rewrite omap_app. simpl. rewrite Hk.
        pose proof (Hinv hz) as Hhz.
        destruct (bh !! hz) as [d |] eqn:Ed.
        + rewrite Hv in H1. simpl in H1. injection H1 as <-.
          destruct (decide (hz ∈ H0)) as [Hin | Hnin]; [| discriminate].
          injection Hhz as ->.
          destruct (decide (hz = haz)) as [-> | Hne].
          * rewrite lookup_insert_eq. destruct (decide (haz ∈ H0)); [| done].
            f_equal. apply update_fresh. intros Hd. apply Hfresh.
            by apply (kept_under_taxonomies haz pre).
          * rewrite lookup_insert_ne by done. rewrite app_nil_r. apply Hinv.
        + injection H1 as <-.
          destruct (decide (hz = haz)) as [-> | Hne].
          * rewrite Ed. destruct (decide (haz ∈ H0)); [discriminate | reflexivity].
          * rewrite app_nil_r. apply Hinv. }
    destruct Hty as [Hty Hinv1].
    destruct (IH (pre ++ [c]) bh1 Htax Hnd Hinv1 H) as [Hall Hres].
    split; [by constructor | exact Hres].
Qed.

Lemma empty_groups_lookup (hazard : ConsFile.hazard_arg) (haz : string) :
  ConsFile.empty_groups hazard !! haz
  = if decide (haz ∈ ConsFile.hazards hazard) then Some [] else None.
Proof.
  unfold ConsFile.empty_groups, ConsFile.grouped, ConsFile.record.
  induction (ConsFile.hazards hazard) as [| h0 l IH].
  - rewrite fmap_nil, list_to_map_nil, lookup_empty.
    destruct (decide (haz ∈ [])) as [Hin | _]; [| done].
    by apply elem_of_nil in Hin.
  - rewrite fmap_cons, list_to_map_cons.
    destruct (decide (h0 = haz)) as [-> | Hne].
    + rewrite lookup_insert_eq. destruct (decide (haz ∈ haz :: l)) as [_ | Hn]; [done |].
      exfalso. apply Hn. apply elem_of_cons. by left.
    + rewrite lookup_insert_ne by done. rewrite IH.
      destruct (decide (haz ∈ l)) as [Hin | Hnin];
        destruct (decide (haz ∈ h0 :: l)) as [Hin' | Hnin']; try done.
      * exfalso. apply Hnin'. apply elem_of_cons. by right.
      * apply elem_of_cons in Hin' as [-> | Hin']; done.
Qed.

(** X18. [cons_by_hazard] with the duplicate check returns only when
    every record of the file has a hashable taxonomy (a string or a
    number) and a hazard type, and the taxonomies are pairwise distinct
    over the whole file, whatever their hazard types.  Its result then
    has exactly the requested hazards as keys, and under each of them the
    records of that hazard type in file order, keyed by taxonomy and
    stripped of the two keys. *)
Theorem cons_by_hazard_groups (consequences : list ConsFile.record)
    (hazard : ConsFile.hazard_arg) (r : ConsFile.grouped) :
  ConsFile.cons_by_hazard consequences hazard true = inr r ->
  (exists taxs,
     Forall2 (fun c t => exists v, c !! "asset_taxonomy" = Some v
                                   /\ ConsFile.hash_key v = inr t) consequences taxs
     /\ NoDup taxs)
  /\ Forall (fun c => is_Some (c !! "hazard_type")) consequences
  /\ forall haz,
       r !! haz = if decide (haz ∈ ConsFile.hazards hazard)
                  then Some (omap (ConsFile.kept_under haz) consequences)
                  else None.
Proof.
  intros H. unfold ConsFile.cons_by_hazard in H. bind_inv H as refs Hrefs.
  destruct (check_taxonomy_loop _ _ _ Hrefs) as (taxs & Hall & Hnd & _).
  assert (Hom : omap ConsFile.taxonomy_of consequences = taxs).
  { clear -Hall. induction Hall as [| c t l ts Hc _ IH]; [reflexivity |].
    change (omap ConsFile.taxonomy_of (c :: l))
      with (match ConsFile.taxonomy_of c with
            | Some y => y :: omap ConsFile.taxonomy_of l
            | None => omap ConsFile.taxonomy_of l
            end).
    by rewrite IH, Hc. }
  assert (Htax : Forall (fun c => is_Some (ConsFile.taxonomy_of c)) consequences).
  { clear -Hall. induction Hall as [| c t l ts Hc _ IH]; constructor; [| exact IH].
    by eexists. }
  destruct (group_loop (ConsFile.hazards hazard) consequences []
              (ConsFile.empty_groups hazard) r Htax)
    as [Hty Hres]; [by rewrite app_nil_l, Hom | | exact H |].
  - intros haz. apply empty_groups_lookup.
  - split; [| split; [exact Hty | exact Hres]].
    exists taxs. split; [| exact Hnd].
    eapply Forall2_impl; [exact Hall |]. intros c t Hc. by apply taxonomy_hash_key.
Qed.

Lemma cons_by_hazard_groups_witness :
  (exists taxs,
     Forall2 (fun c t => exists v, c !! "asset_taxonomy" = Some v
                                   /\ ConsFile.hash_key v = inr t)
       ConsFile.two_hazard_file taxs
     /\ NoDup taxs)
  /\ Forall (fun c => is_Some (c !! "hazard_type")) ConsFile.two_hazard_file
  /\ forall haz,
       ConsFile.two_hazard_out !! haz
       = if decide (haz ∈ ConsFile.hazards (ConsFile.OneHazard "earthquake"))
         then Some (omap (ConsFile.kept_under haz) ConsFile.two_hazard_file)
         else None.
Proof.
  apply (cons_by_hazard_groups ConsFile.two_hazard_file
           (ConsFile.OneHazard "earthquake") ConsFile.two_hazard_out).
  vm_compute. reflexivity.
Defined.
